(** * DCL network peer discovery: a shallow embedding

    The repository holds two variants of one crawler:

    - [discover_peers.py], a command-line script that crawls the network once
      and writes [network.json] (module [Cli] below);
    - [peer_network.py], a web server that runs the same crawl in a background
      thread and publishes the stores and a few counters (module [Web] below).

    Both keep a registry of nodes keyed by node identity (a Python [dict]), a
    list of edges with a set of canonical keys for deduplication, and a set of
    RPC addresses already queried.  Dictionaries are embedded as [gmap], sets
    as [gset], the edge list as a [list]; Python strings are embedded as
    [string] (byte strings; only ASCII case mapping is modelled).

    The three RPC queries are the only contact with the outside world.  Each
    of them swallows every exception and returns a default, so a network is
    embedded as a record of three total functions of the RPC address. *)

From Stdlib Require Import ZArith Ascii.
From stdpp Require Import base gmap sets list strings.

Local Open Scope Z_scope.
Local Open Scope nat_scope.

#[local] Set Warnings "-clear-no-such-hyp".

(** ** Python string operations used by the scripts *)

Module Py.

(** [s.startswith(p)] *)
Definition startswith (s p : string) : bool := String.prefix p s.

(** [sub in s] *)
Fixpoint contains (sub s : string) : bool :=
  String.prefix sub s ||
  match s with
  | EmptyString => false
  | String _ s' => contains sub s'
  end.

(** [s.endswith(p)] *)
Definition endswith (s p : string) : bool :=
  let n := String.length s in
  let m := String.length p in
  (m <=? n) && String.eqb (String.substring (n - m) m s) p.

Definition lower_ascii (c : ascii) : ascii :=
  let n := nat_of_ascii c in
  if (65 <=? n) && (n <=? 90) then ascii_of_nat (n + 32) else c.

(** [s.lower()] on ASCII letters *)
Fixpoint lower (s : string) : string :=
  match s with
  | EmptyString => EmptyString
  | String c s' => String (lower_ascii c) (lower s')
  end.

(** [s.split(sep)] cut at the first occurrence of [sep] only:
    [Some (before, after)], or [None] when [sep] does not occur.
    [sep] is never empty in the scripts. *)
Fixpoint cut (sep s : string) : option (string * string) :=
  if String.prefix sep s
  then Some (EmptyString, String.substring (String.length sep) (String.length s) s)
  else match s with
       | EmptyString => None
       | String c s' =>
           match cut sep s' with
           | Some (b, a) => Some (String c b, a)
           | None => None
           end
       end.

(** [s.split(sep)[0]] *)
Definition split_0 (sep s : string) : string :=
  match cut sep s with
  | Some (b, _) => b
  | None => s
  end.

(** [s.split(sep)[1]]; [None] stands for the [IndexError] raised when
    [sep] does not occur in [s]. *)
Definition split_1 (sep s : string) : option string :=
  match cut sep s with
  | Some (_, a) => Some (split_0 sep a)
  | None => None
  end.

(** [s.replace(old, "")]: occurrences are removed left to right without
    overlap; [skip] counts the characters of the current occurrence that
    are still to be dropped. *)
Fixpoint remove_from (skip : nat) (old s : string) : string :=
  match s with
  | EmptyString => EmptyString
  | String c s' =>
      match skip with
      | S k => remove_from k old s'
      | O =>
          if String.prefix old s
          then remove_from (String.length old - 1) old s'
          else String c (remove_from 0 old s')
      end
  end.

Definition remove_all (old s : string) : string := remove_from 0 old s.

(** Truth value of an optional string: [None] and [""] are false. *)
Definition truthy (o : option string) : bool :=
  match o with
  | Some s => negb (String.eqb s "")
  | None => false
  end.

(** [d.get(key, dflt)] for a key that is absent ([None]) or holds a string. *)
Definition get_or (dflt : string) (o : option string) : string :=
  match o with
  | Some s => s
  | None => dflt
  end.

End Py.

(** ** Code shared by the two scripts *)

(** [is_private_ip(ip)], identical in both files. *)
Definition is_private_ip (ip : string) : bool :=
  Py.startswith ip "10." ||
  Py.startswith ip "172.16." || Py.startswith ip "172.17." ||
  Py.startswith ip "172.18." || Py.startswith ip "172.19." ||
  Py.startswith ip "172.2" || Py.startswith ip "172.30." || Py.startswith ip "172.31." ||
  Py.startswith ip "192.168." ||
  Py.startswith ip "127.".

Inductive node_type := Validator | Sentry | Observer | Seed | Unknown.

#[global] Instance node_type_eq_dec : EqDecision node_type.
Proof. solve_decision. Defined.

(** [get_node_type(moniker)] *)
Definition get_node_type (moniker : string) : node_type :=
  let m := Py.lower moniker in
  if Py.contains "-vn-" m || Py.endswith m "-vn" then Validator
  else if Py.contains "-sn-" m || Py.contains "sentry" m then Sentry
  else if Py.contains "-on-" m || Py.contains "observer" m then Observer
  else if Py.contains "seed" m then Seed
  else Unknown.

(** [get_org(moniker)] *)
Definition get_org (moniker : string) : string :=
  if Py.contains "-" moniker then Py.split_0 "-" moniker else moniker.

(** One entry of the [peers] array of a [/net_info] answer; a key that is
    missing from the JSON object is [None]. *)
Record peer_entry := PeerEntry {
  pe_id : option string;
  pe_moniker : option string;
  pe_version : option string;
  pe_remote_ip : option string
}.

(** The dictionary built by [query_status]: all four keys are always there,
    a value is [None] when the answer lacked the field. *)
Record status_info := StatusInfo {
  si_id : option string;
  si_moniker : option string;
  si_version : option string;
  si_height : option string
}.

(** The network as seen through the three query functions. *)
Record rpc := Rpc {
  query_net_info : string -> list peer_entry;
  query_status : string -> option status_info;
  query_abci_info : string -> option string
}.

(** A node record: the dictionary stored under a node identity. *)
Record node := Node {
  n_id : string;
  n_ip : string;
  n_port : Z;
  n_moniker : string;
  n_tendermint_version : option string;
  n_type : node_type;
  n_org : string;
  n_rpc_url : string;
  n_rpc_accessible : bool;
  n_dcl_version : option string;
  n_height : option string
}.

Record edge := Edge { source : string; target : string }.

#[global] Instance edge_eq_dec : EqDecision edge.
Proof. solve_decision. Defined.

(** [f"http://{ip}:26657"] *)
Definition rpc_url_of (ip : string) : string := "http://" +:+ ip +:+ ":26657".

(** [tuple(sorted([source_id, target_id]))]: strings compare by code point,
    which on byte strings is [String.ltb]. *)
Definition edge_key (a b : string) : string * string :=
  if String.ltb b a then (b, a) else (a, b).

(** Python exceptions that can escape the seed loops. *)
Inductive pyexn := AttributeError | IndexError.

(** The order in which the tasks of one [ThreadPoolExecutor] batch take
    effect.  The tasks of a batch are taken to run one after the other; which
    one comes first is up to the pool, so every theorem about a crawl is
    stated for all schedulers.  (What happens when the statements of two
    tasks interleave is the subject of module [Race].) *)
Record scheduler (A : Type) := Scheduler {
  order : list A -> list A;
  order_perm : forall l, order l ≡ₚ l
}.
Arguments order {A} _ _.
Arguments order_perm {A} _ _.

(** Two schedulers: the tasks in the order of the frontier, and in the
    opposite order. *)
Definition fifo {A : Type} : scheduler A :=
  Scheduler A (fun l => l) (fun l => reflexivity l).

Definition lifo {A : Type} : scheduler A :=
  Scheduler A reverse (@reverse_Permutation A).

(** ** [discover_peers.py] *)

Module Cli.

(** The four module-level stores. *)
Record state := State {
  discovered_peers : gmap string node;
  edges : list edge;
  edge_set : gset (string * string);
  visited_rpcs : gset string
}.

(** The stores when the script starts. *)
Definition init : state := State ∅ [] ∅ ∅.

Definition SEED_NODES : list string :=
  [ "https://on.dcl.csa-iot.org:26657";
    "http://13.52.115.12:26657";
    "http://54.183.6.67:26657" ].

(** How a turn of the seed loop ends: normally, or with an exception (the
    stores are then as the turn found them). *)
Inductive result := Ok (st : state) | Raise (e : pyexn) (st : state).

(** How a run ends: the loop stopped, the seed loop raised, or the fuel
    given to the loop was used up. *)
Inductive outcome := Finished (st : state) | Raised (e : pyexn) (st : state) | OutOfFuel.

(** [add_edge(source_id, target_id)] *)
Definition add_edge (source_id target_id : string) (st : state) : state :=
  let key := edge_key source_id target_id in
  if decide (key ∈ edge_set st) then st
  else State (discovered_peers st)
             (edges st ++ [Edge source_id target_id])
             ({[ key ]} ∪ edge_set st)
             (visited_rpcs st).

(** The record [discover_from_node] stores for a peer seen for the first
    time. *)
Definition peer_node (peer_id remote_ip : string) (peer : peer_entry) : node :=
  let moniker := Py.get_or "unknown" (pe_moniker peer) in
  {| n_id := peer_id;
     n_ip := remote_ip;
     n_port := 26656;
     n_moniker := moniker;
     n_tendermint_version := Some (Py.get_or "unknown" (pe_version peer));
     n_type := get_node_type moniker;
     n_org := get_org moniker;
     n_rpc_url := rpc_url_of remote_ip;
     n_rpc_accessible := false;
     n_dcl_version := None;
     n_height := None |}.

(** The first half of the loop body: "Add node if new". *)
Definition add_peer (peer_id remote_ip : string) (peer : peer_entry) (st : state) : state :=
  match discovered_peers st !! peer_id with
  | Some _ => st
  | None =>
      State (<[peer_id := peer_node peer_id remote_ip peer]> (discovered_peers st))
            (edges st) (edge_set st) (visited_rpcs st)
  end.

(** One turn of the [for peer in peers] loop of [discover_from_node]. *)
Definition visit_peer (source_id : string) (st : state) (peer : peer_entry) : state :=
  match pe_id peer, pe_remote_ip peer with
  | Some peer_id, Some remote_ip =>
      if negb (Py.truthy (Some peer_id)) || negb (Py.truthy (Some remote_ip)) then st
      else if is_private_ip remote_ip then st
      else
        let st1 := add_peer peer_id remote_ip peer st in
        if Py.truthy (Some source_id) then add_edge source_id peer_id st1 else st1
  | _, _ => st
  end.

Definition mark_visited (rpc_url : string) (st : state) : state :=
  State (discovered_peers st) (edges st) (edge_set st) ({[ rpc_url ]} ∪ visited_rpcs st).

(** [discover_from_node(source_id, rpc_url)].  The list of new peers it
    returns is dropped by both callers, so only the effect on the stores
    is kept. *)
Definition discover_from_node (net : rpc) (source_id rpc_url : string) (st : state) : state :=
  if decide (rpc_url ∈ visited_rpcs st) then st
  else foldl (visit_peer source_id) (mark_visited rpc_url st) (query_net_info net rpc_url).

(** The record [crawl_network] stores for a seed that answered. *)
Definition seed_node (seed_id seed_url moniker : string) (status : status_info)
    (dcl_version : option string) : node :=
  {| n_id := seed_id;
     n_ip := Py.split_0 ":" (Py.remove_all "http://" (Py.remove_all "https://" seed_url));
     n_port := 26656;
     n_moniker := moniker;
     n_tendermint_version := si_version status;
     n_type := get_node_type moniker;
     n_org := get_org moniker;
     n_rpc_url := seed_url;
     n_rpc_accessible := true;
     n_dcl_version := dcl_version;
     n_height := si_height status |}.

(** One turn of the [for seed in SEED_NODES] loop.  A status answer without
    a moniker makes [get_node_type(None)] raise [AttributeError]. *)
Definition seed_step (net : rpc) (seed_url : string) (st : state) : result :=
  match query_status net seed_url with
  | Some status =>
      if Py.truthy (si_id status) then
        let seed_id := Py.get_or "" (si_id status) in
        match si_moniker status with
        | None => Raise AttributeError st
        | Some moniker =>
            let dcl_version := query_abci_info net seed_url in
            let st1 :=
              State (<[seed_id := seed_node seed_id seed_url moniker status dcl_version]>
                       (discovered_peers st))
                    (edges st) (edge_set st) (visited_rpcs st) in
            Ok (discover_from_node net seed_id seed_url st1)
        end
      else Ok st
  | None => Ok st
  end.

Fixpoint seed_phase (net : rpc) (seeds : list string) (st : state) : result :=
  match seeds with
  | [] => Ok st
  | seed_url :: rest =>
      match seed_step net seed_url st with
      | Ok st' => seed_phase net rest st'
      | Raise e st' => Raise e st'
      end
  end.

(** [peers_to_query]: the known nodes whose RPC address is not visited. *)
Definition peers_to_query (st : state) : list (string * string) :=
  (fun kv => (kv.1, n_rpc_url kv.2)) <$>
    filter (fun kv => n_rpc_url kv.2 ∉ visited_rpcs st) (map_to_list (discovered_peers st)).

(** One batch of the thread pool: every task of the frontier runs. *)
Definition run_batch (net : rpc) (tasks : list (string * string)) (st : state) : state :=
  foldl (fun s task => discover_from_node net task.1 task.2 s) st tasks.

Definition iteration (net : rpc) (sched : scheduler (string * string)) (st : state) : state :=
  run_batch net (order sched (peers_to_query st)) st.

(** The [while True] loop of [crawl_network]; [fuel] bounds the number of
    times the loop test is evaluated. *)
Fixpoint crawl_loop (net : rpc) (sched : scheduler (string * string))
    (fuel : nat) (st : state) : option state :=
  match fuel with
  | O => None
  | S fuel' =>
      match peers_to_query st with
      | [] => Some st
      | _ :: _ => crawl_loop net sched fuel' (iteration net sched st)
      end
  end.

(** [crawl_network()], from freshly initialised stores. *)
Definition crawl_network (net : rpc) (sched : scheduler (string * string))
    (seeds : list string) (fuel : nat) : outcome :=
  match seed_phase net seeds init with
  | Raise e st => Raised e st
  | Ok st =>
      match crawl_loop net sched fuel st with
      | Some st' => Finished st'
      | None => OutOfFuel
      end
  end.

(** [check_peer(peer_id, peer_info)]: the update of one record. *)
Definition check_peer (net : rpc) (peer_info : node) : node :=
  if n_rpc_accessible peer_info then peer_info
  else
    match query_status net (n_rpc_url peer_info) with
    | Some status =>
        {| n_id := n_id peer_info;
           n_ip := n_ip peer_info;
           n_port := n_port peer_info;
           n_moniker := n_moniker peer_info;
           n_tendermint_version := n_tendermint_version peer_info;
           n_type := n_type peer_info;
           n_org := n_org peer_info;
           n_rpc_url := n_rpc_url peer_info;
           n_rpc_accessible := true;
           n_dcl_version := query_abci_info net (n_rpc_url peer_info);
           n_height := si_height status |}
    | None => peer_info
    end.

(** [check_rpc_accessibility()]: every task updates its own record only. *)
Definition check_rpc_accessibility (net : rpc) (st : state) : state :=
  State (check_peer net <$> discovered_peers st) (edges st) (edge_set st) (visited_rpcs st).

End Cli.

(** ** [peer_network.py] *)

Module Web.

(** A node dictionary of the web variant: the shared fields plus the
    [_discovered] attribute that [crawl_worker] adds (absent reads as false). *)
Record wnode := WNode { w_node : node; w_discovered : bool }.

Record stats := Stats { total_nodes : nat; total_edges : nat; accessible_rpc : nat }.

Inductive run_status := idle | discovering | complete.

(** The global [network] dictionary (without [discovery_log], whose entries
    carry wall-clock time stamps) and the two global sets. *)
Record state := State {
  nodes : gmap string wnode;
  edges : list edge;
  status : run_status;
  net_stats : stats;
  visited_rpcs : gset string;
  edge_set : gset (string * string)
}.

(** The globals when the module is loaded. *)
Definition init : state := State ∅ [] idle (Stats 0 0 0) ∅ ∅.

Definition SEED_NODES : list (string * string) :=
  [ ("https://on.dcl.csa-iot.org:26657", "CSA-ON-01");
    ("http://13.52.115.12:26657", "CSA-Pub-SN-01") ].

(** How a turn of the seed loop ends: normally, or with an exception (the
    stores are then as the turn found them). *)
Inductive result := Ok (st : state) | Raise (e : pyexn) (st : state).

(** How a run ends: the loop stopped, the seed loop raised, or the fuel
    given to the loop was used up. *)
Inductive outcome := Finished (st : state) | Raised (e : pyexn) (st : state) | OutOfFuel.

Definition set_rpc_accessible (n : node) : node :=
  {| n_id := n_id n; n_ip := n_ip n; n_port := n_port n; n_moniker := n_moniker n;
     n_tendermint_version := n_tendermint_version n; n_type := n_type n;
     n_org := n_org n; n_rpc_url := n_rpc_url n;
     n_rpc_accessible := true;
     n_dcl_version := n_dcl_version n; n_height := n_height n |}.

Definition set_dcl_version (v : option string) (n : node) : node :=
  {| n_id := n_id n; n_ip := n_ip n; n_port := n_port n; n_moniker := n_moniker n;
     n_tendermint_version := n_tendermint_version n; n_type := n_type n;
     n_org := n_org n; n_rpc_url := n_rpc_url n;
     n_rpc_accessible := n_rpc_accessible n;
     n_dcl_version := v; n_height := n_height n |}.

Definition set_height (h : option string) (n : node) : node :=
  {| n_id := n_id n; n_ip := n_ip n; n_port := n_port n; n_moniker := n_moniker n;
     n_tendermint_version := n_tendermint_version n; n_type := n_type n;
     n_org := n_org n; n_rpc_url := n_rpc_url n;
     n_rpc_accessible := n_rpc_accessible n;
     n_dcl_version := n_dcl_version n; n_height := h |}.

(** The [else] branch of [add_node]: "Update existing node with new info". *)
Definition merge_update (rpc_accessible : bool) (dcl_version height : option string)
    (n : node) : node :=
  let n1 := if rpc_accessible then set_rpc_accessible n else n in
  let n2 := if Py.truthy dcl_version then set_dcl_version dcl_version n1 else n1 in
  if Py.truthy height then set_height height n2 else n2.

(** The dictionary [add_node] stores for an identity it does not know. *)
Definition new_node (peer_id ip : string) (port : Z) (moniker : string)
    (version : option string) (rpc_accessible : bool)
    (dcl_version height : option string) : node :=
  {| n_id := peer_id;
     n_ip := ip;
     n_port := port;
     n_moniker := moniker;
     n_tendermint_version := version;
     n_type := get_node_type moniker;
     n_org := get_org moniker;
     n_rpc_url := rpc_url_of ip;
     n_rpc_accessible := rpc_accessible;
     n_dcl_version := dcl_version;
     n_height := height |}.

(** [add_node(peer_id, ip, port, moniker, version, rpc_accessible,
    dcl_version, height)] *)
Definition add_node (peer_id ip : string) (port : Z) (moniker : string)
    (version : option string) (rpc_accessible : bool)
    (dcl_version height : option string) (st : state) : state :=
  match nodes st !! peer_id with
  | None =>
      let nodes' :=
        <[peer_id := WNode (new_node peer_id ip port moniker version
                              rpc_accessible dcl_version height) false]> (nodes st) in
      State nodes' (edges st) (status st)
            (Stats (size nodes') (total_edges (net_stats st)) (accessible_rpc (net_stats st)))
            (visited_rpcs st) (edge_set st)
  | Some w =>
      State (<[peer_id := WNode (merge_update rpc_accessible dcl_version height (w_node w))
                                (w_discovered w)]> (nodes st))
            (edges st) (status st) (net_stats st) (visited_rpcs st) (edge_set st)
  end.

(** [add_edge(source_id, target_id)] *)
Definition add_edge (source_id target_id : string) (st : state) : state :=
  let key := edge_key source_id target_id in
  if decide (key ∈ edge_set st) then st
  else
    let edges' := edges st ++ [Edge source_id target_id] in
    State (nodes st) edges' (status st)
          (Stats (total_nodes (net_stats st)) (length edges') (accessible_rpc (net_stats st)))
          (visited_rpcs st) ({[ key ]} ∪ edge_set st).

(** One turn of the [for peer in peers] loop of [discover_from_node]. *)
Definition visit_peer (source_id : string) (st : state) (peer : peer_entry) : state :=
  match pe_id peer, pe_remote_ip peer with
  | Some peer_id, Some remote_ip =>
      if negb (Py.truthy (Some peer_id)) || negb (Py.truthy (Some remote_ip)) then st
      else if is_private_ip remote_ip then st
      else
        let st1 :=
          add_node peer_id remote_ip 26656
                   (Py.get_or "unknown" (pe_moniker peer))
                   (Some (Py.get_or "unknown" (pe_version peer)))
                   false None None st in
        if Py.truthy (Some source_id) then add_edge source_id peer_id st1 else st1
  | _, _ => st
  end.

Definition mark_visited (rpc_url : string) (st : state) : state :=
  State (nodes st) (edges st) (status st) (net_stats st)
        ({[ rpc_url ]} ∪ visited_rpcs st) (edge_set st).

(** [discover_from_node(source_id, rpc_url)]; the returned list is dropped
    by both callers. *)
Definition discover_from_node (net : rpc) (source_id rpc_url : string) (st : state) : state :=
  if decide (rpc_url ∈ visited_rpcs st) then st
  else foldl (visit_peer source_id) (mark_visited rpc_url st) (query_net_info net rpc_url).

(** [network["nodes"][peer_id]["_discovered"] = True]; the identity is a
    key of the registry wherever the scripts do this. *)
Definition mark_discovered (peer_id : string) (st : state) : state :=
  State (alter (fun w => WNode (w_node w) true) peer_id (nodes st))
        (edges st) (status st) (net_stats st) (visited_rpcs st) (edge_set st).

(** [sum(1 for n in network["nodes"].values() if n.get("rpc_accessible"))] *)
Definition count_accessible (m : gmap string wnode) : nat :=
  length (filter (fun kv => n_rpc_accessible (w_node kv.2) = true) (map_to_list m)).

Definition refresh_accessible (st : state) : state :=
  State (nodes st) (edges st) (status st)
        (Stats (total_nodes (net_stats st)) (total_edges (net_stats st))
               (count_accessible (nodes st)))
        (visited_rpcs st) (edge_set st).

(** [crawl_worker(peer_id)] *)
Definition crawl_worker (net : rpc) (peer_id : string) (st : state) : state :=
  match nodes st !! peer_id with
  | None => st
  | Some w =>
      let peer_info := w_node w in
      let rpc_url := n_rpc_url peer_info in
      let st1 :=
        match query_status net rpc_url with
        | Some status =>
            let dcl_version := query_abci_info net rpc_url in
            refresh_accessible
              (add_node peer_id (n_ip peer_info) (n_port peer_info) (n_moniker peer_info)
                        (n_tendermint_version peer_info) true dcl_version
                        (si_height status) st)
        | None => st
        end in
      mark_discovered peer_id (discover_from_node net peer_id rpc_url st1)
  end.

(** The first block of [start_discovery]. *)
Definition reset : state := State ∅ [] discovering (Stats 0 0 0) ∅ ∅.

(** One turn of the [for rpc_url, moniker in SEED_NODES] loop.
    [rpc_url.split("//")[1]] raises [IndexError] on an address without
    ["//"]. *)
Definition seed_step (net : rpc) (seed_entry : string * string) (st : state) : result :=
  let rpc_url := seed_entry.1 in
  let moniker := seed_entry.2 in
  match query_status net rpc_url with
  | Some status =>
      if Py.truthy (si_id status) then
        let seed_id := Py.get_or "" (si_id status) in
        let dcl_version := query_abci_info net rpc_url in
        match Py.split_1 "//" rpc_url with
        | None => Raise IndexError st
        | Some host_port =>
            let st1 :=
              add_node seed_id (Py.split_0 ":" host_port) 26656 moniker
                       (si_version status) true dcl_version (si_height status) st in
            Ok (mark_discovered seed_id (discover_from_node net seed_id rpc_url st1))
        end
      else Ok st
  | None => Ok st
  end.

Fixpoint seed_phase (net : rpc) (seeds : list (string * string)) (st : state) : result :=
  match seeds with
  | [] => Ok st
  | seed_entry :: rest =>
      match seed_step net seed_entry st with
      | Ok st' => seed_phase net rest st'
      | Raise e st' => Raise e st'
      end
  end.

(** [peers_to_crawl] *)
Definition peers_to_crawl (st : state) : list string :=
  fst <$> filter (fun kv => w_discovered kv.2 = false ∧
                            n_rpc_url (w_node kv.2) ∉ visited_rpcs st)
                 (map_to_list (nodes st)).

Definition run_batch (net : rpc) (tasks : list string) (st : state) : state :=
  foldl (fun s peer_id => crawl_worker net peer_id s) st tasks.

Definition iteration (net : rpc) (sched : scheduler string) (st : state) : state :=
  run_batch net (order sched (peers_to_crawl st)) st.

(** The [while True] loop of [start_discovery]; [fuel] bounds the number of
    times the loop test is evaluated. *)
Fixpoint crawl_loop (net : rpc) (sched : scheduler string)
    (fuel : nat) (st : state) : option state :=
  match fuel with
  | O => None
  | S fuel' =>
      match peers_to_crawl st with
      | [] => Some st
      | _ :: _ => crawl_loop net sched fuel' (iteration net sched st)
      end
  end.

Definition set_status (s : run_status) (st : state) : state :=
  State (nodes st) (edges st) s (net_stats st) (visited_rpcs st) (edge_set st).

(** [start_discovery()] *)
Definition start_discovery (net : rpc) (sched : scheduler string)
    (seeds : list (string * string)) (fuel : nat) : outcome :=
  match seed_phase net seeds reset with
  | Raise e st => Raised e st
  | Ok st =>
      match crawl_loop net sched fuel st with
      | Some st' => Finished (set_status complete st')
      | None => OutOfFuel
      end
  end.

End Web.

(** ** Two [discover_from_node] calls whose statements interleave

    The pool runs up to ten calls at once and nothing orders the statements
    of two calls.  Up to the peer-list query a call makes three steps: the
    membership test (line 112 of [discover_peers.py], 161 of
    [peer_network.py]), the insertion into [visited_rpcs] (114, 163) and
    [query_net_info] (116, 165). *)

Module Race.

Inductive pc := AtTest | AtAdd | AtQuery | Returned.

Record call := Call { c_url : string; c_pc : pc }.

Record conf := Conf {
  visited_rpcs : gset string;
  queried : list string;      (* the addresses handed to [query_net_info], latest first *)
  calls : list call
}.

(** The call at position [i] executes its next statement. *)
Definition step (c : conf) (i : nat) : conf :=
  match calls c !! i with
  | None => c
  | Some (Call u AtTest) =>
      if decide (u ∈ visited_rpcs c)
      then Conf (visited_rpcs c) (queried c) (<[i := Call u Returned]> (calls c))
      else Conf (visited_rpcs c) (queried c) (<[i := Call u AtAdd]> (calls c))
  | Some (Call u AtAdd) =>
      Conf ({[ u ]} ∪ visited_rpcs c) (queried c) (<[i := Call u AtQuery]> (calls c))
  | Some (Call u AtQuery) =>
      Conf (visited_rpcs c) (u :: queried c) (<[i := Call u Returned]> (calls c))
  | Some (Call u Returned) => c
  end.

Definition run (schedule : list nat) (c : conf) : conf := foldl step c schedule.

Definition start (visited : gset string) (urls : list string) : conf :=
  Conf visited [] ((fun u => Call u AtTest) <$> urls).

(** The schedule in which each call runs to its end before the next starts. *)
Definition one_by_one (n : nat) : list nat :=
  i ← seq 0 n; [i; i; i].

End Race.

(** ** Auxiliary notions used in the statements *)

(** The canonical key of a stored edge. *)
Definition key_of (e : edge) : string * string := edge_key (source e) (target e).

(** How many entries of an edge list connect [a] and [b], in either
    direction. *)
Definition edge_count (a b : string) (es : list edge) : nat :=
  length (filter (fun e => key_of e = edge_key a b) es).

(** The deduplication set holds exactly the keys of the stored edges, and no
    key is stored twice. *)
Definition edges_wf (es : list edge) (ks : gset (string * string)) : Prop :=
  NoDup (key_of <$> es) ∧ ∀ k, k ∈ ks ↔ k ∈ key_of <$> es.

(** The prefixes the specification lists as private or loopback:
    [10.], [172.16.] to [172.31.], [192.168.] and [127.]. *)
Definition spec_private_prefixes : list string :=
  [ "10.";
    "172.16."; "172.17."; "172.18."; "172.19."; "172.20."; "172.21."; "172.22.";
    "172.23."; "172.24."; "172.25."; "172.26."; "172.27."; "172.28."; "172.29.";
    "172.30."; "172.31.";
    "192.168."; "127." ].

Definition spec_is_private (ip : string) : bool :=
  existsb (Py.startswith ip) spec_private_prefixes.

(** The fields of a node record that only its creation sets. *)
Definition same_static_fields (n1 n2 : node) : Prop :=
  n_id n1 = n_id n2 ∧ n_ip n1 = n_ip n2 ∧ n_port n1 = n_port n2 ∧
  n_moniker n1 = n_moniker n2 ∧ n_tendermint_version n1 = n_tendermint_version n2 ∧
  n_type n1 = n_type n2 ∧ n_org n1 = n_org n2 ∧ n_rpc_url n1 = n_rpc_url n2.

(** The arguments of one [add_node] call. *)
Record add_node_call := AddNodeCall {
  nc_peer_id : string;
  nc_ip : string;
  nc_port : Z;
  nc_moniker : string;
  nc_version : option string;
  nc_rpc_accessible : bool;
  nc_dcl_version : option string;
  nc_height : option string
}.

Definition web_add_node_call (st : Web.state) (c : add_node_call) : Web.state :=
  Web.add_node (nc_peer_id c) (nc_ip c) (nc_port c) (nc_moniker c) (nc_version c)
               (nc_rpc_accessible c) (nc_dcl_version c) (nc_height c) st.

(** The writes to the shared stores of the web variant.  [add_node] and
    [add_edge] hold the lock for their whole body, and so do the reset, the
    refresh of [accessible_rpc], the [_discovered] mark of [crawl_worker] and
    the status update; the insertion into [visited_rpcs] and the
    [_discovered] mark of the seed loop are single store operations.  A run,
    whatever the threads do, is a sequence of these. *)
Inductive web_mutation :=
  | MAddNode (c : add_node_call)
  | MAddEdge (source_id target_id : string)
  | MVisited (rpc_url : string)
  | MDiscovered (peer_id : string)
  | MAccessible
  | MStatus (s : Web.run_status).

Definition web_mutate (st : Web.state) (m : web_mutation) : Web.state :=
  match m with
  | MAddNode c => web_add_node_call st c
  | MAddEdge a b => Web.add_edge a b st
  | MVisited u => Web.mark_visited u st
  | MDiscovered i => Web.mark_discovered i st
  | MAccessible => Web.refresh_accessible st
  | MStatus s => Web.set_status s st
  end.

(** The writes of one turn of the peer loop of [Web.discover_from_node], in
    program order. *)
Definition web_visit_script (source_id : string) (peer : peer_entry) : list web_mutation :=
  match pe_id peer, pe_remote_ip peer with
  | Some peer_id, Some remote_ip =>
      if negb (Py.truthy (Some peer_id)) || negb (Py.truthy (Some remote_ip)) then []
      else if is_private_ip remote_ip then []
      else
        MAddNode (AddNodeCall peer_id remote_ip 26656
                    (Py.get_or "unknown" (pe_moniker peer))
                    (Some (Py.get_or "unknown" (pe_version peer)))
                    false None None)
        :: (if Py.truthy (Some source_id) then [MAddEdge source_id peer_id] else [])
  | _, _ => []
  end.

(** The writes of [Web.discover_from_node] called in state [st]. *)
Definition web_discover_script (net : rpc) (source_id rpc_url : string) (st : Web.state)
    : list web_mutation :=
  if decide (rpc_url ∈ Web.visited_rpcs st) then []
  else MVisited rpc_url :: (query_net_info net rpc_url ≫= web_visit_script source_id).

(** The writes of [Web.crawl_worker] called in state [st]. *)
Definition web_worker_script (net : rpc) (peer_id : string) (st : Web.state)
    : list web_mutation :=
  match Web.nodes st !! peer_id with
  | None => []
  | Some w =>
      let peer_info := Web.w_node w in
      let rpc_url := n_rpc_url peer_info in
      match query_status net rpc_url with
      | Some status =>
          [ MAddNode (AddNodeCall peer_id (n_ip peer_info) (n_port peer_info)
                        (n_moniker peer_info) (n_tendermint_version peer_info) true
                        (query_abci_info net rpc_url) (si_height status));
            MAccessible ]
      | None => []
      end
      ++ web_discover_script net peer_id rpc_url st ++ [MDiscovered peer_id]
  end.

(** The writes of one turn of the seed loop of [Web.start_discovery] called
    in state [st]; [None] when the turn raises. *)
Definition web_seed_script (net : rpc) (seed_entry : string * string) (st : Web.state)
    : option (list web_mutation) :=
  let rpc_url := seed_entry.1 in
  match query_status net rpc_url with
  | Some status =>
      if Py.truthy (si_id status) then
        let seed_id := Py.get_or "" (si_id status) in
        match Py.split_1 "//" rpc_url with
        | None => None
        | Some host_port =>
            Some (MAddNode (AddNodeCall seed_id (Py.split_0 ":" host_port) 26656 seed_entry.2
                              (si_version status) true (query_abci_info net rpc_url)
                              (si_height status))
                  :: web_discover_script net seed_id rpc_url st ++ [MDiscovered seed_id])
        end
      else Some []
  | None => Some []
  end.

(** The states between two tasks of a run of the web variant: after the
    reset, after a turn of the seed loop, after a [crawl_worker] call for
    any identity. *)
Inductive web_boundary (net : rpc) : Web.state -> Prop :=
  | wb_reset : web_boundary net Web.reset
  | wb_seed st seed_entry st' :
      web_boundary net st -> Web.seed_step net seed_entry st = Web.Ok st' ->
      web_boundary net st'
  | wb_worker st peer_id :
      web_boundary net st -> web_boundary net (Web.crawl_worker net peer_id st).

(** The states at any point of a run: between two tasks, or inside a task
    after any number of its writes, or after the final status update. *)
Inductive web_run_point (net : rpc) : Web.state -> Prop :=
  | wrp_boundary st : web_boundary net st -> web_run_point net st
  | wrp_in_worker st peer_id k :
      web_boundary net st ->
      web_run_point net (foldl web_mutate st (take k (web_worker_script net peer_id st)))
  | wrp_in_seed st seed_entry script k :
      web_boundary net st -> web_seed_script net seed_entry st = Some script ->
      web_run_point net (foldl web_mutate st (take k script))
  | wrp_complete st :
      web_boundary net st -> web_run_point net (Web.set_status Web.complete st).

(** Every edge of the web variant joins two registered identities. *)
Definition web_edges_closed (st : Web.state) : Prop :=
  ∀ e, e ∈ Web.edges st →
       source e ∈ dom (Web.nodes st) ∧ target e ∈ dom (Web.nodes st).

(** What a write means for the graph: it registers an identity, it asks for
    an edge, or it does neither. *)
Inductive store_event :=
  | ENode (peer_id : string)
  | EEdge (source_id target_id : string)
  | EOther.

Definition web_event (m : web_mutation) : store_event :=
  match m with
  | MAddNode c => ENode (nc_peer_id c)
  | MAddEdge a b => EEdge a b
  | _ => EOther
  end.

(** In a sequence of writes, every [add_edge] comes after the registration
    of both its identities: they are in [known] or were registered earlier
    in the sequence. *)
Fixpoint edges_after_nodes (known : gset string) (events : list store_event) : Prop :=
  match events with
  | [] => True
  | ENode i :: rest => edges_after_nodes ({[ i ]} ∪ known) rest
  | EEdge a b :: rest => a ∈ known ∧ b ∈ known ∧ edges_after_nodes known rest
  | EOther :: rest => edges_after_nodes known rest
  end.

(** The writes to the stores of the command-line variant. *)
Inductive cli_mutation :=
  | CAddPeer (peer_id remote_ip : string) (peer : peer_entry)
  | CSetSeed (seed_id : string) (n : node)
  | CAddEdge (source_id target_id : string)
  | CVisited (rpc_url : string).

Definition cli_mutate (st : Cli.state) (m : cli_mutation) : Cli.state :=
  match m with
  | CAddPeer i ip peer => Cli.add_peer i ip peer st
  | CSetSeed i n =>
      Cli.State (<[i := n]> (Cli.discovered_peers st))
                (Cli.edges st) (Cli.edge_set st) (Cli.visited_rpcs st)
  | CAddEdge a b => Cli.add_edge a b st
  | CVisited u => Cli.mark_visited u st
  end.

Definition cli_event (m : cli_mutation) : store_event :=
  match m with
  | CAddPeer i _ _ => ENode i
  | CSetSeed i _ => ENode i
  | CAddEdge a b => EEdge a b
  | CVisited _ => EOther
  end.

Definition cli_visit_script (source_id : string) (peer : peer_entry) : list cli_mutation :=
  match pe_id peer, pe_remote_ip peer with
  | Some peer_id, Some remote_ip =>
      if negb (Py.truthy (Some peer_id)) || negb (Py.truthy (Some remote_ip)) then []
      else if is_private_ip remote_ip then []
      else
        CAddPeer peer_id remote_ip peer
        :: (if Py.truthy (Some source_id) then [CAddEdge source_id peer_id] else [])
  | _, _ => []
  end.

(** The writes of [Cli.discover_from_node] called in state [st]. *)
Definition cli_discover_script (net : rpc) (source_id rpc_url : string) (st : Cli.state)
    : list cli_mutation :=
  if decide (rpc_url ∈ Cli.visited_rpcs st) then []
  else CVisited rpc_url :: (query_net_info net rpc_url ≫= cli_visit_script source_id).

(** The writes of one turn of the seed loop of [Cli.crawl_network]; [None]
    when the turn raises. *)
Definition cli_seed_script (net : rpc) (seed_url : string) (st : Cli.state)
    : option (list cli_mutation) :=
  match query_status net seed_url with
  | Some status =>
      if Py.truthy (si_id status) then
        let seed_id := Py.get_or "" (si_id status) in
        match si_moniker status with
        | None => None
        | Some moniker =>
            Some (CSetSeed seed_id
                    (Cli.seed_node seed_id seed_url moniker status
                       (query_abci_info net seed_url))
                  :: cli_discover_script net seed_id seed_url st)
        end
      else Some []
  | None => Some []
  end.

(** The states between two tasks of a run of the command-line variant:
    the initial stores, after a turn of the seed loop, after a
    [discover_from_node] task for a registered identity.  The tasks of a
    batch are taken one after the other and each [cli_mutation] as one step;
    the script takes no lock, so this is the run in which the pool threads
    do not interleave inside a task. *)
Inductive cli_boundary (net : rpc) : Cli.state -> Prop :=
  | cb_init : cli_boundary net Cli.init
  | cb_seed st seed_url st' :
      cli_boundary net st -> Cli.seed_step net seed_url st = Cli.Ok st' ->
      cli_boundary net st'
  | cb_task st peer_id rpc_url :
      cli_boundary net st -> is_Some (Cli.discovered_peers st !! peer_id) ->
      cli_boundary net (Cli.discover_from_node net peer_id rpc_url st).

Inductive cli_run_point (net : rpc) : Cli.state -> Prop :=
  | crp_boundary st : cli_boundary net st -> cli_run_point net st
  | crp_in_task st peer_id rpc_url k :
      cli_boundary net st -> is_Some (Cli.discovered_peers st !! peer_id) ->
      cli_run_point net
        (foldl cli_mutate st (take k (cli_discover_script net peer_id rpc_url st)))
  | crp_in_seed st seed_url script k :
      cli_boundary net st -> cli_seed_script net seed_url st = Some script ->
      cli_run_point net (foldl cli_mutate st (take k script)).

Definition cli_edges_closed (st : Cli.state) : Prop :=
  ∀ e, e ∈ Cli.edges st →
       source e ∈ dom (Cli.discovered_peers st) ∧ target e ∈ dom (Cli.discovered_peers st).

(** The published counters agree with the stores. *)
Definition stats_ok (st : Web.state) : Prop :=
  Web.total_nodes (Web.net_stats st) = size (Web.nodes st) ∧
  Web.total_edges (Web.net_stats st) = length (Web.edges st).

(** A record of the command-line variant that was never reached has no
    application version and no height. *)
Definition unreached_blank (n : node) : Prop :=
  n_rpc_accessible n = false → n_dcl_version n = None ∧ n_height n = None.

(** The stores an outcome carries; the initial stores when the fuel ran
    out. *)
Definition web_final (o : Web.outcome) : Web.state :=
  match o with
  | Web.Finished st => st
  | Web.Raised _ st => st
  | Web.OutOfFuel => Web.init
  end.

Definition cli_final (o : Cli.outcome) : Cli.state :=
  match o with
  | Cli.Finished st => st
  | Cli.Raised _ st => st
  | Cli.OutOfFuel => Cli.init
  end.

(** [w'] is a later version of the record [w]: the fields set at creation
    are the same, and neither [rpc_accessible] nor [_discovered] went back
    to false. *)
Definition wnode_le (w w' : Web.wnode) : Prop :=
  same_static_fields (Web.w_node w) (Web.w_node w') ∧
  (n_rpc_accessible (Web.w_node w) = true → n_rpc_accessible (Web.w_node w') = true) ∧
  (Web.w_discovered w = true → Web.w_discovered w' = true).

(** The write [m] supplies no application version (no height) for [peer_id]:
    it is not an [add_node] for [peer_id], or its argument is [None] or the
    empty string, which Python counts as false too. *)
Definition no_dcl_version_for (peer_id : string) (m : web_mutation) : Prop :=
  match m with
  | MAddNode c => nc_peer_id c = peer_id → Py.truthy (nc_dcl_version c) = false
  | _ => True
  end.

Definition no_height_for (peer_id : string) (m : web_mutation) : Prop :=
  match m with
  | MAddNode c => nc_peer_id c = peer_id → Py.truthy (nc_height c) = false
  | _ => True
  end.

(** A finite, closed network: every identity that any peer list mentions is
    in the finite list [ids]. *)
Definition closed_network (net : rpc) (ids : list string) : Prop :=
  ∀ (rpc_url : string) (peer : peer_entry) (i : string),
    peer ∈ query_net_info net rpc_url → pe_id peer = Some i → i ∈ ids.

(** The frontier in the words of the specification: the known nodes whose
    RPC address is not yet visited. *)
Definition web_unvisited (st : Web.state) : list string :=
  fst <$> filter (fun kv => n_rpc_url (Web.w_node kv.2) ∉ Web.visited_rpcs st)
                 (map_to_list (Web.nodes st)).

Definition cli_unvisited (st : Cli.state) : list string :=
  fst <$> filter (fun kv => n_rpc_url kv.2 ∉ Cli.visited_rpcs st)
                 (map_to_list (Cli.discovered_peers st)).

(** Every seed address has the form [scheme://host...], as the configured
    ones have. *)
Definition web_seeds_ok (seeds : list (string * string)) : Prop :=
  Forall (fun seed_entry => is_Some (Py.split_1 "//" seed_entry.1)) seeds.

(** [st'] is a later state of the same run of the web variant: nothing was
    taken out of [visited_rpcs], and every record is still there, in a later
    version. *)
Definition web_le (st st' : Web.state) : Prop :=
  Web.visited_rpcs st ⊆ Web.visited_rpcs st' ∧
  ∀ pid w, Web.nodes st !! pid = Some w →
           ∃ w', Web.nodes st' !! pid = Some w' ∧ wnode_le w w'.

(** The identities a sequence of writes may register. *)
Definition registers_within (X : gset string) (script : list web_mutation) : Prop :=
  Forall (fun m => match m with MAddNode c => nc_peer_id c ∈ X | _ => True end) script.



(** Every seed that answers the status query with an identity also has a
    name in its answer (without one the command-line seed loop raises). *)
Definition cli_seeds_ok (net : rpc) (seeds : list string) : Prop :=
  Forall (fun seed_url =>
            ∀ status, query_status net seed_url = Some status →
                      Py.truthy (si_id status) = true → is_Some (si_moniker status))
         seeds.

(** The identities a sequence of writes of the command-line variant may
    register. *)
Definition cli_registers_within (X : gset string) (script : list cli_mutation) : Prop :=
  Forall (fun m => match cli_event m with ENode i => i ∈ X | _ => True end) script.

(** *** Example networks *)

Definition if_url {A : Type} (u : string) (a : A) (f : string -> A) : string -> A :=
  fun u' => if String.eqb u' u then a else f u'.

(** One seed whose two peers, [X] and [Y], sit behind one address. *)
Definition shared_address_net : rpc :=
  {| query_net_info :=
       if_url "http://1.1.1.1:26657"
         [ PeerEntry (Some "X") (Some "org-vn-01") (Some "0.34.0") (Some "5.5.5.5");
           PeerEntry (Some "Y") (Some "org-vn-02") (Some "0.34.0") (Some "5.5.5.5") ]
         (fun _ => []);
     query_status :=
       if_url "http://1.1.1.1:26657"
         (Some (StatusInfo (Some "S") (Some "org-seed") (Some "0.34.0") (Some "100")))
         (fun _ => None);
     query_abci_info := fun _ => None |}.

(** Two seeds; the first one lists the second one as a peer. *)
Definition listed_seed_net : rpc :=
  {| query_net_info :=
       if_url "http://1.1.1.1:26657"
         [ PeerEntry (Some "B") (Some "peer-sn-02") (Some "0.34.0") (Some "2.2.2.2") ]
         (fun _ => []);
     query_status :=
       if_url "http://1.1.1.1:26657"
         (Some (StatusInfo (Some "A") (Some "org-on-01") (Some "0.34.0") (Some "100")))
         (if_url "https://b.example.org:26657"
            (Some (StatusInfo (Some "B") (Some "Known-Seed") (Some "0.34.1") (Some "101")))
            (fun _ => None));
     query_abci_info := fun _ => Some "1.4.4" |}.

(** Two seeds, [A] and [B], that both list the one peer [C]; [C] lists [A]
    back. *)
Definition common_peer_net : rpc :=
  {| query_net_info :=
       if_url "http://1.1.1.1:26657"
         [ PeerEntry (Some "C") (Some "org-vn-03") (Some "0.34.0") (Some "3.3.3.3") ]
         (if_url "http://2.2.2.2:26657"
            [ PeerEntry (Some "C") (Some "org-vn-03") (Some "0.34.0") (Some "3.3.3.3") ]
            (if_url "http://3.3.3.3:26657"
               [ PeerEntry (Some "A") (Some "org-on-01") (Some "0.34.0") (Some "1.1.1.1") ]
               (fun _ => [])));
     query_status :=
       if_url "http://1.1.1.1:26657"
         (Some (StatusInfo (Some "A") (Some "org-on-01") (Some "0.34.0") (Some "100")))
         (if_url "http://2.2.2.2:26657"
            (Some (StatusInfo (Some "B") (Some "org-on-02") (Some "0.34.0") (Some "100")))
            (fun _ => None));
     query_abci_info := fun _ => None |}.

(** One seed configured with an [https] address, without peers. *)
Definition https_seed_net : rpc :=
  {| query_net_info := fun _ => [];
     query_status :=
       if_url "https://on.dcl.csa-iot.org:26657"
         (Some (StatusInfo (Some "S") (Some "CSA-ON-01") (Some "0.34.0") (Some "100")))
         (fun _ => None);
     query_abci_info := fun _ => Some "1.4.4" |}.

(** ** The rest of the two scripts *)

(** [sep.join(l)] *)
Fixpoint py_join (sep : string) (l : list string) : string :=
  match l with
  | [] => ""
  | x :: rest =>
      match rest with
      | [] => x
      | _ :: _ => x +:+ sep +:+ py_join sep rest
      end
  end.

(** [l[-n:]] for [n > 0]: the last [n] elements, all of [l] when it is
    shorter. *)
Definition py_last (n : nat) {A : Type} (l : list A) : list A := drop (length l - n) l.

(** *** [peer_network.py]: the discovery log and the request handler *)

Module Server.

(** The [network] dictionary with the [discovery_log] that [Web.state]
    leaves out. *)
Record server := Server {
  network : Web.state;
  discovery_log : list string
}.

(** [f"[{timestamp}] {msg}"]; the time stamp comes from the clock. *)
Definition log_entry (timestamp msg : string) : string :=
  "[" +:+ timestamp +:+ "] " +:+ msg.

(** [log(msg)], as a function of the time stamp read from the clock: the
    effect on [discovery_log]. *)
Definition log (timestamp msg : string) (discovery_log : list string) : list string :=
  let appended := discovery_log ++ [log_entry timestamp msg] in
  if 100 <? length appended then py_last 100 appended else appended.

(** What [do_GET] sends. *)
Inductive response :=
  | SendNetwork (st : Web.state) (log : list string)
  | SendStarted
  | SendAlreadyRunning
  | SendStatus (s : Web.run_status) (stats : Web.stats) (log : list string)
  | SendHtml
  | SendError404.

(** [RequestHandler.do_GET]: the response, and whether a thread running
    [start_discovery] is started. *)
Definition do_GET (path : string) (srv : server) : response * bool :=
  if String.eqb path "/api/network" then
    (SendNetwork (network srv) (discovery_log srv), false)
  else if String.eqb path "/api/start" then
    match Web.status (network srv) with
    | Web.discovering => (SendAlreadyRunning, false)
    | _ => (SendStarted, true)
    end
  else if String.eqb path "/api/status" then
    (SendStatus (Web.status (network srv)) (Web.net_stats (network srv))
                (py_last 20 (discovery_log srv)), false)
  else if String.eqb path "/" || String.eqb path "/index.html" then (SendHtml, false)
  else (SendError404, false).

End Server.

(** *** [discover_peers.py]: return values and the report *)

Module Report.

(** One turn of the peer loop of [discover_from_node], with the list
    [new_peers] it builds. *)
Definition visit_peer_result (source_id : string) (acc : Cli.state * list string)
    (peer : peer_entry) : Cli.state * list string :=
  match pe_id peer, pe_remote_ip peer with
  | Some peer_id, Some remote_ip =>
      if negb (Py.truthy (Some peer_id)) || negb (Py.truthy (Some remote_ip)) then acc
      else if is_private_ip remote_ip then acc
      else
        let st := acc.1 in
        let new_peers :=
          match Cli.discovered_peers st !! peer_id with
          | Some _ => acc.2
          | None => acc.2 ++ [peer_id]
          end in
        let st1 := Cli.add_peer peer_id remote_ip peer st in
        (if Py.truthy (Some source_id) then Cli.add_edge source_id peer_id st1 else st1,
         new_peers)
  | _, _ => acc
  end.

(** [discover_from_node(source_id, rpc_url)] with its return value. *)
Definition discover_from_node_result (net : rpc) (source_id rpc_url : string)
    (st : Cli.state) : Cli.state * list string :=
  if decide (rpc_url ∈ Cli.visited_rpcs st) then (st, [])
  else foldl (visit_peer_result source_id) (Cli.mark_visited rpc_url st, [])
             (query_net_info net rpc_url).

(** The value [check_peer(peer_id, peer_info)] returns. *)
Definition check_peer_result (net : rpc) (peer_id : string) (peer_info : node)
    : option string :=
  if n_rpc_accessible peer_info then Some peer_id
  else
    match query_status net (n_rpc_url peer_info) with
    | Some _ => Some peer_id
    | None => None
    end.

(** The list [check_rpc_accessibility()] returns: the truthy results, in
    the order in which the pool completes the tasks. *)
Definition accessible (net : rpc) (sched : scheduler (string * node)) (st : Cli.state)
    : list string :=
  filter (fun peer_id => Py.truthy (Some peer_id) = true)
    (omap (fun kv => check_peer_result net kv.1 kv.2)
          (order sched (map_to_list (Cli.discovered_peers st)))).

(** The dictionary [orgs] of [print_results], built over the items of the
    registry in the order [items]. *)
Definition group_by_org (items : list (string * node)) : gmap string (list node) :=
  foldl (fun orgs kv =>
           let org := n_org kv.2 in
           <[org := default [] (orgs !! org) ++ [kv.2]]> orgs)
        ∅ items.

(** The entries of the [persistent_peers] line of [print_results];
    [None] stands for the [KeyError] of [discovered_peers[pid]]. *)
Definition persistent_peer_entries (accessible_peers : list string)
    (peers : gmap string node) : option (list string) :=
  mapM (fun pid => (fun n => pid +:+ "@" +:+ n_ip n +:+ ":26656") <$> peers !! pid)
       (take 10 accessible_peers).

Definition persistent_peers (accessible_peers : list string)
    (peers : gmap string node) : option string :=
  py_join "," <$> persistent_peer_entries accessible_peers peers.

End Report.

(** *** Notions used in the further statements *)

(** No character of [s] is [c]. *)
Fixpoint no_char (c : ascii) (s : string) : Prop :=
  match s with
  | EmptyString => True
  | String c' s' => c' ≠ c ∧ no_char c s'
  end.

(** A record of the registry stored under [pid] is consistent: it carries
    its key, and role and organization are the ones its name gives. *)
Definition record_consistent (pid : string) (n : node) : Prop :=
  n_id n = pid ∧ n_type n = get_node_type (n_moniker n) ∧ n_org n = get_org (n_moniker n).

(** What [discover_from_node] stores for a peer it had not seen, listed at
    [rpc_url]: a public, non-empty address, the synthesized RPC address, and
    nothing known about reachability. *)
Definition fresh_peer_record (net : rpc) (rpc_url pid : string) (n : node) : Prop :=
  pid ≠ "" ∧ n_id n = pid ∧ n_ip n ≠ "" ∧ is_private_ip (n_ip n) = false ∧
  n_port n = 26656%Z ∧ n_rpc_url n = rpc_url_of (n_ip n) ∧
  n_rpc_accessible n = false ∧ n_dcl_version n = None ∧ n_height n = None ∧
  ∃ peer, peer ∈ query_net_info net rpc_url ∧
          pe_id peer = Some pid ∧ pe_remote_ip peer = Some (n_ip n).

(** No edge request of a sequence of writes carries an empty identity. *)
Definition edge_requests_nonempty (events : list store_event) : Prop :=
  Forall (fun e => match e with EEdge a b => a ≠ "" ∧ b ≠ "" | _ => True end) events.

Definition web_edges_nonempty (st : Web.state) : Prop :=
  ∀ e, e ∈ Web.edges st → source e ≠ "" ∧ target e ≠ "".

Definition cli_edges_nonempty (st : Cli.state) : Prop :=
  ∀ e, e ∈ Cli.edges st → source e ≠ "" ∧ target e ≠ "".

(** A seed address as [SEED_NODES] writes them: scheme, host and port. *)
Definition seed_address (scheme host port : string) : string :=
  scheme +:+ "://" +:+ host +:+ ":" +:+ port.

(** What the sweep leaves in a record, given what its RPC address answers:
    the answers when there are any, the blank fields otherwise. *)
Definition answers_recorded (net : rpc) (n : node) : Prop :=
  match query_status net (n_rpc_url n) with
  | Some status =>
      n_rpc_accessible n = true ∧
      n_dcl_version n = query_abci_info net (n_rpc_url n) ∧
      n_height n = si_height status
  | None =>
      n_rpc_accessible n = false ∧ n_dcl_version n = None ∧ n_height n = None
  end.

(** A record during the crawl of the command-line variant: the one of a
    peer, with nothing known, or the one of a seed, with its answers. *)
Definition peer_or_seed_record (net : rpc) (n : node) : Prop :=
  (n_rpc_accessible n = false ∧ n_dcl_version n = None ∧ n_height n = None) ∨
  (n_rpc_accessible n = true ∧
   ∃ status, query_status net (n_rpc_url n) = Some status ∧
             n_dcl_version n = query_abci_info net (n_rpc_url n) ∧
             n_height n = si_height status).

(** *** [peer_network.py]: the search for a free port in [main] *)

(** How the [try] block of the port loop ends for one port: the socket was
    bound and closed, [OSError] was raised, or another exception was. *)
Inductive bind_attempt := Bound | RaisesOSError | RaisesOther.

Inductive port_search := PortFound (port : Z) | PortRaised (port : Z) | PortOutOfFuel.

(** The [while True] loop of [main], started at [port]: [OSError] moves on
    to the next port, any other exception leaves the loop and [main]. *)
Fixpoint find_port (attempt : Z -> bind_attempt) (fuel : nat) (port : Z) : port_search :=
  match fuel with
  | 0 => PortOutOfFuel
  | S fuel' =>
      match attempt port with
      | Bound => PortFound port
      | RaisesOSError => find_port attempt fuel' (port + 1)%Z
      | RaisesOther => PortRaised port
      end
  end.

(** [port = 8080] and the loop. *)
Definition main_port (attempt : Z -> bind_attempt) (fuel : nat) : port_search :=
  find_port attempt fuel 8080%Z.

(** Some address answered [/status] on behalf of the record [n] stored
    under [pid]: the address the record holds, or an address whose answer
    carried the identity [pid]. *)
Definition status_answered_for (net : rpc) (pid : string) (n : node) : Prop :=
  (∃ url status, query_status net url = Some status ∧ si_id status = Some pid) ∨
  is_Some (query_status net (n_rpc_url n)).

(** A sequence of writes without a status update. *)
Definition keeps_status (script : list web_mutation) : Prop :=
  Forall (fun m => match m with MStatus _ => False | _ => True end) script.

(** * Theorems *)

Example get_node_type_vn : get_node_type "csa-vn-01" = Validator. Proof. reflexivity. Qed.
Example get_node_type_sn : get_node_type "CSA-Pub-SN-01" = Sentry. Proof. reflexivity. Qed.
Example get_node_type_on : get_node_type "xyz-observer" = Observer. Proof. reflexivity. Qed.
Example get_node_type_seed : get_node_type "public-seed-1" = Seed. Proof. reflexivity. Qed.
Example get_node_type_other : get_node_type "random" = Unknown. Proof. reflexivity. Qed.
Example get_org_csa : get_org "csa-vn-01" = "csa". Proof. reflexivity. Qed.
Example get_org_solo : get_org "soloNode" = "soloNode". Proof. reflexivity. Qed.
Example split_1_url :
  Py.split_1 "//" "https://on.dcl.csa-iot.org:26657" = Some "on.dcl.csa-iot.org:26657".
Proof. reflexivity. Qed.
Example remove_all_scheme :
  Py.split_0 ":" (Py.remove_all "http://" (Py.remove_all "https://" "http://13.52.115.12:26657"))
  = "13.52.115.12".
Proof. reflexivity. Qed.

(** ** Strings *)

Lemma ltb_asym (a b : string) : String.ltb a b = true → String.ltb b a = false.
Proof.
  unfold String.ltb. rewrite (String.compare_antisym b a).
  by destruct (String.compare a b).
Qed.

Lemma ltb_total (a b : string) :
  String.ltb a b = false → String.ltb b a = false → a = b.
Proof.
  unfold String.ltb. rewrite (String.compare_antisym b a).
  destruct (String.compare a b) eqn:E; simpl; try done.
  intros _ _. by apply String.compare_eq_iff.
Qed.

Lemma edge_key_comm (a b : string) : edge_key a b = edge_key b a.
Proof.
  unfold edge_key.
  destruct (String.ltb b a) eqn:Hba, (String.ltb a b) eqn:Hab; try done.
  - apply ltb_asym in Hba. congruence.
  - by rewrite (ltb_total _ _ Hab Hba).
Qed.



Lemma startswith_app (p rest : string) : Py.startswith (p +:+ rest) p = true.
Proof.
  unfold Py.startswith. induction p as [|c p IH]; simpl.
  - by destruct rest.
  - destruct (ascii_dec c c); [apply IH | done].
Qed.

(** ** The edge stores *)

Lemma edge_count_app (a b : string) (es1 es2 : list edge) :
  edge_count a b (es1 ++ es2) = edge_count a b es1 + edge_count a b es2.
Proof. unfold edge_count. by rewrite filter_app, length_app. Qed.

Lemma edge_count_absent (a b : string) (es : list edge) :
  edge_key a b ∉ key_of <$> es → edge_count a b es = 0.
Proof.
  unfold edge_count. induction es as [|e es IH]; [done|].
  rewrite fmap_cons, not_elem_of_cons. intros [Hne Hnin].
  rewrite filter_cons. destruct (decide (key_of e = edge_key a b)); [congruence|].
  by apply IH.
Qed.

Lemma edge_count_present (a b : string) (es : list edge) :
  NoDup (key_of <$> es) → edge_key a b ∈ key_of <$> es → edge_count a b es = 1.
Proof.
  induction es as [|e es IH]; [by intros _ ?%elem_of_nil|].
  rewrite fmap_cons, NoDup_cons, elem_of_cons. intros [Hnin Hnd] Hin.
  change (e :: es) with ([e] ++ es). rewrite edge_count_app.
  unfold edge_count at 1. rewrite filter_cons, filter_nil.
  destruct (decide (key_of e = edge_key a b)) as [Heq | Hne]; simpl.
  - rewrite edge_count_absent; [done | by rewrite <- Heq].
  - destruct Hin as [? | Hin]; [congruence | by apply IH].
Qed.

Lemma edges_wf_empty : edges_wf [] ∅.
Proof.
  split; [constructor|]. intros k. rewrite fmap_nil, elem_of_nil. set_solver.
Qed.

Lemma edges_wf_snoc (a b : string) (es : list edge) (ks : gset (string * string)) :
  edges_wf es ks → edge_key a b ∉ ks →
  edges_wf (es ++ [Edge a b]) ({[ edge_key a b ]} ∪ ks).
Proof.
  intros [Hnd Hks] Hnin. split.
  - rewrite fmap_app. apply NoDup_app. split; [done|]. split.
    + intros k Hk. simpl. rewrite list_elem_of_singleton. intros ->.
      apply Hnin, Hks, Hk.
    + simpl. apply NoDup_singleton.
  - intros k. rewrite fmap_app, elem_of_app, elem_of_union, elem_of_singleton.
    simpl. rewrite list_elem_of_singleton. unfold key_of at 2. simpl.
    rewrite Hks. tauto.
Qed.

Lemma web_add_edge_present (a b : string) (st : Web.state) :
  edge_key a b ∈ Web.edge_set st → Web.add_edge a b st = st.
Proof. intros H. unfold Web.add_edge. by rewrite decide_True. Qed.

Lemma web_add_edge_wf (a b : string) (st : Web.state) :
  edges_wf (Web.edges st) (Web.edge_set st) →
  edges_wf (Web.edges (Web.add_edge a b st)) (Web.edge_set (Web.add_edge a b st)).
Proof.
  intros Hwf. unfold Web.add_edge. case_decide; [done|]. simpl.
  by apply edges_wf_snoc.
Qed.

Lemma web_add_edge_key (a b : string) (st : Web.state) :
  edge_key a b ∈ Web.edge_set (Web.add_edge a b st).
Proof. unfold Web.add_edge. case_decide; [done|]. simpl. set_solver. Qed.

Lemma web_add_edge_mono (a b : string) (st : Web.state) :
  Web.edge_set st ⊆ Web.edge_set (Web.add_edge a b st).
Proof. unfold Web.add_edge. case_decide; [done|]. simpl. set_solver. Qed.

Lemma cli_add_edge_present (a b : string) (st : Cli.state) :
  edge_key a b ∈ Cli.edge_set st → Cli.add_edge a b st = st.
Proof. intros H. unfold Cli.add_edge. by rewrite decide_True. Qed.

Lemma cli_add_edge_wf (a b : string) (st : Cli.state) :
  edges_wf (Cli.edges st) (Cli.edge_set st) →
  edges_wf (Cli.edges (Cli.add_edge a b st)) (Cli.edge_set (Cli.add_edge a b st)).
Proof.
  intros Hwf. unfold Cli.add_edge. case_decide; [done|]. simpl.
  by apply edges_wf_snoc.
Qed.

Lemma cli_add_edge_key (a b : string) (st : Cli.state) :
  edge_key a b ∈ Cli.edge_set (Cli.add_edge a b st).
Proof. unfold Cli.add_edge. case_decide; [done|]. simpl. set_solver. Qed.

Lemma cli_add_edge_mono (a b : string) (st : Cli.state) :
  Cli.edge_set st ⊆ Cli.edge_set (Cli.add_edge a b st).
Proof. unfold Cli.add_edge. case_decide; [done|]. simpl. set_solver. Qed.

(** A run of further [add_edge] calls keeps the stores well formed and
    forgets no key. *)
Lemma web_add_edges_wf (calls : list (string * string)) (st : Web.state) :
  edges_wf (Web.edges st) (Web.edge_set st) →
  let st' := foldl (fun s p => Web.add_edge p.1 p.2 s) st calls in
  edges_wf (Web.edges st') (Web.edge_set st') ∧ Web.edge_set st ⊆ Web.edge_set st'.
Proof.
  revert st. induction calls as [|[a b] calls IH]; intros st Hwf; simpl; [done|].
  destruct (IH (Web.add_edge a b st)) as [H1 H2]; [by apply web_add_edge_wf|].
  split; [done|]. etrans; [apply (web_add_edge_mono a b)|done].
Qed.

Lemma cli_add_edges_wf (calls : list (string * string)) (st : Cli.state) :
  edges_wf (Cli.edges st) (Cli.edge_set st) →
  let st' := foldl (fun s p => Cli.add_edge p.1 p.2 s) st calls in
  edges_wf (Cli.edges st') (Cli.edge_set st') ∧ Cli.edge_set st ⊆ Cli.edge_set st'.
Proof.
  revert st. induction calls as [|[a b] calls IH]; intros st Hwf; simpl; [done|].
  destruct (IH (Cli.add_edge a b st)) as [H1 H2]; [by apply cli_add_edge_wf|].
  split; [done|]. etrans; [apply (cli_add_edge_mono a b)|done].
Qed.

(** The key set matches the edge list after every sequence of writes from
    the initial stores, in both variants. *)
Lemma web_writes_edges_wf (writes : list web_mutation) :
  edges_wf (Web.edges (foldl web_mutate Web.reset writes))
           (Web.edge_set (foldl web_mutate Web.reset writes)).
Proof.
  assert (∀ st, edges_wf (Web.edges st) (Web.edge_set st) →
                edges_wf (Web.edges (foldl web_mutate st writes))
                         (Web.edge_set (foldl web_mutate st writes))) as H.
  { induction writes as [|m writes IH]; intros st Hwf; simpl; [done|].
    apply IH. destruct m as [c | a b | u | i | | s]; simpl; try done.
    - unfold web_add_node_call, Web.add_node.
      by destruct (Web.nodes st !! nc_peer_id c).
    - by apply web_add_edge_wf. }
  apply H, edges_wf_empty.
Qed.

Lemma cli_writes_edges_wf (writes : list cli_mutation) :
  edges_wf (Cli.edges (foldl cli_mutate Cli.init writes))
           (Cli.edge_set (foldl cli_mutate Cli.init writes)).
Proof.
  assert (∀ st, edges_wf (Cli.edges st) (Cli.edge_set st) →
                edges_wf (Cli.edges (foldl cli_mutate st writes))
                         (Cli.edge_set (foldl cli_mutate st writes))) as H.
  { induction writes as [|m writes IH]; intros st Hwf; simpl; [done|].
    apply IH. destruct m as [i ip peer | i n | a b | u]; simpl; try done.
    - unfold Cli.add_peer. by destruct (Cli.discovered_peers st !! i).
    - by apply cli_add_edge_wf. }
  apply H, edges_wf_empty.
Qed.

(** ** The private-address filter *)

Lemma prefix_app_l (a b s : string) :
  String.prefix (a +:+ b) s = true → String.prefix a s = true.
Proof.
  revert s. induction a as [|c a IH]; intros s.
  - by destruct s.
  - change (String c a +:+ b) with (String c (a +:+ b)).
    destruct s as [|c' s]; [done|]. simpl.
    destruct (ascii_dec c c'); [apply IH | done].
Qed.

(** Every address the specification calls private is rejected by the code. *)
Lemma spec_private_is_private (ip : string) :
  spec_is_private ip = true → is_private_ip ip = true.
Proof.
  unfold spec_is_private, spec_private_prefixes, is_private_ip, Py.startswith. simpl.
  assert (∀ d : string, String.prefix ("172.2" +:+ d) ip = true →
                        String.prefix "172.2" ip = true) as H2
    by (intros d; apply prefix_app_l).
  pose proof (H2 "0.") as H20. pose proof (H2 "1.") as H21.
  pose proof (H2 "2.") as H22. pose proof (H2 "3.") as H23.
  pose proof (H2 "4.") as H24. pose proof (H2 "5.") as H25.
  pose proof (H2 "6.") as H26. pose proof (H2 "7.") as H27.
  pose proof (H2 "8.") as H28. pose proof (H2 "9.") as H29.
  clear H2.
  change ("172.2" +:+ "0.") with "172.20." in H20.
  change ("172.2" +:+ "1.") with "172.21." in H21.
  change ("172.2" +:+ "2.") with "172.22." in H22.
  change ("172.2" +:+ "3.") with "172.23." in H23.
  change ("172.2" +:+ "4.") with "172.24." in H24.
  change ("172.2" +:+ "5.") with "172.25." in H25.
  change ("172.2" +:+ "6.") with "172.26." in H26.
  change ("172.2" +:+ "7.") with "172.27." in H27.
  change ("172.2" +:+ "8.") with "172.28." in H28.
  change ("172.2" +:+ "9.") with "172.29." in H29.
  rewrite !orb_true_iff. intuition discriminate.
Qed.

(** The code rejects exactly the listed prefixes and, beyond them, every
    address that starts with [172.2]. *)
Lemma is_private_ip_char (ip : string) :
  is_private_ip ip = true ↔
  spec_is_private ip = true ∨ Py.startswith ip "172.2" = true.
Proof.
  split.
  - unfold spec_is_private, spec_private_prefixes, is_private_ip. simpl.
    rewrite !orb_true_iff. intuition.
  - intros [H | H]; [by apply spec_private_is_private|].
    unfold is_private_ip. rewrite H. by rewrite !orb_true_r.
Qed.

(** C4.  The claim says that an address is excluded if and only if it starts
    with [10.], [172.16.] to [172.31.], [192.168.] or [127.].  The code tests
    the prefix [172.2] where the ten prefixes [172.20.] to [172.29.] are
    meant: the public address 172.200.1.1 starts with none of the listed
    prefixes, and [is_private_ip] rejects it all the same. *)
Theorem is_private_ip_rejects_public_172_200 :
  spec_is_private "172.200.1.1" = false ∧ is_private_ip "172.200.1.1" = true.
Proof. split; reflexivity. Qed.

(** ** [add_edge] *)

(** C3, as the claim states it: [add_edge] would leave the stores alone when
    both identities are equal or when one is empty.  It does not: on empty
    stores each of these calls appends an edge. *)
Lemma add_edge_self_loop_and_empty_append :
  Web.edges Web.reset = [] ∧
  Web.edges (Web.add_edge "n1" "n1" Web.reset) = [Edge "n1" "n1"] ∧
  Web.edges (Web.add_edge "" "n2" Web.reset) = [Edge "" "n2"] ∧
  Cli.edges Cli.init = [] ∧
  Cli.edges (Cli.add_edge "n1" "n1" Cli.init) = [Edge "n1" "n1"] ∧
  Cli.edges (Cli.add_edge "n1" "" Cli.init) = [Edge "n1" ""].
Proof. repeat split; vm_compute; reflexivity. Qed.

Lemma web_add_edge_fresh (a b : string) (st : Web.state) :
  edge_key a b ∉ Web.edge_set st →
  Web.add_edge a b st =
  Web.State (Web.nodes st) (Web.edges st ++ [Edge a b]) (Web.status st)
    (Web.Stats (Web.total_nodes (Web.net_stats st)) (length (Web.edges st ++ [Edge a b]))
       (Web.accessible_rpc (Web.net_stats st)))
    (Web.visited_rpcs st) ({[ edge_key a b ]} ∪ Web.edge_set st).
Proof. intros H. unfold Web.add_edge. by rewrite decide_False. Qed.

Lemma cli_add_edge_fresh (a b : string) (st : Cli.state) :
  edge_key a b ∉ Cli.edge_set st →
  Cli.add_edge a b st =
  Cli.State (Cli.discovered_peers st) (Cli.edges st ++ [Edge a b])
    ({[ edge_key a b ]} ∪ Cli.edge_set st) (Cli.visited_rpcs st).
Proof. intros H. unfold Cli.add_edge. by rewrite decide_False. Qed.

Lemma web_add_node_edges peer_id ip port moniker version acc dcl h (st : Web.state) :
  Web.edges (Web.add_node peer_id ip port moniker version acc dcl h st) = Web.edges st ∧
  Web.edge_set (Web.add_node peer_id ip port moniker version acc dcl h st) = Web.edge_set st ∧
  Web.visited_rpcs (Web.add_node peer_id ip port moniker version acc dcl h st)
    = Web.visited_rpcs st ∧
  Web.status (Web.add_node peer_id ip port moniker version acc dcl h st) = Web.status st.
Proof. unfold Web.add_node. by destruct (Web.nodes st !! peer_id). Qed.

Lemma cli_add_peer_edges peer_id ip peer (st : Cli.state) :
  Cli.edges (Cli.add_peer peer_id ip peer st) = Cli.edges st ∧
  Cli.edge_set (Cli.add_peer peer_id ip peer st) = Cli.edge_set st ∧
  Cli.visited_rpcs (Cli.add_peer peer_id ip peer st) = Cli.visited_rpcs st.
Proof. unfold Cli.add_peer. by destruct (Cli.discovered_peers st !! peer_id). Qed.

(** C3, amended.  [add_edge] is a no-op exactly when the canonical key is
    already recorded; otherwise it appends the one edge [(A, B)] and records
    the key, also when [A = B] or when an identity is empty.  Empty
    identities are kept away by the caller: [discover_from_node] skips a peer
    without identity and adds no edge for an empty source. *)
Theorem add_edge_noop_iff_key_recorded (A B : string) :
  (∀ st : Web.state,
      (edge_key A B ∈ Web.edge_set st → Web.add_edge A B st = st) ∧
      (edge_key A B ∉ Web.edge_set st →
         Web.edges (Web.add_edge A B st) = Web.edges st ++ [Edge A B] ∧
         Web.edge_set (Web.add_edge A B st) = {[ edge_key A B ]} ∪ Web.edge_set st ∧
         Web.nodes (Web.add_edge A B st) = Web.nodes st)) ∧
  (∀ st : Cli.state,
      (edge_key A B ∈ Cli.edge_set st → Cli.add_edge A B st = st) ∧
      (edge_key A B ∉ Cli.edge_set st →
         Cli.edges (Cli.add_edge A B st) = Cli.edges st ++ [Edge A B] ∧
         Cli.edge_set (Cli.add_edge A B st) = {[ edge_key A B ]} ∪ Cli.edge_set st ∧
         Cli.discovered_peers (Cli.add_edge A B st) = Cli.discovered_peers st)) ∧
  (∀ (peer : peer_entry) (wst : Web.state) (cst : Cli.state),
      Py.truthy (pe_id peer) = false →
      Web.visit_peer A wst peer = wst ∧ Cli.visit_peer A cst peer = cst) ∧
  (∀ (peer : peer_entry) (wst : Web.state) (cst : Cli.state),
      Web.edges (Web.visit_peer "" wst peer) = Web.edges wst ∧
      Cli.edges (Cli.visit_peer "" cst peer) = Cli.edges cst).
Proof.
  split; [|split; [|split]].
  - intros st. split; [apply web_add_edge_present|].
    intros H. by rewrite web_add_edge_fresh.
  - intros st. split; [apply cli_add_edge_present|].
    intros H. by rewrite cli_add_edge_fresh.
  - intros peer wst cst Hid. unfold Web.visit_peer, Cli.visit_peer.
    destruct (pe_id peer) as [i|]; [|done].
    destruct (pe_remote_ip peer); [|done]. by rewrite Hid.
  - intros peer wst cst. unfold Web.visit_peer, Cli.visit_peer.
    destruct (pe_id peer) as [i|]; [|done].
    destruct (pe_remote_ip peer) as [ip|]; [|done].
    destruct (negb _ || negb _); [done|]. destruct (is_private_ip ip); [done|].
    simpl. split; [apply web_add_node_edges | apply cli_add_peer_edges].
Qed.

(** The amended statement at concrete stores: a repeated pair is dropped, a
    self-loop on empty stores is not. *)
Lemma add_edge_noop_iff_key_recorded_witness :
  Web.add_edge "n2" "n1" (Web.add_edge "n1" "n2" Web.reset) = Web.add_edge "n1" "n2" Web.reset ∧
  Web.edges (Web.add_edge "n1" "n1" Web.reset) = Web.edges Web.reset ++ [Edge "n1" "n1"].
Proof.
  destruct (add_edge_noop_iff_key_recorded "n2" "n1") as [Hw _].
  destruct (add_edge_noop_iff_key_recorded "n1" "n1") as [Hs _].
  split.
  - apply (Hw (Web.add_edge "n1" "n2" Web.reset)). vm_compute. reflexivity.
  - apply (Hs Web.reset). vm_compute. intros H. discriminate H.
Defined.

(** C7.  Whatever the stores hold (as long as the key set matches the edge
    list), once [add_edge A B] has run, a second call for the same pair, in
    the same or in the swapped order and after any number of other
    [add_edge] calls, leaves exactly one entry for the pair.  The identities
    need not even be distinct. *)
Theorem add_edge_twice_leaves_one_entry
    (A B : string) (between : list (string * string)) :
  (∀ st : Web.state,
      edges_wf (Web.edges st) (Web.edge_set st) →
      let st1 := foldl (fun s p => Web.add_edge p.1 p.2 s) (Web.add_edge A B st) between in
      edge_count A B (Web.edges st1) = 1 ∧
      Web.add_edge A B st1 = st1 ∧ Web.add_edge B A st1 = st1) ∧
  (∀ st : Cli.state,
      edges_wf (Cli.edges st) (Cli.edge_set st) →
      let st1 := foldl (fun s p => Cli.add_edge p.1 p.2 s) (Cli.add_edge A B st) between in
      edge_count A B (Cli.edges st1) = 1 ∧
      Cli.add_edge A B st1 = st1 ∧ Cli.add_edge B A st1 = st1).
Proof.
  split; intros st Hwf st1.
  - destruct (web_add_edges_wf between (Web.add_edge A B st)) as [[Hnd Hks] Hsub];
      [by apply web_add_edge_wf|]. fold st1 in Hnd, Hks, Hsub.
    assert (edge_key A B ∈ Web.edge_set st1) as Hin
      by (apply Hsub, web_add_edge_key).
    split; [|split].
    + apply edge_count_present; [done | by apply Hks].
    + by apply web_add_edge_present.
    + apply web_add_edge_present. by rewrite edge_key_comm.
  - destruct (cli_add_edges_wf between (Cli.add_edge A B st)) as [[Hnd Hks] Hsub];
      [by apply cli_add_edge_wf|]. fold st1 in Hnd, Hks, Hsub.
    assert (edge_key A B ∈ Cli.edge_set st1) as Hin
      by (apply Hsub, cli_add_edge_key).
    split; [|split].
    + apply edge_count_present; [done | by apply Hks].
    + by apply cli_add_edge_present.
    + apply cli_add_edge_present. by rewrite edge_key_comm.
Qed.

Lemma add_edge_twice_leaves_one_entry_witness :
  edge_count "n1" "n2"
    (Web.edges (Web.add_edge "n2" "n1" (Web.add_edge "n1" "n2" Web.reset))) = 1 ∧
  edge_count "n1" "n2"
    (Cli.edges (Cli.add_edge "n1" "n2" (Cli.add_edge "n1" "n2" Cli.init))) = 1.
Proof.
  destruct (add_edge_twice_leaves_one_entry "n1" "n2" []) as [Hw Hc].
  split.
  - destruct (Hw Web.reset edges_wf_empty) as (Hcount & _ & Hswap).
    simpl in Hcount, Hswap. rewrite Hswap. exact Hcount.
  - destruct (Hc Cli.init edges_wf_empty) as (Hcount & Hsame & _).
    simpl in Hcount, Hsame. rewrite Hsame. exact Hcount.
Defined.

(** ** Visiting an address once *)

(** C2.  Two nodes behind one address put two calls for that address into
    one batch ([shared_address_net]: after the seed, the frontier is [X] and
    [Y], both at 5.5.5.5).  Nothing makes the membership test and the
    insertion into [visited_rpcs] one step: when both calls test before
    either inserts, both go on to [query_net_info], and the address is
    queried twice. *)
Theorem concurrent_calls_query_address_twice :
  (∃ st, Cli.seed_phase shared_address_net ["http://1.1.1.1:26657"] Cli.init = Cli.Ok st ∧
         Cli.peers_to_query st ≡ₚ
           [("X", "http://5.5.5.5:26657"); ("Y", "http://5.5.5.5:26657")] ∧
         "http://5.5.5.5:26657" ∉ Cli.visited_rpcs st) ∧
  Race.queried
    (Race.run [0; 1; 0; 1; 0; 1]
       (Race.start {[ "http://1.1.1.1:26657" ]}
          ["http://5.5.5.5:26657"; "http://5.5.5.5:26657"]))
  = ["http://5.5.5.5:26657"; "http://5.5.5.5:26657"].
Proof.
  split; [|vm_compute; reflexivity].
  eexists. split; [vm_compute; reflexivity|]. split.
  - vm_compute. apply Permutation_swap.
  - vm_compute. intros H. discriminate H.
Qed.

(** When the two calls run one after the other, the second one returns at
    its membership test. *)
Lemma serial_calls_query_address_once :
  Race.queried
    (Race.run (Race.one_by_one 2)
       (Race.start {[ "http://1.1.1.1:26657" ]}
          ["http://5.5.5.5:26657"; "http://5.5.5.5:26657"]))
  = ["http://5.5.5.5:26657"].
Proof. vm_compute. reflexivity. Qed.

(** ** The registry of the web variant: [add_node] *)

Lemma merge_update_static acc dcl h (n : node) :
  same_static_fields n (Web.merge_update acc dcl h n).
Proof.
  unfold Web.merge_update, same_static_fields.
  destruct acc, (Py.truthy dcl), (Py.truthy h); simpl; repeat split.
Qed.

Lemma merge_update_accessible acc dcl h (n : node) :
  n_rpc_accessible (Web.merge_update acc dcl h n) = acc || n_rpc_accessible n.
Proof.
  unfold Web.merge_update. by destruct acc, (Py.truthy dcl), (Py.truthy h).
Qed.

Lemma merge_update_dcl_version acc dcl h (n : node) :
  n_dcl_version (Web.merge_update acc dcl h n)
  = if Py.truthy dcl then dcl else n_dcl_version n.
Proof.
  unfold Web.merge_update. by destruct acc, (Py.truthy dcl), (Py.truthy h).
Qed.

Lemma merge_update_height acc dcl h (n : node) :
  n_height (Web.merge_update acc dcl h n)
  = if Py.truthy h then h else n_height n.
Proof.
  unfold Web.merge_update. by destruct acc, (Py.truthy dcl), (Py.truthy h).
Qed.

Lemma web_add_node_lookup peer_id ip port moniker version acc dcl h (st : Web.state) :
  Web.nodes (Web.add_node peer_id ip port moniker version acc dcl h st) !! peer_id =
  Some match Web.nodes st !! peer_id with
       | None => Web.WNode (Web.new_node peer_id ip port moniker version acc dcl h) false
       | Some w => Web.WNode (Web.merge_update acc dcl h (Web.w_node w)) (Web.w_discovered w)
       end.
Proof.
  unfold Web.add_node. destruct (Web.nodes st !! peer_id); simpl;
    by rewrite lookup_insert_eq.
Qed.

Lemma web_add_node_lookup_ne peer_id ip port moniker version acc dcl h (st : Web.state) j :
  j ≠ peer_id →
  Web.nodes (Web.add_node peer_id ip port moniker version acc dcl h st) !! j
  = Web.nodes st !! j.
Proof.
  intros Hne. unfold Web.add_node. destruct (Web.nodes st !! peer_id); simpl;
    by rewrite lookup_insert_ne.
Qed.

Lemma web_add_node_dom peer_id ip port moniker version acc dcl h (st : Web.state) :
  dom (Web.nodes (Web.add_node peer_id ip port moniker version acc dcl h st))
  = {[ peer_id ]} ∪ dom (Web.nodes st).
Proof.
  unfold Web.add_node. destruct (Web.nodes st !! peer_id); simpl;
    by rewrite dom_insert_L.
Qed.


(** ** The registry of the command-line variant *)

Lemma cli_add_peer_lookup peer_id ip peer (st : Cli.state) i n :
  Cli.discovered_peers st !! i = Some n →
  Cli.discovered_peers (Cli.add_peer peer_id ip peer st) !! i = Some n.
Proof.
  intros Hi. unfold Cli.add_peer.
  destruct (Cli.discovered_peers st !! peer_id) eqn:E; [done|]. simpl.
  rewrite lookup_insert_ne; [done | congruence].
Qed.

Lemma cli_add_edge_peers a b (st : Cli.state) :
  Cli.discovered_peers (Cli.add_edge a b st) = Cli.discovered_peers st ∧
  Cli.visited_rpcs (Cli.add_edge a b st) = Cli.visited_rpcs st.
Proof. unfold Cli.add_edge. by case_decide. Qed.

(** A stored record is never changed by the peer loop. *)
Lemma cli_visit_peer_lookup src (st : Cli.state) peer i n :
  Cli.discovered_peers st !! i = Some n →
  Cli.discovered_peers (Cli.visit_peer src st peer) !! i = Some n.
Proof.
  intros Hi. unfold Cli.visit_peer.
  destruct (pe_id peer) as [pid|]; [|done].
  destruct (pe_remote_ip peer) as [ip|]; [|done].
  destruct (negb _ || negb _); [done|]. destruct (is_private_ip ip); [done|].
  destruct (Py.truthy (Some src)).
  - rewrite (proj1 (cli_add_edge_peers _ _ _)). by apply cli_add_peer_lookup.
  - by apply cli_add_peer_lookup.
Qed.

Lemma cli_visit_peers_lookup src peers (st : Cli.state) i n :
  Cli.discovered_peers st !! i = Some n →
  Cli.discovered_peers (foldl (Cli.visit_peer src) st peers) !! i = Some n.
Proof.
  revert st. induction peers as [|p peers IH]; intros st Hi; simpl; [done|].
  by apply IH, cli_visit_peer_lookup.
Qed.

Lemma cli_discover_lookup net src url (st : Cli.state) i n :
  Cli.discovered_peers st !! i = Some n →
  Cli.discovered_peers (Cli.discover_from_node net src url st) !! i = Some n.
Proof.
  intros Hi. unfold Cli.discover_from_node. case_decide; [done|].
  by apply cli_visit_peers_lookup.
Qed.




(** ** A run of the web variant as a sequence of writes *)

Lemma web_visit_script_ok src (st : Web.state) peer :
  Web.visit_peer src st peer = foldl web_mutate st (web_visit_script src peer).
Proof.
  unfold Web.visit_peer, web_visit_script.
  destruct (pe_id peer) as [pid|]; [|done].
  destruct (pe_remote_ip peer) as [ip|]; [|done].
  destruct (negb _ || negb _); [done|]. destruct (is_private_ip ip); [done|].
  by destruct (Py.truthy (Some src)).
Qed.

Lemma web_visit_scripts_ok src peers (st : Web.state) :
  foldl (Web.visit_peer src) st peers
  = foldl web_mutate st (peers ≫= web_visit_script src).
Proof.
  revert st. induction peers as [|p peers IH]; intros st; [done|].
  rewrite bind_cons, foldl_app. simpl. by rewrite IH, web_visit_script_ok.
Qed.

Lemma web_discover_script_ok net src url (st : Web.state) :
  Web.discover_from_node net src url st
  = foldl web_mutate st (web_discover_script net src url st).
Proof.
  unfold Web.discover_from_node, web_discover_script. case_decide; [done|].
  simpl. apply web_visit_scripts_ok.
Qed.

Lemma web_discover_script_visited net src url (st st' : Web.state) :
  Web.visited_rpcs st' = Web.visited_rpcs st →
  web_discover_script net src url st' = web_discover_script net src url st.
Proof. intros H. unfold web_discover_script. by rewrite H. Qed.

Lemma web_worker_script_ok net pid (st : Web.state) :
  Web.crawl_worker net pid st = foldl web_mutate st (web_worker_script net pid st).
Proof.
  unfold Web.crawl_worker, web_worker_script.
  destruct (Web.nodes st !! pid) as [w|]; [|done].
  rewrite !foldl_app. simpl. f_equal.
  destruct (query_status net (n_rpc_url (Web.w_node w))) as [status|]; simpl.
  - rewrite web_discover_script_ok. f_equal. apply web_discover_script_visited.
    simpl. apply web_add_node_edges.
  - apply web_discover_script_ok.
Qed.

Lemma web_seed_script_ok net seed_entry (st : Web.state) :
  Web.seed_step net seed_entry st =
  match web_seed_script net seed_entry st with
  | Some script => Web.Ok (foldl web_mutate st script)
  | None => Web.Raise IndexError st
  end.
Proof.
  unfold Web.seed_step, web_seed_script.
  destruct (query_status net seed_entry.1) as [status|]; [|done].
  destruct (Py.truthy (si_id status)); [|done].
  destruct (Py.split_1 "//" seed_entry.1) as [hp|]; [|done].
  simpl. rewrite foldl_app. simpl. do 2 f_equal.
  rewrite web_discover_script_ok. f_equal. apply web_discover_script_visited.
  apply web_add_node_edges.
Qed.

(** ** The counters of the web variant *)

Lemma stats_ok_mutate (st : Web.state) (m : web_mutation) :
  stats_ok st → stats_ok (web_mutate st m).
Proof.
  intros [Hn He]. destruct m as [c | a b | u | i | | s]; simpl; try done.
  - unfold web_add_node_call, Web.add_node.
    destruct (Web.nodes st !! nc_peer_id c) as [w|] eqn:E; split; simpl; try done.
    rewrite Hn, <- !size_dom, dom_insert_L.
    rewrite (subseteq_union_1_L {[ nc_peer_id c ]}); [done|].
    apply singleton_subseteq_l, elem_of_dom. eauto.
  - unfold Web.add_edge. by case_decide.
  - split; simpl; [|done].
    by rewrite Hn, <- !size_dom, dom_alter_L.
Qed.

(** After every sequence of writes from the reset stores the counters agree
    with the stores. *)
Lemma stats_ok_writes (writes : list web_mutation) :
  stats_ok (foldl web_mutate Web.reset writes).
Proof.
  assert (∀ st, stats_ok st → stats_ok (foldl web_mutate st writes)) as H.
  { induction writes as [|m writes IH]; intros st Hst; simpl; [done|].
    by apply IH, stats_ok_mutate. }
  apply H. by split.
Qed.

(** ** Edges join registered identities *)

Lemma edges_after_nodes_mono (events : list store_event) (known known' : gset string) :
  known ⊆ known' → edges_after_nodes known events → edges_after_nodes known' events.
Proof.
  revert known known'. induction events as [|[i | a b |] events IH];
    intros known known' Hsub; simpl; [done| | |].
  - apply IH. by apply union_mono_l.
  - intros (Ha & Hb & Hrest). split; [by apply Hsub|]. split; [by apply Hsub|]. by eapply IH.
  - by apply IH.
Qed.

Lemma edges_after_nodes_app (ev1 ev2 : list store_event) (known : gset string) :
  edges_after_nodes known ev1 → edges_after_nodes known ev2 →
  edges_after_nodes known (ev1 ++ ev2).
Proof.
  revert known. induction ev1 as [|[i | a b |] ev1 IH]; intros known; simpl; [done| | |].
  - intros H1 H2. apply IH; [done|]. eapply edges_after_nodes_mono; [|done]. set_solver.
  - intros (Ha & Hb & H1) H2. auto.
  - apply IH.
Qed.

Lemma edges_after_nodes_take (k : nat) (events : list store_event) (known : gset string) :
  edges_after_nodes known events → edges_after_nodes known (take k events).
Proof.
  revert k known. induction events as [|[i | a b |] events IH];
    intros [|k] known; simpl; try done.
  - apply IH.
  - intros (Ha & Hb & Hrest). auto.
  - apply IH.
Qed.

Lemma edges_after_nodes_concat {A : Type} (f : A → list store_event) (l : list A)
    (known : gset string) :
  (∀ x, edges_after_nodes known (f x)) → edges_after_nodes known (l ≫= f).
Proof.
  intros Hf. induction l as [|x l IH]; [done|].
  rewrite bind_cons. by apply edges_after_nodes_app.
Qed.

Lemma fmap_bind_list {A B C : Type} (f : B → C) (g : A → list B) (l : list A) :
  f <$> (l ≫= g) = l ≫= (fun x => f <$> g x).
Proof.
  induction l as [|x l IH]; [done|]. by rewrite !bind_cons, fmap_app, IH.
Qed.

Lemma truthy_nonempty (s : string) : Py.truthy (Some s) = true → s ≠ "".
Proof. simpl. by destruct (String.eqb_spec s ""). Qed.

(** *** The web variant *)

Lemma web_visit_script_events src peer (known : gset string) :
  (src ≠ "" → src ∈ known) →
  edges_after_nodes known (web_event <$> web_visit_script src peer).
Proof.
  intros Hsrc. unfold web_visit_script.
  destruct (pe_id peer) as [pid|]; [|done].
  destruct (pe_remote_ip peer) as [ip|]; [|done].
  destruct (negb _ || negb _); [done|]. destruct (is_private_ip ip); [done|].
  destruct (Py.truthy (Some src)) eqn:Hs; simpl; [|done].
  apply truthy_nonempty in Hs. set_solver.
Qed.

Lemma web_discover_script_events net src url (st : Web.state) (known : gset string) :
  (src ≠ "" → src ∈ known) →
  edges_after_nodes known (web_event <$> web_discover_script net src url st).
Proof.
  intros Hsrc. unfold web_discover_script. case_decide; [done|].
  rewrite fmap_cons. simpl. rewrite fmap_bind_list.
  apply edges_after_nodes_concat. intros peer. by apply web_visit_script_events.
Qed.

Lemma web_worker_script_events net pid (st : Web.state) :
  edges_after_nodes (dom (Web.nodes st)) (web_event <$> web_worker_script net pid st).
Proof.
  unfold web_worker_script. destruct (Web.nodes st !! pid) as [w|] eqn:E; [|done].
  assert (pid ∈ dom (Web.nodes st)) as Hpid by (apply elem_of_dom; eauto).
  rewrite !fmap_app. apply edges_after_nodes_app; [|apply edges_after_nodes_app].
  - by destruct (query_status net _).
  - by apply web_discover_script_events.
  - done.
Qed.

Lemma web_seed_script_events net seed_entry (st : Web.state) script :
  web_seed_script net seed_entry st = Some script →
  edges_after_nodes (dom (Web.nodes st)) (web_event <$> script).
Proof.
  unfold web_seed_script.
  destruct (query_status net seed_entry.1) as [status|]; [|by intros [= <-]].
  destruct (Py.truthy (si_id status)); [|by intros [= <-]].
  destruct (Py.split_1 "//" seed_entry.1) as [hp|]; [|done].
  intros [= <-]. rewrite fmap_cons, fmap_app. simpl.
  apply edges_after_nodes_app; [|done].
  apply web_discover_script_events. set_solver.
Qed.

Lemma web_mutate_closed (m : web_mutation) (st : Web.state) (known : gset string) :
  web_edges_closed st → known ⊆ dom (Web.nodes st) →
  edges_after_nodes known [web_event m] →
  web_edges_closed (web_mutate st m) ∧
  known ⊆ dom (Web.nodes (web_mutate st m)) ∧
  (∀ i, web_event m = ENode i → i ∈ dom (Web.nodes (web_mutate st m))).
Proof.
  intros Hcl Hsub Hev. destruct m as [c | a b | u | i | | s]; simpl in *.
  - unfold web_add_node_call, web_edges_closed.
    rewrite web_add_node_dom, (proj1 (web_add_node_edges _ _ _ _ _ _ _ _ _)).
    split; [|split].
    + intros e He. destruct (Hcl e He). set_solver.
    + set_solver.
    + intros i [= <-]. set_solver.
  - destruct Hev as (Ha & Hb & _). split; [|split; [|done]].
    + unfold Web.add_edge. case_decide; [done|]. intros e. simpl.
      rewrite elem_of_app, list_elem_of_singleton. intros [He | ->]; [by apply Hcl|].
      simpl. split; by apply Hsub.
    + unfold Web.add_edge. by case_decide.
  - done.
  - unfold web_edges_closed. simpl. rewrite dom_alter_L. done.
  - done.
  - done.
Qed.

Lemma web_script_closed (script : list web_mutation) (st : Web.state) (known : gset string) :
  web_edges_closed st → known ⊆ dom (Web.nodes st) →
  edges_after_nodes known (web_event <$> script) →
  web_edges_closed (foldl web_mutate st script).
Proof.
  revert st known. induction script as [|m script IH]; intros st known Hcl Hsub Hev; [done|].
  simpl. rewrite fmap_cons in Hev.
  assert (edges_after_nodes known [web_event m]) as Hm.
  { destruct (web_event m); simpl in *; tauto. }
  destruct (web_mutate_closed m st known Hcl Hsub Hm) as (Hcl' & Hsub' & Hnode).
  destruct (web_event m) as [i | a b |] eqn:Em; simpl in Hev.
  - apply (IH _ ({[ i ]} ∪ known)); [done | | done].
    specialize (Hnode i eq_refl). set_solver.
  - apply (IH _ known); tauto.
  - by apply (IH _ known).
Qed.

Lemma web_boundary_closed net (st : Web.state) :
  web_boundary net st → web_edges_closed st.
Proof.
  induction 1 as [| st seed_entry st' _ IH Hstep | st pid _ IH].
  - intros e He. by apply elem_of_nil in He.
  - rewrite web_seed_script_ok in Hstep.
    destruct (web_seed_script net seed_entry st) as [script|] eqn:E; [|done].
    injection Hstep as <-.
    eapply web_script_closed; [done | reflexivity | by eapply web_seed_script_events].
  - rewrite web_worker_script_ok.
    eapply web_script_closed; [done | reflexivity | apply web_worker_script_events].
Qed.

Lemma web_run_point_closed net (st : Web.state) :
  web_run_point net st → web_edges_closed st.
Proof.
  destruct 1 as [st Hb | st pid k Hb | st seed_entry script k Hb Hs | st Hb].
  - by eapply web_boundary_closed.
  - eapply web_script_closed; [by eapply web_boundary_closed | reflexivity |].
    rewrite fmap_take. apply edges_after_nodes_take, web_worker_script_events.
  - eapply web_script_closed; [by eapply web_boundary_closed | reflexivity |].
    rewrite fmap_take. by eapply edges_after_nodes_take, web_seed_script_events.
  - exact (web_boundary_closed net st Hb).
Qed.

(** *** The command-line variant *)

Lemma cli_visit_script_ok src (st : Cli.state) peer :
  Cli.visit_peer src st peer = foldl cli_mutate st (cli_visit_script src peer).
Proof.
  unfold Cli.visit_peer, cli_visit_script.
  destruct (pe_id peer) as [pid|]; [|done].
  destruct (pe_remote_ip peer) as [ip|]; [|done].
  destruct (negb _ || negb _); [done|]. destruct (is_private_ip ip); [done|].
  by destruct (Py.truthy (Some src)).
Qed.

Lemma cli_visit_scripts_ok src peers (st : Cli.state) :
  foldl (Cli.visit_peer src) st peers
  = foldl cli_mutate st (peers ≫= cli_visit_script src).
Proof.
  revert st. induction peers as [|p peers IH]; intros st; [done|].
  rewrite bind_cons, foldl_app. simpl. by rewrite IH, cli_visit_script_ok.
Qed.

Lemma cli_discover_script_ok net src url (st : Cli.state) :
  Cli.discover_from_node net src url st
  = foldl cli_mutate st (cli_discover_script net src url st).
Proof.
  unfold Cli.discover_from_node, cli_discover_script. case_decide; [done|].
  simpl. apply cli_visit_scripts_ok.
Qed.

Lemma cli_seed_script_ok net seed_url (st : Cli.state) :
  Cli.seed_step net seed_url st =
  match cli_seed_script net seed_url st with
  | Some script => Cli.Ok (foldl cli_mutate st script)
  | None => Cli.Raise AttributeError st
  end.
Proof.
  unfold Cli.seed_step, cli_seed_script.
  destruct (query_status net seed_url) as [status|]; [|done].
  destruct (Py.truthy (si_id status)); [|done].
  destruct (si_moniker status) as [moniker|]; [|done].
  simpl. f_equal. rewrite cli_discover_script_ok. f_equal.
Qed.

Lemma cli_visit_script_events src peer (known : gset string) :
  (src ≠ "" → src ∈ known) →
  edges_after_nodes known (cli_event <$> cli_visit_script src peer).
Proof.
  intros Hsrc. unfold cli_visit_script.
  destruct (pe_id peer) as [pid|]; [|done].
  destruct (pe_remote_ip peer) as [ip|]; [|done].
  destruct (negb _ || negb _); [done|]. destruct (is_private_ip ip); [done|].
  destruct (Py.truthy (Some src)) eqn:Hs; simpl; [|done].
  apply truthy_nonempty in Hs. set_solver.
Qed.

Lemma cli_discover_script_events net src url (st : Cli.state) (known : gset string) :
  (src ≠ "" → src ∈ known) →
  edges_after_nodes known (cli_event <$> cli_discover_script net src url st).
Proof.
  intros Hsrc. unfold cli_discover_script. case_decide; [done|].
  rewrite fmap_cons. simpl. rewrite fmap_bind_list.
  apply edges_after_nodes_concat. intros peer. by apply cli_visit_script_events.
Qed.

Lemma cli_seed_script_events net seed_url (st : Cli.state) script :
  cli_seed_script net seed_url st = Some script →
  edges_after_nodes (dom (Cli.discovered_peers st)) (cli_event <$> script).
Proof.
  unfold cli_seed_script.
  destruct (query_status net seed_url) as [status|]; [|by intros [= <-]].
  destruct (Py.truthy (si_id status)); [|by intros [= <-]].
  destruct (si_moniker status) as [moniker|]; [|done].
  intros [= <-]. rewrite fmap_cons. simpl.
  apply cli_discover_script_events. set_solver.
Qed.

Lemma cli_add_peer_dom i ip peer (st : Cli.state) :
  dom (Cli.discovered_peers (Cli.add_peer i ip peer st))
  = {[ i ]} ∪ dom (Cli.discovered_peers st).
Proof.
  unfold Cli.add_peer. destruct (Cli.discovered_peers st !! i) eqn:E; simpl.
  - symmetry. apply subseteq_union_1_L, singleton_subseteq_l, elem_of_dom. eauto.
  - by rewrite dom_insert_L.
Qed.

Lemma cli_mutate_closed (m : cli_mutation) (st : Cli.state) (known : gset string) :
  cli_edges_closed st → known ⊆ dom (Cli.discovered_peers st) →
  edges_after_nodes known [cli_event m] →
  cli_edges_closed (cli_mutate st m) ∧
  known ⊆ dom (Cli.discovered_peers (cli_mutate st m)) ∧
  (∀ i, cli_event m = ENode i → i ∈ dom (Cli.discovered_peers (cli_mutate st m))).
Proof.
  intros Hcl Hsub Hev. destruct m as [i ip peer | i n | a b | u]; simpl in *.
  - unfold cli_edges_closed.
    rewrite cli_add_peer_dom, (proj1 (cli_add_peer_edges _ _ _ _)).
    split; [|split].
    + intros e He. destruct (Hcl e He). set_solver.
    + set_solver.
    + intros j [= <-]. set_solver.
  - unfold cli_edges_closed. simpl. rewrite dom_insert_L. split; [|split].
    + intros e He. destruct (Hcl e He). set_solver.
    + set_solver.
    + intros j [= <-]. set_solver.
  - destruct Hev as (Ha & Hb & _). split; [|split; [|done]].
    + unfold Cli.add_edge. case_decide; [done|]. intros e. simpl.
      rewrite elem_of_app, list_elem_of_singleton. intros [He | ->]; [by apply Hcl|].
      simpl. split; by apply Hsub.
    + unfold Cli.add_edge. by case_decide.
  - done.
Qed.

Lemma cli_script_closed (script : list cli_mutation) (st : Cli.state) (known : gset string) :
  cli_edges_closed st → known ⊆ dom (Cli.discovered_peers st) →
  edges_after_nodes known (cli_event <$> script) →
  cli_edges_closed (foldl cli_mutate st script).
Proof.
  revert st known. induction script as [|m script IH]; intros st known Hcl Hsub Hev; [done|].
  simpl. rewrite fmap_cons in Hev.
  assert (edges_after_nodes known [cli_event m]) as Hm.
  { destruct (cli_event m); simpl in *; tauto. }
  destruct (cli_mutate_closed m st known Hcl Hsub Hm) as (Hcl' & Hsub' & Hnode).
  destruct (cli_event m) as [i | a b |] eqn:Em; simpl in Hev.
  - apply (IH _ ({[ i ]} ∪ known)); [done | | done].
    specialize (Hnode i eq_refl). set_solver.
  - apply (IH _ known); tauto.
  - by apply (IH _ known).
Qed.

Lemma cli_boundary_closed net (st : Cli.state) :
  cli_boundary net st → cli_edges_closed st.
Proof.
  induction 1 as [| st seed_url st' _ IH Hstep | st pid url _ IH Hpid].
  - intros e He. by apply elem_of_nil in He.
  - rewrite cli_seed_script_ok in Hstep.
    destruct (cli_seed_script net seed_url st) as [script|] eqn:E; [|done].
    injection Hstep as <-.
    eapply cli_script_closed; [done | reflexivity | by eapply cli_seed_script_events].
  - rewrite cli_discover_script_ok.
    eapply cli_script_closed; [done | reflexivity |].
    apply cli_discover_script_events. intros _. by apply elem_of_dom.
Qed.

Lemma cli_run_point_closed net (st : Cli.state) :
  cli_run_point net st → cli_edges_closed st.
Proof.
  destruct 1 as [st Hb | st pid url k Hb Hpid | st seed_url script k Hb Hs].
  - by eapply cli_boundary_closed.
  - eapply cli_script_closed; [by eapply cli_boundary_closed | reflexivity |].
    rewrite fmap_take. apply edges_after_nodes_take, cli_discover_script_events.
    intros _. by apply elem_of_dom.
  - eapply cli_script_closed; [by eapply cli_boundary_closed | reflexivity |].
    rewrite fmap_take. by eapply edges_after_nodes_take, cli_seed_script_events.
Qed.

(** *** The functions of the scripts produce run points *)

Lemma web_run_batch_boundary net tasks (st : Web.state) :
  web_boundary net st → web_boundary net (Web.run_batch net tasks st).
Proof.
  unfold Web.run_batch. revert st.
  induction tasks as [|pid tasks IH]; intros st Hb; simpl; [done|].
  by apply IH, wb_worker.
Qed.

Lemma web_crawl_loop_boundary net sched fuel (st st' : Web.state) :
  web_boundary net st → Web.crawl_loop net sched fuel st = Some st' →
  web_boundary net st'.
Proof.
  revert st. induction fuel as [|fuel IH]; intros st Hb; simpl; [done|].
  destruct (Web.peers_to_crawl st) eqn:E; [by intros [= <-]|].
  apply IH. by apply web_run_batch_boundary.
Qed.

Lemma web_seed_phase_boundary net seeds (st st' : Web.state) :
  web_boundary net st → Web.seed_phase net seeds st = Web.Ok st' →
  web_boundary net st'.
Proof.
  revert st. induction seeds as [|se seeds IH]; intros st Hb; simpl; [by intros [= <-]|].
  destruct (Web.seed_step net se st) as [st1|e st1] eqn:E; [|done].
  apply IH. by eapply wb_seed.
Qed.

(** The state [start_discovery] ends in is a run point. *)
Lemma web_start_discovery_run_point net sched seeds fuel (st : Web.state) :
  Web.start_discovery net sched seeds fuel = Web.Finished st → web_run_point net st.
Proof.
  unfold Web.start_discovery.
  destruct (Web.seed_phase net seeds Web.reset) as [st1|e st1] eqn:Es; [|done].
  destruct (Web.crawl_loop net sched fuel st1) as [st2|] eqn:El; [|done].
  intros [= <-]. apply wrp_complete.
  eapply web_crawl_loop_boundary; [|done].
  eapply web_seed_phase_boundary; [|done]. constructor.
Qed.

Lemma cli_peers_to_query_registered (st : Cli.state) task :
  task ∈ Cli.peers_to_query st →
  ∃ n, Cli.discovered_peers st !! task.1 = Some n ∧ task.2 = n_rpc_url n ∧
       n_rpc_url n ∉ Cli.visited_rpcs st.
Proof.
  unfold Cli.peers_to_query. rewrite list_elem_of_fmap.
  intros ([pid n] & -> & Hin). apply list_elem_of_filter in Hin as [Hunv Hin].
  apply elem_of_map_to_list in Hin. eauto.
Qed.

Lemma cli_run_batch_boundary net tasks (st : Cli.state) :
  cli_boundary net st →
  (∀ task, task ∈ tasks → is_Some (Cli.discovered_peers st !! task.1)) →
  cli_boundary net (Cli.run_batch net tasks st).
Proof.
  unfold Cli.run_batch. revert st.
  induction tasks as [|[pid url] tasks IH]; intros st Hb Hreg; simpl; [done|].
  apply IH.
  - apply cb_task; [done|]. apply (Hreg (pid, url)). by left.
  - intros task Hin. destruct (Hreg task) as [n Hn]; [by right|].
    exists n. by apply cli_discover_lookup.
Qed.

Lemma cli_iteration_boundary net sched (st : Cli.state) :
  cli_boundary net st → cli_boundary net (Cli.iteration net sched st).
Proof.
  intros Hb. apply cli_run_batch_boundary; [done|].
  intros task Hin. rewrite (order_perm sched) in Hin.
  apply cli_peers_to_query_registered in Hin as (n & Hn & _). eauto.
Qed.

Lemma cli_crawl_loop_boundary net sched fuel (st st' : Cli.state) :
  cli_boundary net st → Cli.crawl_loop net sched fuel st = Some st' →
  cli_boundary net st'.
Proof.
  revert st. induction fuel as [|fuel IH]; intros st Hb; simpl; [done|].
  destruct (Cli.peers_to_query st) eqn:E; [by intros [= <-]|].
  apply IH. by apply cli_iteration_boundary.
Qed.

Lemma cli_seed_phase_boundary net seeds (st st' : Cli.state) :
  cli_boundary net st → Cli.seed_phase net seeds st = Cli.Ok st' →
  cli_boundary net st'.
Proof.
  revert st. induction seeds as [|se seeds IH]; intros st Hb; simpl; [by intros [= <-]|].
  destruct (Cli.seed_step net se st) as [st1|e st1] eqn:E; [|done].
  apply IH. by eapply cb_seed.
Qed.

(** The state [crawl_network] ends in is a run point. *)
Lemma cli_crawl_network_run_point net sched seeds fuel (st : Cli.state) :
  Cli.crawl_network net sched seeds fuel = Cli.Finished st → cli_run_point net st.
Proof.
  unfold Cli.crawl_network.
  destruct (Cli.seed_phase net seeds Cli.init) as [st1|e st1] eqn:Es; [|done].
  destruct (Cli.crawl_loop net sched fuel st1) as [st2|] eqn:El; [|done].
  intros [= <-]. apply crp_boundary.
  eapply cli_crawl_loop_boundary; [|done].
  eapply cli_seed_phase_boundary; [|done]. constructor.
Qed.

Lemma web_mutate_dom_mono (st : Web.state) (m : web_mutation) :
  dom (Web.nodes st) ⊆ dom (Web.nodes (web_mutate st m)).
Proof.
  destruct m as [c | a b | u | i | | s]; simpl; try done.
  - unfold web_add_node_call. rewrite web_add_node_dom. set_solver.
  - unfold Web.add_edge. by case_decide.
  - by rewrite dom_alter_L.
Qed.

Lemma cli_mutate_dom_mono (st : Cli.state) (m : cli_mutation) :
  dom (Cli.discovered_peers st) ⊆ dom (Cli.discovered_peers (cli_mutate st m)).
Proof.
  destruct m as [i ip peer | i n | a b | u]; simpl; try done.
  - rewrite cli_add_peer_dom. set_solver.
  - rewrite dom_insert_L. set_solver.
  - unfold Cli.add_edge. by case_decide.
Qed.

(** C10.  At every point of a run, in both variants, the two identities of
    every stored edge are keys of the registry.  A run point is a state
    between two tasks or inside a task after any number of its writes; the
    tasks are the turns of the seed loop and the pool tasks, taken in any
    order and for any registered identity.  The reason is the one the claim
    gives: in the writes of every task each [add_edge] comes after the
    registration of both its identities, and no write removes a key. *)
Theorem edge_endpoints_registered (net : rpc) :
  (∀ st : Web.state, web_run_point net st → web_edges_closed st) ∧
  (∀ st : Cli.state, cli_run_point net st → cli_edges_closed st) ∧
  (∀ (st : Web.state) (peer_id : string),
      edges_after_nodes (dom (Web.nodes st))
        (web_event <$> web_worker_script net peer_id st)) ∧
  (∀ (st : Cli.state) (peer_id rpc_url : string),
      is_Some (Cli.discovered_peers st !! peer_id) →
      edges_after_nodes (dom (Cli.discovered_peers st))
        (cli_event <$> cli_discover_script net peer_id rpc_url st)) ∧
  (∀ (st : Web.state) (m : web_mutation),
      dom (Web.nodes st) ⊆ dom (Web.nodes (web_mutate st m))) ∧
  (∀ (st : Cli.state) (m : cli_mutation),
      dom (Cli.discovered_peers st) ⊆ dom (Cli.discovered_peers (cli_mutate st m))).
Proof.
  split; [apply web_run_point_closed|]. split; [apply cli_run_point_closed|].
  split; [intros; apply web_worker_script_events|].
  split; [|split; [apply web_mutate_dom_mono | apply cli_mutate_dom_mono]].
  intros st pid url Hpid. apply cli_discover_script_events.
  intros _. by apply elem_of_dom.
Qed.

(** The statement at the end of two concrete runs, one per variant. *)
Lemma edge_endpoints_registered_witness :
  web_edges_closed
    (web_final (Web.start_discovery shared_address_net lifo
                  [("http://1.1.1.1:26657", "org-seed")] 3)) ∧
  cli_edges_closed
    (cli_final (Cli.crawl_network shared_address_net fifo ["http://1.1.1.1:26657"] 3)).
Proof.
  destruct (edge_endpoints_registered shared_address_net) as (Hweb & Hcli & _).
  split.
  - apply Hweb.
    apply (web_start_discovery_run_point shared_address_net lifo
             [("http://1.1.1.1:26657", "org-seed")] 3).
    vm_compute. reflexivity.
  - apply Hcli.
    apply (cli_crawl_network_run_point shared_address_net fifo ["http://1.1.1.1:26657"] 3).
    vm_compute. reflexivity.
Defined.

(** ** Updates of a stored record *)

Lemma same_static_fields_refl (n : node) : same_static_fields n n.
Proof. by repeat split. Qed.

Lemma same_static_fields_trans (n1 n2 n3 : node) :
  same_static_fields n1 n2 → same_static_fields n2 n3 → same_static_fields n1 n3.
Proof.
  unfold same_static_fields. intros (?&?&?&?&?&?&?&?) (?&?&?&?&?&?&?&?).
  repeat split; congruence.
Qed.

Lemma wnode_le_refl (w : Web.wnode) : wnode_le w w.
Proof. split; [apply same_static_fields_refl | done]. Qed.

Lemma wnode_le_trans (w1 w2 w3 : Web.wnode) :
  wnode_le w1 w2 → wnode_le w2 w3 → wnode_le w1 w3.
Proof.
  intros (Hs1 & Ha1 & Hd1) (Hs2 & Ha2 & Hd2). split; [|auto].
  by eapply same_static_fields_trans.
Qed.

(** What one write does to a record that is already stored. *)
Lemma web_mutate_record (m : web_mutation) (st : Web.state) (pid : string) (w : Web.wnode) :
  Web.nodes st !! pid = Some w →
  ∃ w', Web.nodes (web_mutate st m) !! pid = Some w' ∧ wnode_le w w' ∧
        (no_dcl_version_for pid m →
           n_dcl_version (Web.w_node w') = n_dcl_version (Web.w_node w)) ∧
        (no_height_for pid m → n_height (Web.w_node w') = n_height (Web.w_node w)).
Proof.
  intros Hw.
  assert (∃ w', Some w = Some w' ∧ wnode_le w w' ∧
      (no_dcl_version_for pid m →
         n_dcl_version (Web.w_node w') = n_dcl_version (Web.w_node w)) ∧
      (no_height_for pid m → n_height (Web.w_node w') = n_height (Web.w_node w)))
    as Hsame by (exists w; split; [done|]; split; [apply wnode_le_refl | done]).
  destruct m as [c | a b | u | i | | s]; simpl; try (by rewrite Hw).
  - unfold web_add_node_call. destruct (decide (pid = nc_peer_id c)) as [-> | Hne].
    + rewrite web_add_node_lookup, Hw. eexists. split; [done|]. simpl.
      split; [|split].
      * split; [apply merge_update_static|]. simpl.
        rewrite merge_update_accessible. split; [|done].
        intros ->. apply orb_true_r.
      * intros Hno. rewrite merge_update_dcl_version. by rewrite Hno.
      * intros Hno. rewrite merge_update_height. by rewrite Hno.
    + rewrite web_add_node_lookup_ne by done. by rewrite Hw.
  - unfold Web.add_edge. case_decide; simpl; by rewrite Hw.
  - destruct (decide (pid = i)) as [-> | Hne].
    + rewrite lookup_alter_eq, Hw. simpl. eexists. split; [done|].
      split; [|done]. split; [apply same_static_fields_refl | done].
    + rewrite lookup_alter_ne by done. by rewrite Hw.
Qed.

Lemma web_mutations_record (writes : list web_mutation) (st : Web.state)
    (pid : string) (w : Web.wnode) :
  Web.nodes st !! pid = Some w →
  ∃ w', Web.nodes (foldl web_mutate st writes) !! pid = Some w' ∧ wnode_le w w' ∧
        (Forall (no_dcl_version_for pid) writes →
           n_dcl_version (Web.w_node w') = n_dcl_version (Web.w_node w)) ∧
        (Forall (no_height_for pid) writes →
           n_height (Web.w_node w') = n_height (Web.w_node w)).
Proof.
  revert st w. induction writes as [|m writes IH]; intros st w Hw; simpl.
  - exists w. split; [done|]. split; [apply wnode_le_refl | done].
  - destruct (web_mutate_record m st pid w Hw) as (w1 & Hw1 & Hle1 & Hd1 & Hh1).
    destruct (IH _ _ Hw1) as (w2 & Hw2 & Hle2 & Hd2 & Hh2).
    exists w2. split; [done|]. split; [by eapply wnode_le_trans|].
    split; intros [Hm Hrest]%Forall_cons.
    + rewrite Hd2, Hd1; done.
    + rewrite Hh2, Hh1; done.
Qed.

(** The records of the command-line variant that were not reached carry no
    application version and no height, at every task boundary. *)
Lemma cli_add_peer_blank i ip peer (st : Cli.state) :
  map_Forall (fun _ n => unreached_blank n) (Cli.discovered_peers st) →
  map_Forall (fun _ n => unreached_blank n)
    (Cli.discovered_peers (Cli.add_peer i ip peer st)).
Proof.
  intros H. unfold Cli.add_peer. destruct (Cli.discovered_peers st !! i); [done|].
  simpl. by apply map_Forall_insert_2.
Qed.

Lemma cli_visit_peer_blank src (st : Cli.state) peer :
  map_Forall (fun _ n => unreached_blank n) (Cli.discovered_peers st) →
  map_Forall (fun _ n => unreached_blank n)
    (Cli.discovered_peers (Cli.visit_peer src st peer)).
Proof.
  intros H. unfold Cli.visit_peer.
  destruct (pe_id peer) as [pid|]; [|done].
  destruct (pe_remote_ip peer) as [ip|]; [|done].
  destruct (negb _ || negb _); [done|]. destruct (is_private_ip ip); [done|].
  destruct (Py.truthy (Some src)).
  - rewrite (proj1 (cli_add_edge_peers _ _ _)). by apply cli_add_peer_blank.
  - by apply cli_add_peer_blank.
Qed.

Lemma cli_discover_blank net src url (st : Cli.state) :
  map_Forall (fun _ n => unreached_blank n) (Cli.discovered_peers st) →
  map_Forall (fun _ n => unreached_blank n)
    (Cli.discovered_peers (Cli.discover_from_node net src url st)).
Proof.
  intros H. unfold Cli.discover_from_node. case_decide; [done|].
  assert (map_Forall (fun _ n => unreached_blank n)
            (Cli.discovered_peers (Cli.mark_visited url st))) as H' by done.
  revert H'. generalize (Cli.mark_visited url st).
  induction (query_net_info net url) as [|p peers IH]; intros s Hs; simpl; [done|].
  by apply IH, cli_visit_peer_blank.
Qed.

Lemma cli_boundary_blank net (st : Cli.state) :
  cli_boundary net st →
  map_Forall (fun _ n => unreached_blank n) (Cli.discovered_peers st).
Proof.
  induction 1 as [| st seed_url st' _ IH Hstep | st pid url _ IH Hpid].
  - apply map_Forall_empty.
  - revert Hstep. unfold Cli.seed_step.
    destruct (query_status net seed_url) as [status|]; [|by intros [= <-]].
    destruct (Py.truthy (si_id status)); [|by intros [= <-]].
    destruct (si_moniker status) as [moniker|]; [|done].
    intros [= <-]. apply cli_discover_blank. simpl.
    by apply map_Forall_insert_2.
  - by apply cli_discover_blank.
Qed.

(** C6.  Web variant: across any sequence of writes, a stored record keeps
    [rpc_accessible = true] once it has it, and its application version
    (height) is unchanged as long as no [add_node] for it supplies one.
    Command-line variant: [check_peer] on a record of the registry the crawl
    left behind never clears [rpc_accessible], and leaves the application
    version (height) as it was when the query returns none. *)
Theorem reachability_monotone_absent_update_keeps (net : rpc) (pid : string) :
  (∀ (writes : list web_mutation) (st : Web.state) (w : Web.wnode),
      Web.nodes st !! pid = Some w →
      ∃ w', Web.nodes (foldl web_mutate st writes) !! pid = Some w' ∧
            (n_rpc_accessible (Web.w_node w) = true →
               n_rpc_accessible (Web.w_node w') = true) ∧
            (Forall (no_dcl_version_for pid) writes →
               n_dcl_version (Web.w_node w') = n_dcl_version (Web.w_node w)) ∧
            (Forall (no_height_for pid) writes →
               n_height (Web.w_node w') = n_height (Web.w_node w))) ∧
  (∀ (st : Cli.state) (n : node),
      cli_boundary net st →
      Cli.discovered_peers st !! pid = Some n →
      let n' := Cli.check_peer net n in
      Cli.discovered_peers (Cli.check_rpc_accessibility net st) !! pid = Some n' ∧
      (n_rpc_accessible n = true → n_rpc_accessible n' = true) ∧
      (query_abci_info net (n_rpc_url n) = None → n_dcl_version n' = n_dcl_version n) ∧
      ((∀ status, query_status net (n_rpc_url n) = Some status → si_height status = None) →
         n_height n' = n_height n)).
Proof.
  split.
  - intros writes st w Hw.
    destruct (web_mutations_record writes st pid w Hw) as (w' & Hw' & Hle & Hd & Hh).
    exists w'. split; [done|]. split; [apply Hle | done].
  - intros st n Hb Hn n'. split; [|split; [|split]].
    + simpl. by rewrite lookup_fmap, Hn.
    + unfold n', Cli.check_peer. intros Ha. by rewrite Ha.
    + pose proof (cli_boundary_blank net st Hb pid n Hn) as Hblank.
      unfold n', Cli.check_peer. destruct (n_rpc_accessible n) eqn:Ha; [done|].
      destruct (query_status net (n_rpc_url n)); [|done]. simpl.
      intros ->. symmetry. by apply Hblank.
    + pose proof (cli_boundary_blank net st Hb pid n Hn) as Hblank.
      unfold n', Cli.check_peer. destruct (n_rpc_accessible n) eqn:Ha; [done|].
      destruct (query_status net (n_rpc_url n)) as [status|] eqn:Es; [|done]. simpl.
      intros Hnone. rewrite (Hnone status eq_refl). symmetry. by apply Hblank.
Qed.

Lemma reachability_monotone_absent_update_keeps_witness :
  ∃ w', Web.nodes
          (foldl web_mutate
             (web_add_node_call Web.reset
                (AddNodeCall "X" "5.5.5.5" 26656 "org-vn-01" None true
                   (Some "1.4.4") (Some "100")))
             [ MAddNode (AddNodeCall "X" "5.5.5.5" 26656 "org-vn-01" None false None None) ])
          !! "X" = Some w' ∧
        n_rpc_accessible (Web.w_node w') = true ∧
        n_dcl_version (Web.w_node w') = Some "1.4.4" ∧
        n_height (Web.w_node w') = Some "100".
Proof.
  destruct (reachability_monotone_absent_update_keeps shared_address_net "X") as [Hweb _].
  destruct (Hweb
              [ MAddNode (AddNodeCall "X" "5.5.5.5" 26656 "org-vn-01" None false None None) ]
              (web_add_node_call Web.reset
                 (AddNodeCall "X" "5.5.5.5" 26656 "org-vn-01" None true
                    (Some "1.4.4") (Some "100")))
              (Web.WNode (Web.new_node "X" "5.5.5.5" 26656 "org-vn-01" None true
                            (Some "1.4.4") (Some "100")) false))
    as (w' & Hw' & Hacc & Hdcl & Hheight).
  - vm_compute. reflexivity.
  - exists w'. split; [exact Hw'|]. split; [|split].
    + apply Hacc. reflexivity.
    + rewrite Hdcl; [reflexivity|]. constructor; [|constructor]. intros _. reflexivity.
    + rewrite Hheight; [reflexivity|]. constructor; [|constructor]. intros _. reflexivity.
Defined.

(** ** Termination of the crawl of the web variant *)

Lemma web_le_refl (st : Web.state) : web_le st st.
Proof. split; [done|]. intros pid w Hw. exists w. split; [done | apply wnode_le_refl]. Qed.

Lemma web_le_trans (st1 st2 st3 : Web.state) :
  web_le st1 st2 → web_le st2 st3 → web_le st1 st3.
Proof.
  intros [Hv1 Hr1] [Hv2 Hr2]. split; [by etrans|].
  intros pid w Hw. destruct (Hr1 pid w Hw) as (w2 & Hw2 & Hle2).
  destruct (Hr2 pid w2 Hw2) as (w3 & Hw3 & Hle3).
  exists w3. split; [done | by eapply wnode_le_trans].
Qed.

Lemma web_mutate_visited (st : Web.state) (m : web_mutation) :
  Web.visited_rpcs st ⊆ Web.visited_rpcs (web_mutate st m).
Proof.
  destruct m as [c | a b | u | i | | s]; simpl; try done.
  - unfold web_add_node_call.
    destruct (web_add_node_edges (nc_peer_id c) (nc_ip c) (nc_port c) (nc_moniker c)
                (nc_version c) (nc_rpc_accessible c) (nc_dcl_version c) (nc_height c) st)
      as (_ & _ & -> & _).
    done.
  - unfold Web.add_edge. by case_decide.
  - set_solver.
Qed.

Lemma web_mutate_le (st : Web.state) (m : web_mutation) : web_le st (web_mutate st m).
Proof.
  split; [apply web_mutate_visited|]. intros pid w Hw.
  destruct (web_mutate_record m st pid w Hw) as (w' & Hw' & Hle & _). eauto.
Qed.

Lemma web_script_le (script : list web_mutation) (st : Web.state) :
  web_le st (foldl web_mutate st script).
Proof.
  revert st. induction script as [|m script IH]; intros st; simpl; [apply web_le_refl|].
  eapply web_le_trans; [apply web_mutate_le | apply IH].
Qed.

Lemma web_crawl_worker_le net pid (st : Web.state) :
  web_le st (Web.crawl_worker net pid st).
Proof. rewrite web_worker_script_ok. apply web_script_le. Qed.

Lemma web_run_batch_le net tasks (st : Web.state) :
  web_le st (Web.run_batch net tasks st).
Proof.
  unfold Web.run_batch. revert st.
  induction tasks as [|t tasks IH]; intros st; simpl; [apply web_le_refl|].
  eapply web_le_trans; [apply web_crawl_worker_le | apply IH].
Qed.

Lemma web_le_dom (st st' : Web.state) :
  web_le st st' → dom (Web.nodes st) ⊆ dom (Web.nodes st').
Proof.
  intros [_ Hr] pid [w Hw]%elem_of_dom. destruct (Hr pid w Hw) as (w' & Hw' & _).
  apply elem_of_dom. eauto.
Qed.

Lemma web_add_node_le peer_id ip port moniker version acc dcl h (st : Web.state) :
  web_le st (Web.add_node peer_id ip port moniker version acc dcl h st).
Proof.
  apply (web_mutate_le st (MAddNode (AddNodeCall peer_id ip port moniker version acc dcl h))).
Qed.

(** A worker leaves its own record marked as discovered. *)
Lemma web_crawl_worker_discovered net pid (st : Web.state) :
  pid ∈ dom (Web.nodes st) →
  ∃ w, Web.nodes (Web.crawl_worker net pid st) !! pid = Some w ∧ Web.w_discovered w = true.
Proof.
  intros [w0 Hw0]%elem_of_dom. unfold Web.crawl_worker. rewrite Hw0.
  set (st1 := match query_status net _ with Some _ => _ | None => _ end).
  assert (web_le st (Web.discover_from_node net pid (n_rpc_url (Web.w_node w0)) st1)) as Hle.
  { eapply web_le_trans; [|rewrite web_discover_script_ok; apply web_script_le].
    unfold st1. destruct (query_status net _) as [status|]; [|apply web_le_refl].
    eapply web_le_trans; [apply web_add_node_le|].
    apply (web_mutate_le _ MAccessible). }
  destruct (proj2 Hle pid w0 Hw0) as (w1 & Hw1 & _).
  simpl. rewrite lookup_alter_eq, Hw1. simpl. eauto.
Qed.

Lemma web_run_batch_discovered net tasks (st : Web.state) pid :
  pid ∈ tasks → pid ∈ dom (Web.nodes st) →
  ∃ w, Web.nodes (Web.run_batch net tasks st) !! pid = Some w ∧ Web.w_discovered w = true.
Proof.
  unfold Web.run_batch. revert st.
  induction tasks as [|t tasks IH]; intros st Hin Hdom; [by apply elem_of_nil in Hin|].
  simpl. apply elem_of_cons in Hin as [-> | Hin].
  - destruct (web_crawl_worker_discovered net t st Hdom) as (w & Hw & Hd).
    destruct (proj2 (web_run_batch_le net tasks (Web.crawl_worker net t st)) t w Hw)
      as (w' & Hw' & _ & _ & Hd').
    exists w'. split; [exact Hw' | by apply Hd'].
  - apply IH; [done|]. by apply (web_le_dom _ _ (web_crawl_worker_le net t st)).
Qed.

(** Membership in the frontier. *)
Lemma web_peers_to_crawl_elem (st : Web.state) pid :
  pid ∈ Web.peers_to_crawl st ↔
  ∃ w, Web.nodes st !! pid = Some w ∧ Web.w_discovered w = false ∧
       n_rpc_url (Web.w_node w) ∉ Web.visited_rpcs st.
Proof.
  unfold Web.peers_to_crawl. rewrite list_elem_of_fmap. split.
  - intros ([i w] & -> & Hin). apply list_elem_of_filter in Hin as [[Hd Hv] Hin].
    apply elem_of_map_to_list in Hin. eauto.
  - intros (w & Hw & Hd & Hv). exists (pid, w). split; [done|].
    apply list_elem_of_filter. split; [done|]. by apply elem_of_map_to_list.
Qed.

Lemma web_mutate_dom (st : Web.state) (m : web_mutation) (X : gset string) :
  registers_within X [m] →
  dom (Web.nodes (web_mutate st m)) ⊆ dom (Web.nodes st) ∪ X.
Proof.
  intros [Hm _]%Forall_cons. destruct m as [c | a b | u | i | | s]; simpl.
  - unfold web_add_node_call. rewrite web_add_node_dom. set_solver.
  - unfold Web.add_edge. case_decide; set_solver.
  - set_solver.
  - rewrite dom_alter_L. set_solver.
  - set_solver.
  - set_solver.
Qed.

Lemma web_script_dom (script : list web_mutation) (st : Web.state) (X : gset string) :
  registers_within X script →
  dom (Web.nodes (foldl web_mutate st script)) ⊆ dom (Web.nodes st) ∪ X.
Proof.
  revert st. induction script as [|m script IH]; intros st; simpl; [set_solver|].
  intros [Hm Hrest]%Forall_cons. etrans; [by apply IH|].
  pose proof (web_mutate_dom st m X) as H. unfold registers_within in H.
  rewrite Forall_singleton in H. set_solver.
Qed.

Lemma web_visit_script_registers net ids src url peer :
  closed_network net ids → peer ∈ query_net_info net url →
  registers_within (list_to_set ids) (web_visit_script src peer).
Proof.
  intros Hclosed Hin. unfold web_visit_script, registers_within.
  destruct (pe_id peer) as [pid|] eqn:Hid; [|by constructor].
  destruct (pe_remote_ip peer) as [ip|]; [|by constructor].
  destruct (negb _ || negb _); [by constructor|].
  destruct (is_private_ip ip); [by constructor|].
  apply Forall_cons. split.
  - simpl. apply elem_of_list_to_set. by eapply Hclosed.
  - by destruct (Py.truthy (Some src)); repeat constructor.
Qed.

Lemma web_discover_script_registers net ids src url (st : Web.state) :
  closed_network net ids →
  registers_within (list_to_set ids) (web_discover_script net src url st).
Proof.
  intros Hclosed. unfold web_discover_script, registers_within.
  case_decide; [by constructor|].
  apply Forall_cons. split; [done|]. apply Forall_bind, Forall_forall.
  intros peer Hin. by eapply web_visit_script_registers.
Qed.

Lemma registers_within_mono (X Y : gset string) (script : list web_mutation) :
  X ⊆ Y → registers_within X script → registers_within Y script.
Proof.
  intros Hsub Hreg. eapply Forall_impl; [exact Hreg|].
  intros [c | | | | |]; try done. apply Hsub.
Qed.

Lemma web_crawl_worker_dom net ids pid (st : Web.state) :
  closed_network net ids →
  dom (Web.nodes (Web.crawl_worker net pid st)) ⊆ dom (Web.nodes st) ∪ list_to_set ids.
Proof.
  intros Hclosed. rewrite web_worker_script_ok.
  etrans; [apply (web_script_dom _ _ (dom (Web.nodes st) ∪ list_to_set ids))|set_solver].
  unfold web_worker_script. destruct (Web.nodes st !! pid) as [w|] eqn:E; [|by constructor].
  assert (pid ∈ dom (Web.nodes st)) as Hpid by (apply elem_of_dom; eauto).
  unfold registers_within. rewrite !Forall_app. split; [|split].
  - destruct (query_status net _); [|by constructor].
    apply Forall_cons. split; [simpl; set_solver|]. by repeat constructor.
  - eapply registers_within_mono; [|by apply web_discover_script_registers]. set_solver.
  - by repeat constructor.
Qed.

Lemma web_run_batch_dom net ids tasks (st : Web.state) :
  closed_network net ids →
  dom (Web.nodes (Web.run_batch net tasks st)) ⊆ dom (Web.nodes st) ∪ list_to_set ids.
Proof.
  intros Hclosed. unfold Web.run_batch. revert st.
  induction tasks as [|t tasks IH]; intros st; simpl; [set_solver|].
  etrans; [apply IH|]. pose proof (web_crawl_worker_dom net ids t st Hclosed). set_solver.
Qed.

(** Whoever is in the frontier after a batch was registered by that batch. *)
Lemma web_iteration_frontier_new net sched ids (st : Web.state) pid :
  closed_network net ids →
  pid ∈ Web.peers_to_crawl (Web.iteration net sched st) →
  pid ∈ ids ∧ (pid ∉ dom (Web.nodes st)) ∧
  pid ∈ dom (Web.nodes (Web.iteration net sched st)).
Proof.
  intros Hclosed (w' & Hw' & Hd' & Hv')%web_peers_to_crawl_elem.
  assert (pid ∈ dom (Web.nodes (Web.iteration net sched st))) as Hdom'
    by (apply elem_of_dom; eauto).
  assert (pid ∉ dom (Web.nodes st)) as Hnew.
  { intros [w Hw]%elem_of_dom.
    pose proof (web_run_batch_le net (order sched (Web.peers_to_crawl st)) st) as [Hvis Hrec].
    destruct (Hrec pid w Hw) as (w1 & Hw1 & (Hstatic & _ & Hdisc)).
    fold (Web.iteration net sched st) in Hw1, Hvis. rewrite Hw' in Hw1.
    injection Hw1 as <-.
    destruct (decide (pid ∈ Web.peers_to_crawl st)) as [Hin | Hout].
    - destruct (web_run_batch_discovered net (order sched (Web.peers_to_crawl st)) st pid)
        as (w2 & Hw2 & Hd2).
      + by rewrite (order_perm sched).
      + apply elem_of_dom; eauto.
      + fold (Web.iteration net sched st) in Hw2. congruence.
    - destruct (Web.w_discovered w) eqn:Hd.
      + rewrite Hdisc in Hd'; done.
      + destruct (decide (n_rpc_url (Web.w_node w) ∈ Web.visited_rpcs st)) as [Hv | Hv].
        * apply Hv'. destruct Hstatic as (_&_&_&_&_&_&_&<-). by apply Hvis.
        * apply Hout, web_peers_to_crawl_elem. eauto. }
  split; [|done].
  pose proof (web_run_batch_dom net ids (order sched (Web.peers_to_crawl st)) st Hclosed).
  fold (Web.iteration net sched st) in H. apply (elem_of_list_to_set (C:=gset string)).
  set_solver.
Qed.

(** A batch that leaves a frontier has registered an identity of [ids]
    that was unknown: the number of unknown identities went down. *)
Lemma web_iteration_measure net sched ids (st : Web.state) :
  closed_network net ids →
  Web.peers_to_crawl (Web.iteration net sched st) ≠ [] →
  size (list_to_set ids ∖ dom (Web.nodes (Web.iteration net sched st)) : gset string)
  < size (list_to_set ids ∖ dom (Web.nodes st) : gset string).
Proof.
  intros Hclosed Hne.
  destruct (Web.peers_to_crawl (Web.iteration net sched st)) as [|pid rest] eqn:E; [done|].
  destruct (web_iteration_frontier_new net sched ids st pid Hclosed) as (Hid & Hnew & Hdom).
  { rewrite E. by left. }
  apply (elem_of_list_to_set (C:=gset string)) in Hid.
  pose proof (web_le_dom _ _
    (web_run_batch_le net (order sched (Web.peers_to_crawl st)) st)) as Hmono.
  fold (Web.iteration net sched st) in Hmono.
  apply subset_size. split; [set_solver|].
  intros Hsub. specialize (Hsub pid). set_solver.
Qed.

Lemma size_list_to_set_le (l : list string) : size (list_to_set l : gset string) ≤ length l.
Proof.
  induction l as [|x l IH].
  - by rewrite list_to_set_nil, size_empty.
  - rewrite list_to_set_cons, size_union_alt, size_singleton. simpl.
    assert (size (list_to_set l ∖ {[ x ]} : gset string) ≤ size (list_to_set l : gset string))
      by (apply subseteq_size; set_solver).
    lia.
Qed.

(** The loop reaches an empty frontier, and the first time it does is after
    at most one batch more than there are unknown identities. *)
Lemma web_crawl_halts net sched ids (n : nat) (st : Web.state) :
  closed_network net ids →
  size (list_to_set ids ∖ dom (Web.nodes st) : gset string) ≤ n →
  ∃ k, k ≤ S n ∧
       Web.peers_to_crawl (Nat.iter k (Web.iteration net sched) st) = [] ∧
       ∀ j, j < k → Web.peers_to_crawl (Nat.iter j (Web.iteration net sched) st) ≠ [].
Proof.
  intros Hclosed. revert st. induction n as [|n IH]; intros st Hn.
  - destruct (Web.peers_to_crawl st) eqn:E0.
    { exists 0. split; [lia|]. split; [done|]. intros j Hj. lia. }
    destruct (Web.peers_to_crawl (Web.iteration net sched st)) eqn:E1.
    { exists 1. split; [lia|]. split; [done|]. intros [|j] Hj; [|lia]. simpl. by rewrite E0. }
    pose proof (web_iteration_measure net sched ids st Hclosed) as Hlt.
    rewrite E1 in Hlt. specialize (Hlt ltac:(done)). lia.
  - destruct (Web.peers_to_crawl st) eqn:E0.
    { exists 0. split; [lia|]. split; [done|]. intros j Hj. lia. }
    destruct (Web.peers_to_crawl (Web.iteration net sched st)) eqn:E1.
    { exists 1. split; [lia|]. split; [done|]. intros [|j] Hj; [|lia]. simpl. by rewrite E0. }
    pose proof (web_iteration_measure net sched ids st Hclosed) as Hlt.
    rewrite E1 in Hlt. specialize (Hlt ltac:(done)).
    destruct (IH (Web.iteration net sched st)) as (k & Hk & Hempty & Hbefore); [lia|].
    exists (S k). split; [lia|]. split; [by rewrite Nat.iter_succ_r|].
    intros [|j] Hj; [simpl; by rewrite E0|].
    rewrite Nat.iter_succ_r. apply Hbefore. lia.
Qed.

Lemma web_crawl_loop_iter net sched (k : nat) (st : Web.state) (fuel : nat) :
  Web.peers_to_crawl (Nat.iter k (Web.iteration net sched) st) = [] →
  (∀ j, j < k → Web.peers_to_crawl (Nat.iter j (Web.iteration net sched) st) ≠ []) →
  k < fuel →
  Web.crawl_loop net sched fuel st = Some (Nat.iter k (Web.iteration net sched) st).
Proof.
  revert st fuel. induction k as [|k IH]; intros st [|fuel] Hempty Hbefore Hfuel; try lia.
  - simpl in *. by rewrite Hempty.
  - simpl Web.crawl_loop. specialize (Hbefore 0 ltac:(lia)) as H0. simpl in H0.
    destruct (Web.peers_to_crawl st) eqn:E0; [done|].
    rewrite Nat.iter_succ_r in Hempty |- *. apply IH; [done | | lia].
    intros j Hj. rewrite <- Nat.iter_succ_r. apply Hbefore. lia.
Qed.

Lemma web_seed_phase_ok net seeds (st : Web.state) :
  web_seeds_ok seeds → ∃ st0, Web.seed_phase net seeds st = Web.Ok st0.
Proof.
  revert st. induction seeds as [|se seeds IH]; intros st Hok; simpl; [eauto|].
  apply Forall_cons in Hok as [[hp Hhp] Hok].
  unfold Web.seed_step. rewrite Hhp.
  destruct (query_status net se.1) as [status|]; [|by apply IH].
  destruct (Py.truthy (si_id status)); by apply IH.
Qed.

(** The frontier of the web variant is narrower than "registered and address
    not visited": [add_node] stores the synthesized address
    [http://<host>:26657], so a seed configured with another address keeps a
    stored address that is never visited, and leaves the frontier through
    its [_discovered] mark only. *)
Lemma web_https_seed_leaves_frontier_by_mark :
  ∃ st w,
    Web.start_discovery https_seed_net fifo
      [("https://on.dcl.csa-iot.org:26657", "CSA-ON-01")] 1 = Web.Finished st ∧
    Web.nodes st !! "S" = Some w ∧
    Web.w_discovered w = true ∧
    n_rpc_url (Web.w_node w) = "http://on.dcl.csa-iot.org:26657" ∧
    (n_rpc_url (Web.w_node w) ∉ Web.visited_rpcs st) ∧
    Web.peers_to_crawl st = [].
Proof.
  do 2 eexists. split; [vm_compute; reflexivity|].
  split; [vm_compute; reflexivity|].
  repeat split; try (vm_compute; reflexivity).
  vm_compute. intros H. discriminate H.
Qed.

(** The web variant halts. *)
Lemma web_discovery_halts
    (net : rpc) (sched : scheduler string)
    (seeds : list (string * string)) (ids : list string) :
  closed_network net ids →
  web_seeds_ok seeds →
  ∃ (st0 : Web.state) (k : nat),
    Web.seed_phase net seeds Web.reset = Web.Ok st0 ∧
    k ≤ S (length ids) ∧
    Web.peers_to_crawl (Nat.iter k (Web.iteration net sched) st0) = [] ∧
    (∀ j, j < k → Web.peers_to_crawl (Nat.iter j (Web.iteration net sched) st0) ≠ []) ∧
    ∀ fuel, k < fuel →
      Web.start_discovery net sched seeds fuel
      = Web.Finished (Web.set_status Web.complete (Nat.iter k (Web.iteration net sched) st0)) ∧
      Web.status (web_final (Web.start_discovery net sched seeds fuel)) = Web.complete.
Proof.
  intros Hclosed Hseeds.
  destruct (web_seed_phase_ok net seeds Web.reset Hseeds) as [st0 Hst0].
  destruct (web_crawl_halts net sched ids (length ids) st0 Hclosed)
    as (k & Hk & Hempty & Hbefore).
  { etrans; [|apply size_list_to_set_le]. apply subseteq_size. set_solver. }
  exists st0, k. split; [done|]. split; [done|]. split; [done|]. split; [done|].
  intros fuel Hfuel. unfold Web.start_discovery. rewrite Hst0.
  by rewrite (web_crawl_loop_iter net sched k st0 fuel Hempty Hbefore Hfuel).
Qed.

(** ** Two seeds with one common peer (command-line variant) *)

Lemma truthy_Some_ne (s : string) : s ≠ "" → Py.truthy (Some s) = true.
Proof. intros H. simpl. by destruct (String.eqb_spec s ""). Qed.



Lemma cli_discover_visited net src url (st : Cli.state) :
  url ∈ Cli.visited_rpcs st → Cli.discover_from_node net src url st = st.
Proof. intros H. unfold Cli.discover_from_node. by rewrite decide_True. Qed.










(** ** Calls that do not interleave *)

Lemma race_step_at (done rest : list Race.call) (c : Race.call)
    (V : gset string) (Q : list string) :
  Race.calls (Race.Conf V Q (done ++ c :: rest)) !! length done = Some c.
Proof. simpl. by rewrite lookup_app_r, Nat.sub_diag by lia. Qed.

Lemma race_insert_at (done rest : list Race.call) (c c' : Race.call) :
  <[length done := c']> (done ++ c :: rest) = done ++ c' :: rest.
Proof. rewrite insert_app_r_alt by lia. by rewrite Nat.sub_diag. Qed.

(** One call run to its end from its membership test. *)
Lemma race_three_steps (done rest : list Race.call) (u : string)
    (V : gset string) (Q : list string) :
  foldl Race.step (Race.Conf V Q (done ++ Race.Call u Race.AtTest :: rest))
    [length done; length done; length done]
  = if decide (u ∈ V)
    then Race.Conf V Q (done ++ Race.Call u Race.Returned :: rest)
    else Race.Conf ({[ u ]} ∪ V) (u :: Q) (done ++ Race.Call u Race.Returned :: rest).
Proof.
  simpl foldl. unfold Race.step at 3. rewrite race_step_at. simpl.
  case_decide.
  - rewrite race_insert_at. unfold Race.step. by rewrite !race_step_at.
  - rewrite race_insert_at. unfold Race.step at 2. rewrite race_step_at. simpl.
    rewrite race_insert_at. unfold Race.step. rewrite race_step_at. simpl.
    by rewrite race_insert_at.
Qed.

Lemma race_one_by_one_from (urls : list string) (done : list Race.call)
    (V : gset string) (Q : list string) :
  NoDup Q → (∀ u, u ∈ Q → u ∈ V) →
  let c' := foldl Race.step
              (Race.Conf V Q (done ++ ((fun u => Race.Call u Race.AtTest) <$> urls)))
              (i ← seq (length done) (length urls); [i; i; i]) in
  NoDup (Race.queried c') ∧ (∀ u, u ∈ Race.queried c' → u ∈ Q ∨ u ∉ V).
Proof.
  revert done V Q. induction urls as [|u urls IH]; intros done V Q Hnd Hsub.
  { simpl. split; [done | auto]. }
  cbv zeta. rewrite fmap_cons.
  change (seq (length done) (length (u :: urls)))
    with (length done :: seq (S (length done)) (length urls)).
  rewrite bind_cons, foldl_app, race_three_steps.
  replace (S (length done)) with (length (done ++ [Race.Call u Race.Returned]))
    by (rewrite length_app; simpl; lia).
  case_decide as Hu.
  - rewrite (cons_middle _ done), app_assoc. by apply IH.
  - rewrite (cons_middle _ done), app_assoc.
    destruct (IH (done ++ [Race.Call u Race.Returned]) ({[ u ]} ∪ V) (u :: Q)) as [H1 H2].
    + apply NoDup_cons. split; [|done]. intros Hin. by apply Hu, Hsub.
    + intros v [-> | Hv]%elem_of_cons; [set_solver|]. apply Hsub in Hv. set_solver.
    + split; [exact H1|]. intros v Hv. destruct (H2 v Hv) as [Hq | Hq].
      * apply elem_of_cons in Hq as [-> | Hq]; auto.
      * right. set_solver.
Qed.

(** When every call runs to its end before the next one starts, no address
    is queried twice, and none that was visited before is queried at all:
    the guard of [discover_from_node] does its work for calls that do not
    interleave. *)
Lemma serial_calls_query_once (visited : gset string) (urls : list string) :
  let c' := Race.run (Race.one_by_one (length urls)) (Race.start visited urls) in
  NoDup (Race.queried c') ∧ (∀ u, u ∈ Race.queried c' → u ∉ visited).
Proof.
  destruct (race_one_by_one_from urls [] visited []) as [H1 H2].
  - constructor.
  - intros u Hu. by apply elem_of_nil in Hu.
  - simpl in *. split; [exact H1|]. intros u Hu. destruct (H2 u Hu) as [Hq | Hq]; [|done].
    by apply elem_of_nil in Hq.
Qed.

(** ** The counters at every point of a run *)

Lemma web_boundary_writes net (st : Web.state) :
  web_boundary net st → ∃ writes, st = foldl web_mutate Web.reset writes.
Proof.
  induction 1 as [| st seed_entry st' _ [ws ->] Hstep | st pid _ [ws ->]].
  - by exists [].
  - rewrite web_seed_script_ok in Hstep.
    destruct (web_seed_script net seed_entry _) as [script|]; [|done].
    injection Hstep as <-. exists (ws ++ script). by rewrite foldl_app.
  - rewrite web_worker_script_ok. eexists (ws ++ _). by rewrite foldl_app.
Qed.

Lemma web_run_point_writes net (st : Web.state) :
  web_run_point net st → ∃ writes, st = foldl web_mutate Web.reset writes.
Proof.
  destruct 1 as [st Hb | st pid k Hb | st seed_entry script k Hb Hs | st Hb];
    apply web_boundary_writes in Hb as [ws ->].
  - by exists ws.
  - eexists (ws ++ _). by rewrite foldl_app.
  - eexists (ws ++ _). by rewrite foldl_app.
  - exists (ws ++ [MStatus Web.complete]). by rewrite foldl_app.
Qed.

(** C9.  A run of the web variant starts from the reset stores and changes
    them only through [add_node], [add_edge] and the four other writes, each
    of them atomic.  After every such sequence of writes, in any order and
    for any arguments, [total_nodes] is the number of registry entries and
    [total_edges] is the length of the edge list; so it is at every point of
    a run, and before the first run. *)
Theorem stats_never_drift :
  (∀ writes : list web_mutation, stats_ok (foldl web_mutate Web.reset writes)) ∧
  (∀ (net : rpc) (st : Web.state), web_run_point net st → stats_ok st) ∧
  stats_ok Web.init.
Proof.
  split; [apply stats_ok_writes|]. split; [|by split].
  intros net st [ws ->]%web_run_point_writes. apply stats_ok_writes.
Qed.

Lemma stats_never_drift_witness :
  stats_ok
    (web_final (Web.start_discovery shared_address_net lifo
                  [("http://1.1.1.1:26657", "org-seed")] 3)).
Proof.
  destruct stats_never_drift as (_ & Hrun & _).
  apply (Hrun shared_address_net).
  apply (web_start_discovery_run_point shared_address_net lifo
           [("http://1.1.1.1:26657", "org-seed")] 3).
  vm_compute. reflexivity.
Defined.

(** ** Termination of the crawl of the command-line variant *)

Lemma cli_mutate_visited (st : Cli.state) (m : cli_mutation) :
  Cli.visited_rpcs st ⊆ Cli.visited_rpcs (cli_mutate st m).
Proof.
  destruct m as [i ip peer | i n | a b | u]; simpl; try done.
  - by rewrite (proj2 (proj2 (cli_add_peer_edges _ _ _ _))).
  - by rewrite (proj2 (cli_add_edge_peers _ _ _)).
  - set_solver.
Qed.

Lemma cli_script_visited (script : list cli_mutation) (st : Cli.state) :
  Cli.visited_rpcs st ⊆ Cli.visited_rpcs (foldl cli_mutate st script).
Proof.
  revert st. induction script as [|m script IH]; intros st; simpl; [done|].
  etrans; [apply cli_mutate_visited | apply IH].
Qed.

Lemma cli_discover_visited_mono net src url (st : Cli.state) :
  Cli.visited_rpcs st ⊆ Cli.visited_rpcs (Cli.discover_from_node net src url st).
Proof. rewrite cli_discover_script_ok. apply cli_script_visited. Qed.

(** After the call the address is in [visited_rpcs]. *)
Lemma cli_discover_marks net src url (st : Cli.state) :
  url ∈ Cli.visited_rpcs (Cli.discover_from_node net src url st).
Proof.
  rewrite cli_discover_script_ok. unfold cli_discover_script. case_decide; [done|].
  simpl. apply cli_script_visited. simpl. set_solver.
Qed.

Lemma cli_run_batch_lookup net tasks (st : Cli.state) i n :
  Cli.discovered_peers st !! i = Some n →
  Cli.discovered_peers (Cli.run_batch net tasks st) !! i = Some n.
Proof.
  unfold Cli.run_batch. revert st.
  induction tasks as [|t tasks IH]; intros st Hi; simpl; [done|].
  by apply IH, cli_discover_lookup.
Qed.

Lemma cli_run_batch_visited_mono net tasks (st : Cli.state) :
  Cli.visited_rpcs st ⊆ Cli.visited_rpcs (Cli.run_batch net tasks st).
Proof.
  unfold Cli.run_batch. revert st.
  induction tasks as [|t tasks IH]; intros st; simpl; [done|].
  etrans; [apply cli_discover_visited_mono | apply IH].
Qed.

Lemma cli_run_batch_marks net tasks (st : Cli.state) task :
  task ∈ tasks → task.2 ∈ Cli.visited_rpcs (Cli.run_batch net tasks st).
Proof.
  unfold Cli.run_batch. revert st.
  induction tasks as [|t tasks IH]; intros st Hin; [by apply elem_of_nil in Hin|].
  simpl. apply elem_of_cons in Hin as [-> | Hin]; [|by apply IH].
  apply (cli_run_batch_visited_mono net tasks), cli_discover_marks.
Qed.

Lemma cli_mutate_dom (st : Cli.state) (m : cli_mutation) (X : gset string) :
  cli_registers_within X [m] →
  dom (Cli.discovered_peers (cli_mutate st m)) ⊆ dom (Cli.discovered_peers st) ∪ X.
Proof.
  intros [Hm _]%Forall_cons. destruct m as [i ip peer | i n | a b | u]; simpl in *.
  - rewrite cli_add_peer_dom. set_solver.
  - rewrite dom_insert_L. set_solver.
  - rewrite (proj1 (cli_add_edge_peers _ _ _)). set_solver.
  - set_solver.
Qed.

Lemma cli_script_dom (script : list cli_mutation) (st : Cli.state) (X : gset string) :
  cli_registers_within X script →
  dom (Cli.discovered_peers (foldl cli_mutate st script)) ⊆ dom (Cli.discovered_peers st) ∪ X.
Proof.
  revert st. induction script as [|m script IH]; intros st; simpl; [set_solver|].
  intros [Hm Hrest]%Forall_cons. etrans; [by apply IH|].
  pose proof (cli_mutate_dom st m X) as H. unfold cli_registers_within in H.
  rewrite Forall_singleton in H. set_solver.
Qed.

Lemma cli_discover_dom net ids src url (st : Cli.state) :
  closed_network net ids →
  dom (Cli.discovered_peers (Cli.discover_from_node net src url st))
  ⊆ dom (Cli.discovered_peers st) ∪ list_to_set ids.
Proof.
  intros Hclosed. rewrite cli_discover_script_ok. apply cli_script_dom.
  unfold cli_discover_script, cli_registers_within. case_decide; [by constructor|].
  apply Forall_cons. split; [done|]. apply Forall_bind, Forall_forall.
  intros peer Hin. unfold cli_visit_script. simpl.
  destruct (pe_id peer) as [pid|] eqn:Hid; [|by constructor].
  destruct (pe_remote_ip peer) as [ip|]; [|by constructor].
  destruct (negb _ || negb _); [by constructor|].
  destruct (is_private_ip ip); [by constructor|].
  apply Forall_cons. split.
  - simpl. apply elem_of_list_to_set. by eapply Hclosed.
  - by destruct (negb (String.eqb src "")); repeat constructor.
Qed.

Lemma cli_run_batch_dom net ids tasks (st : Cli.state) :
  closed_network net ids →
  dom (Cli.discovered_peers (Cli.run_batch net tasks st))
  ⊆ dom (Cli.discovered_peers st) ∪ list_to_set ids.
Proof.
  intros Hclosed. unfold Cli.run_batch. revert st.
  induction tasks as [|t tasks IH]; intros st; simpl; [set_solver|].
  etrans; [apply IH|].
  pose proof (cli_discover_dom net ids t.1 t.2 st Hclosed). set_solver.
Qed.

Lemma cli_peers_to_query_elem (st : Cli.state) pid n :
  Cli.discovered_peers st !! pid = Some n →
  n_rpc_url n ∉ Cli.visited_rpcs st →
  (pid, n_rpc_url n) ∈ Cli.peers_to_query st.
Proof.
  intros Hn Hv. unfold Cli.peers_to_query. apply list_elem_of_fmap.
  exists (pid, n). split; [done|]. apply list_elem_of_filter. split; [done|].
  by apply elem_of_map_to_list.
Qed.

(** Whoever is in the frontier after a batch was registered by that batch. *)
Lemma cli_iteration_frontier_new net sched ids (st : Cli.state) task :
  closed_network net ids →
  task ∈ Cli.peers_to_query (Cli.iteration net sched st) →
  task.1 ∈ ids ∧ (task.1 ∉ dom (Cli.discovered_peers st)) ∧
  task.1 ∈ dom (Cli.discovered_peers (Cli.iteration net sched st)).
Proof.
  intros Hclosed (n & Hn & Hurl & Hv)%cli_peers_to_query_registered.
  assert (task.1 ∈ dom (Cli.discovered_peers (Cli.iteration net sched st))) as Hdom'
    by (apply elem_of_dom; eauto).
  assert (task.1 ∉ dom (Cli.discovered_peers st)) as Hnew.
  { intros [n0 Hn0]%elem_of_dom.
    pose proof (cli_run_batch_lookup net (order sched (Cli.peers_to_query st)) st _ _ Hn0)
      as Hn1.
    fold (Cli.iteration net sched st) in Hn1. rewrite Hn in Hn1. injection Hn1 as ->.
    apply Hv.
    destruct (decide (n_rpc_url n0 ∈ Cli.visited_rpcs st)) as [Hold | Hold].
    - by apply (cli_run_batch_visited_mono net (order sched (Cli.peers_to_query st)) st).
    - apply (cli_run_batch_marks net (order sched (Cli.peers_to_query st)) st
               (task.1, n_rpc_url n0)).
      rewrite (order_perm sched). by apply cli_peers_to_query_elem. }
  split; [|done].
  pose proof (cli_run_batch_dom net ids (order sched (Cli.peers_to_query st)) st Hclosed).
  fold (Cli.iteration net sched st) in H. apply (elem_of_list_to_set (C:=gset string)).
  set_solver.
Qed.

Lemma cli_iteration_measure net sched ids (st : Cli.state) :
  closed_network net ids →
  Cli.peers_to_query (Cli.iteration net sched st) ≠ [] →
  size (list_to_set ids ∖ dom (Cli.discovered_peers (Cli.iteration net sched st)) : gset string)
  < size (list_to_set ids ∖ dom (Cli.discovered_peers st) : gset string).
Proof.
  intros Hclosed Hne.
  destruct (Cli.peers_to_query (Cli.iteration net sched st)) as [|task rest] eqn:E; [done|].
  destruct (cli_iteration_frontier_new net sched ids st task Hclosed) as (Hid & Hnew & Hdom).
  { rewrite E. by left. }
  apply (elem_of_list_to_set (C:=gset string)) in Hid.
  assert (dom (Cli.discovered_peers st) ⊆ dom (Cli.discovered_peers (Cli.iteration net sched st)))
    as Hmono.
  { intros i [n Hn]%elem_of_dom. apply elem_of_dom. exists n.
    by apply cli_run_batch_lookup. }
  apply subset_size. split; [set_solver|].
  intros Hsub. specialize (Hsub task.1). set_solver.
Qed.

Lemma cli_crawl_halts net sched ids (n : nat) (st : Cli.state) :
  closed_network net ids →
  size (list_to_set ids ∖ dom (Cli.discovered_peers st) : gset string) ≤ n →
  ∃ k, k ≤ S n ∧
       Cli.peers_to_query (Nat.iter k (Cli.iteration net sched) st) = [] ∧
       ∀ j, j < k → Cli.peers_to_query (Nat.iter j (Cli.iteration net sched) st) ≠ [].
Proof.
  intros Hclosed. revert st. induction n as [|n IH]; intros st Hn.
  - destruct (Cli.peers_to_query st) eqn:E0.
    { exists 0. split; [lia|]. split; [done|]. intros j Hj. lia. }
    destruct (Cli.peers_to_query (Cli.iteration net sched st)) eqn:E1.
    { exists 1. split; [lia|]. split; [done|]. intros [|j] Hj; [|lia]. simpl. by rewrite E0. }
    pose proof (cli_iteration_measure net sched ids st Hclosed) as Hlt.
    rewrite E1 in Hlt. specialize (Hlt ltac:(done)). lia.
  - destruct (Cli.peers_to_query st) eqn:E0.
    { exists 0. split; [lia|]. split; [done|]. intros j Hj. lia. }
    destruct (Cli.peers_to_query (Cli.iteration net sched st)) eqn:E1.
    { exists 1. split; [lia|]. split; [done|]. intros [|j] Hj; [|lia]. simpl. by rewrite E0. }
    pose proof (cli_iteration_measure net sched ids st Hclosed) as Hlt.
    rewrite E1 in Hlt. specialize (Hlt ltac:(done)).
    destruct (IH (Cli.iteration net sched st)) as (k & Hk & Hempty & Hbefore); [lia|].
    exists (S k). split; [lia|]. split; [by rewrite Nat.iter_succ_r|].
    intros [|j] Hj; [simpl; by rewrite E0|].
    rewrite Nat.iter_succ_r. apply Hbefore. lia.
Qed.

Lemma cli_crawl_loop_iter net sched (k : nat) (st : Cli.state) (fuel : nat) :
  Cli.peers_to_query (Nat.iter k (Cli.iteration net sched) st) = [] →
  (∀ j, j < k → Cli.peers_to_query (Nat.iter j (Cli.iteration net sched) st) ≠ []) →
  k < fuel →
  Cli.crawl_loop net sched fuel st = Some (Nat.iter k (Cli.iteration net sched) st).
Proof.
  revert st fuel. induction k as [|k IH]; intros st [|fuel] Hempty Hbefore Hfuel; try lia.
  - simpl in *. by rewrite Hempty.
  - simpl Cli.crawl_loop. specialize (Hbefore 0 ltac:(lia)) as H0. simpl in H0.
    destruct (Cli.peers_to_query st) eqn:E0; [done|].
    rewrite Nat.iter_succ_r in Hempty |- *. apply IH; [done | | lia].
    intros j Hj. rewrite <- Nat.iter_succ_r. apply Hbefore. lia.
Qed.

Lemma cli_seed_phase_ok net seeds (st : Cli.state) :
  cli_seeds_ok net seeds → ∃ st0, Cli.seed_phase net seeds st = Cli.Ok st0.
Proof.
  revert st. induction seeds as [|u seeds IH]; intros st Hok; simpl; [eauto|].
  apply Forall_cons in Hok as [Hu Hok].
  unfold Cli.seed_step.
  destruct (query_status net u) as [status|]; [|by apply IH].
  destruct (Py.truthy (si_id status)) eqn:Hid; [|by apply IH].
  destruct (Hu status eq_refl Hid) as [moniker ->]. by apply IH.
Qed.

(** C1, as the claim states it, on the web variant: the claim's frontier
    is the set of known nodes whose RPC address is not yet visited.  A seed
    configured with an [https] address is stored with the synthesized
    address [http://<host>:26657], which nobody visits: the network is
    closed, the run halts at once with status [complete], and the claim's
    frontier holds the seed then and after any number of further batches. *)
Lemma web_run_completes_with_unvisited_address :
  let seeds := [("https://on.dcl.csa-iot.org:26657", "CSA-ON-01")] in
  let st0 := match Web.seed_phase https_seed_net seeds Web.reset with
             | Web.Ok s => s
             | Web.Raise _ s => s
             end in
  closed_network https_seed_net [] ∧
  web_seeds_ok seeds ∧
  Web.seed_phase https_seed_net seeds Web.reset = Web.Ok st0 ∧
  Web.start_discovery https_seed_net fifo seeds 1
  = Web.Finished (Web.set_status Web.complete st0) ∧
  Web.peers_to_crawl st0 = [] ∧
  web_unvisited st0 = ["S"] ∧
  web_unvisited (Web.set_status Web.complete st0) = ["S"] ∧
  ∀ k, web_unvisited (Nat.iter k (Web.iteration https_seed_net fifo) st0) = ["S"].
Proof.
  cbv zeta.
  split; [intros u peer i Hin; by apply elem_of_nil in Hin|].
  split; [repeat constructor; simpl; eexists; reflexivity|].
  split; [vm_compute; reflexivity|].
  split; [vm_compute; reflexivity|].
  split; [vm_compute; reflexivity|].
  split; [vm_compute; reflexivity|].
  split; [vm_compute; reflexivity|].
  intros k.
  assert (Nat.iter k (Web.iteration https_seed_net fifo)
            (match Web.seed_phase https_seed_net
                     [("https://on.dcl.csa-iot.org:26657", "CSA-ON-01")] Web.reset with
             | Web.Ok s => s
             | Web.Raise _ s => s
             end)
          = match Web.seed_phase https_seed_net
                    [("https://on.dcl.csa-iot.org:26657", "CSA-ON-01")] Web.reset with
            | Web.Ok s => s
            | Web.Raise _ s => s
            end) as ->.
  { induction k as [|k IH]; [done|]. rewrite Nat.iter_succ, IH. vm_compute. reflexivity. }
  vm_compute. reflexivity.
Qed.

(** C1, amended.  On a finite, closed network, when the seed loop does not
    raise, the crawl loop runs finitely many batches, in both variants and
    for every scheduler: there is a first batch count [k], at most one more
    than the number of identities of the network, at which the list the
    loop computes is empty, and the loop stops there.  In the command-line
    variant that list ([peers_to_query]) is the frontier of the claim: the
    registered nodes whose stored RPC address is not visited.  In the web
    variant the list ([peers_to_crawl]) is narrower: those nodes of the
    claim's frontier that are not marked [_discovered].  In the web variant
    the run then ends with status [complete]. *)
Theorem discovery_terminates (net : rpc) (ids : list string) :
  closed_network net ids →
  (∀ (sched : scheduler string) (seeds : list (string * string)),
      web_seeds_ok seeds →
      ∃ (st0 : Web.state) (k : nat),
        Web.seed_phase net seeds Web.reset = Web.Ok st0 ∧
        k ≤ S (length ids) ∧
        Web.peers_to_crawl (Nat.iter k (Web.iteration net sched) st0) = [] ∧
        (∀ j, j < k → Web.peers_to_crawl (Nat.iter j (Web.iteration net sched) st0) ≠ []) ∧
        ∀ fuel, k < fuel →
          Web.start_discovery net sched seeds fuel
          = Web.Finished
              (Web.set_status Web.complete (Nat.iter k (Web.iteration net sched) st0)) ∧
          Web.status (web_final (Web.start_discovery net sched seeds fuel)) = Web.complete) ∧
  (∀ (sched : scheduler (string * string)) (seeds : list string),
      cli_seeds_ok net seeds →
      ∃ (st0 : Cli.state) (k : nat),
        Cli.seed_phase net seeds Cli.init = Cli.Ok st0 ∧
        k ≤ S (length ids) ∧
        Cli.peers_to_query (Nat.iter k (Cli.iteration net sched) st0) = [] ∧
        (∀ j, j < k → Cli.peers_to_query (Nat.iter j (Cli.iteration net sched) st0) ≠ []) ∧
        ∀ fuel, k < fuel →
          Cli.crawl_network net sched seeds fuel
          = Cli.Finished (Nat.iter k (Cli.iteration net sched) st0)) ∧
  (∀ (st : Web.state) (pid : string),
      pid ∈ Web.peers_to_crawl st ↔
      pid ∈ web_unvisited st ∧
      ∃ w, Web.nodes st !! pid = Some w ∧ Web.w_discovered w = false) ∧
  (∀ st : Cli.state,
      (Cli.peers_to_query st).*1 = cli_unvisited st ∧
      ∀ task, task ∈ Cli.peers_to_query st →
              ∃ n, Cli.discovered_peers st !! task.1 = Some n ∧ task.2 = n_rpc_url n).
Proof.
  intros Hclosed. split; [|split; [|split]].
  - intros sched seeds Hseeds. by apply (web_discovery_halts net sched seeds ids).
  - intros sched seeds Hseeds.
    destruct (cli_seed_phase_ok net seeds Cli.init Hseeds) as [st0 Hst0].
    destruct (cli_crawl_halts net sched ids (length ids) st0 Hclosed)
      as (k & Hk & Hempty & Hbefore).
    { etrans; [|apply size_list_to_set_le]. apply subseteq_size. set_solver. }
    exists st0, k. split; [done|]. split; [done|]. split; [done|]. split; [done|].
    intros fuel Hfuel. unfold Cli.crawl_network. rewrite Hst0.
    by rewrite (cli_crawl_loop_iter net sched k st0 fuel Hempty Hbefore Hfuel).
  - intros st pid. rewrite web_peers_to_crawl_elem. unfold web_unvisited.
    rewrite list_elem_of_fmap. split.
    + intros (w & Hw & Hd & Hv). split; [|eauto].
      exists (pid, w). split; [done|]. apply list_elem_of_filter.
      split; [done|]. by apply elem_of_map_to_list.
    + intros [([i w'] & -> & Hin) (w & Hw & Hd)].
      apply list_elem_of_filter in Hin as [Hv Hin].
      apply elem_of_map_to_list in Hin. simpl in *.
      rewrite Hw in Hin. injection Hin as <-. eauto.
  - intros st. split.
    + unfold Cli.peers_to_query, cli_unvisited. rewrite <- list_fmap_compose.
      by apply list_fmap_ext.
    + intros task Hin.
      apply cli_peers_to_query_registered in Hin as (n & Hn & Hu & _). eauto.
Qed.

Lemma discovery_terminates_witness :
  Web.status
    (web_final (Web.start_discovery shared_address_net lifo
                  [("http://1.1.1.1:26657", "org-seed")] 4))
  = Web.complete.
Proof.
  destruct (discovery_terminates shared_address_net ["X"; "Y"]) as [Hweb _].
  - intros u peer i Hin Hid. simpl in Hin. unfold if_url in Hin.
    destruct (String.eqb u "http://1.1.1.1:26657").
    + apply elem_of_cons in Hin as [-> | Hin].
      { injection Hid as <-. by left. }
      apply list_elem_of_singleton in Hin as ->.
      injection Hid as <-. right. by left.
    + by apply elem_of_nil in Hin.
  - destruct (Hweb lifo [("http://1.1.1.1:26657", "org-seed")])
      as (st0 & k & _ & Hk & _ & _ & Hrun).
    + constructor; [|constructor]. simpl. eexists. reflexivity.
    + apply (Hrun 4). simpl in Hk. lia.
Defined.

(** The configured seeds of the web variant have the form the seed loop
    relies on. *)
Lemma web_configured_seeds_ok : web_seeds_ok Web.SEED_NODES.
Proof. repeat constructor; simpl; eexists; reflexivity. Qed.

(** * Further properties of the code *)

(** ** The discovery log *)

Lemma py_last_short {A : Type} (n : nat) (l : list A) : length l ≤ n → py_last n l = l.
Proof. intros H. unfold py_last. by replace (length l - n) with 0 by lia. Qed.

Lemma py_last_length {A : Type} (n : nat) (l : list A) :
  length (py_last n l) = Nat.min n (length l).
Proof. unfold py_last. rewrite length_drop. lia. Qed.

Lemma py_last_snoc {A : Type} (n : nat) (l : list A) (x : A) :
  0 < n → py_last n (py_last n l ++ [x]) = py_last n (l ++ [x]).
Proof.
  intros Hn. destruct (decide (length l ≤ n)) as [Hle | Hgt].
  { by rewrite (py_last_short n l). }
  unfold py_last at 1 3. rewrite !length_app, py_last_length. simpl.
  replace (Nat.min n (length l) + 1 - n) with 1 by lia.
  rewrite !drop_app_le; [|lia | rewrite py_last_length; lia].
  unfold py_last. rewrite drop_drop. do 2 f_equal. lia.
Qed.

Lemma log_is_py_last (timestamp msg : string) (l : list string) :
  Server.log timestamp msg l = py_last 100 (l ++ [Server.log_entry timestamp msg]).
Proof.
  unfold Server.log. destruct (100 <? _) eqn:E; [done|].
  apply Nat.ltb_ge in E. by rewrite py_last_short.
Qed.

(** X1.  The discovery log is a window on the messages: whatever it held,
    after a [log] call it has at most 100 entries and ends with the new
    one; starting from the empty log of a run, after any number of calls it
    holds exactly the last 100 messages logged, oldest first. *)
Theorem log_keeps_last_hundred :
  (∀ (timestamp msg : string) (l : list string),
      length (Server.log timestamp msg l) ≤ 100 ∧
      last (Server.log timestamp msg l) = Some (Server.log_entry timestamp msg)) ∧
  (∀ messages : list (string * string),
      foldl (fun l tm => Server.log tm.1 tm.2 l) [] messages
      = py_last 100 ((fun tm => Server.log_entry tm.1 tm.2) <$> messages)).
Proof.
  split.
  - intros timestamp msg l. rewrite log_is_py_last. split.
    + rewrite py_last_length. lia.
    + unfold py_last. rewrite length_app. simpl.
      destruct (decide (length l + 1 - 100 ≤ length l)) as [Hle | Hgt]; [|lia].
      rewrite drop_app_le by lia. by rewrite last_snoc.
  - intros messages. induction messages as [|tm messages IH] using rev_ind; [done|].
    rewrite foldl_app, fmap_app. simpl. rewrite IH, log_is_py_last.
    apply py_last_snoc. lia.
Qed.

(** ** Start requests and the status of a run *)

Lemma web_mutate_status (st : Web.state) (m : web_mutation) :
  keeps_status [m] → Web.status (web_mutate st m) = Web.status st.
Proof.
  intros [Hm _]%Forall_cons. destruct m as [c | a b | u | i | | s]; simpl; try done.
  - unfold web_add_node_call. apply web_add_node_edges.
  - unfold Web.add_edge. by case_decide.
Qed.

Lemma web_script_status (script : list web_mutation) (st : Web.state) :
  keeps_status script → Web.status (foldl web_mutate st script) = Web.status st.
Proof.
  revert st. induction script as [|m script IH]; intros st; simpl; [done|].
  intros [Hm Hrest]%Forall_cons. rewrite IH by done.
  apply web_mutate_status. by constructor.
Qed.

Lemma web_discover_script_keeps_status net src url (st : Web.state) :
  keeps_status (web_discover_script net src url st).
Proof.
  unfold web_discover_script, keeps_status. case_decide; [by constructor|].
  apply Forall_cons. split; [done|]. apply Forall_bind, Forall_forall.
  intros peer _. unfold compose, web_visit_script.
  destruct (pe_id peer) as [pid|]; [|by constructor].
  destruct (pe_remote_ip peer) as [ip|]; [|by constructor].
  destruct (negb _ || negb _); [by constructor|].
  destruct (is_private_ip ip); [by constructor|].
  apply Forall_cons. split; [done|].
  by destruct (Py.truthy (Some src)); repeat constructor.
Qed.

Lemma web_worker_script_keeps_status net pid (st : Web.state) :
  keeps_status (web_worker_script net pid st).
Proof.
  unfold web_worker_script, keeps_status.
  destruct (Web.nodes st !! pid) as [w|]; [|by constructor].
  rewrite !Forall_app. split; [|split].
  - by destruct (query_status net _); repeat constructor.
  - apply web_discover_script_keeps_status.
  - by repeat constructor.
Qed.

Lemma web_seed_script_keeps_status net seed_entry (st : Web.state) script :
  web_seed_script net seed_entry st = Some script → keeps_status script.
Proof.
  unfold web_seed_script, keeps_status.
  destruct (query_status net seed_entry.1) as [status|]; [|intros [= <-]; by constructor].
  destruct (Py.truthy (si_id status)); [|intros [= <-]; by constructor].
  destruct (Py.split_1 "//" seed_entry.1) as [hp|]; [|done].
  intros [= <-]. apply Forall_cons. split; [done|]. rewrite Forall_app. split.
  - apply web_discover_script_keeps_status.
  - by repeat constructor.
Qed.

Lemma keeps_status_take (k : nat) (script : list web_mutation) :
  keeps_status script → keeps_status (take k script).
Proof. apply Forall_take. Qed.

Lemma web_boundary_discovering net (st : Web.state) :
  web_boundary net st → Web.status st = Web.discovering.
Proof.
  induction 1 as [| st seed_entry st' _ IH Hstep | st pid _ IH]; [done | |].
  - rewrite web_seed_script_ok in Hstep.
    destruct (web_seed_script net seed_entry st) as [script|] eqn:E; [|done].
    injection Hstep as <-. rewrite web_script_status; [done|].
    by eapply web_seed_script_keeps_status.
  - rewrite web_worker_script_ok, web_script_status; [done|].
    apply web_worker_script_keeps_status.
Qed.

(** X2.  A start request is refused exactly while a run is under way: at
    every task boundary of a run and inside every task the status is
    [discovering] and [/api/start] answers [already_running] without
    starting a thread; before the first run and after a run has finished
    the request is accepted. *)
Theorem start_refused_during_run (net : rpc) (log : list string) :
  (∀ st, web_boundary net st →
         Web.status st = Web.discovering ∧
         Server.do_GET "/api/start" (Server.Server st log) = (Server.SendAlreadyRunning, false)) ∧
  (∀ st peer_id k, web_boundary net st →
         Server.do_GET "/api/start"
           (Server.Server (foldl web_mutate st (take k (web_worker_script net peer_id st))) log)
         = (Server.SendAlreadyRunning, false)) ∧
  (∀ sched seeds fuel st,
         Web.start_discovery net sched seeds fuel = Web.Finished st →
         Server.do_GET "/api/start" (Server.Server st log) = (Server.SendStarted, true)) ∧
  Server.do_GET "/api/start" (Server.Server Web.init log) = (Server.SendStarted, true).
Proof.
  split; [|split; [|split; [|done]]].
  - intros st Hb. apply web_boundary_discovering in Hb as Hs.
    split; [done|]. unfold Server.do_GET. simpl. by rewrite Hs.
  - intros st pid k Hb. unfold Server.do_GET. simpl.
    rewrite web_script_status
      by apply keeps_status_take, web_worker_script_keeps_status.
    by rewrite (web_boundary_discovering net st Hb).
  - intros sched seeds fuel st. unfold Web.start_discovery.
    destruct (Web.seed_phase net seeds Web.reset); [|done].
    destruct (Web.crawl_loop net sched fuel _); [|done]. by intros [= <-].
Qed.

Lemma start_refused_during_run_witness :
  Server.do_GET "/api/start" (Server.Server Web.reset []) = (Server.SendAlreadyRunning, false) ∧
  Server.do_GET "/api/start"
    (Server.Server
       (web_final (Web.start_discovery shared_address_net fifo
                     [("http://1.1.1.1:26657", "org-seed")] 3)) [])
  = (Server.SendStarted, true).
Proof.
  destruct (start_refused_during_run shared_address_net []) as (Hb & _ & Hfin & _).
  split.
  - apply (Hb Web.reset). constructor.
  - apply (Hfin fifo [("http://1.1.1.1:26657", "org-seed")] 3). vm_compute. reflexivity.
Defined.

(** ** Calling [discover_from_node] again *)

Lemma web_discover_marks net src url (st : Web.state) :
  url ∈ Web.visited_rpcs (Web.discover_from_node net src url st).
Proof.
  rewrite web_discover_script_ok. unfold web_discover_script. case_decide; [done|].
  simpl. apply (proj1 (web_script_le _ _)). simpl. set_solver.
Qed.

Lemma web_discover_visited net src url (st : Web.state) :
  url ∈ Web.visited_rpcs st → Web.discover_from_node net src url st = st.
Proof. intros H. unfold Web.discover_from_node. by rewrite decide_True. Qed.

(** X3.  [discover_from_node] works once per address: a call for an address
    that is in [visited_rpcs] changes nothing, and after any call the
    address is there.  So a second call for the same address is a no-op
    even for another source identity: of two nodes that share an RPC
    address, only the first one crawled gets its edges recorded. *)
Theorem discover_from_node_once_per_address (net : rpc) (source_id other_id rpc_url : string) :
  (∀ st : Cli.state,
      rpc_url ∈ Cli.visited_rpcs (Cli.discover_from_node net source_id rpc_url st) ∧
      Cli.discover_from_node net other_id rpc_url
        (Cli.discover_from_node net source_id rpc_url st)
      = Cli.discover_from_node net source_id rpc_url st) ∧
  (∀ st : Web.state,
      rpc_url ∈ Web.visited_rpcs (Web.discover_from_node net source_id rpc_url st) ∧
      Web.discover_from_node net other_id rpc_url
        (Web.discover_from_node net source_id rpc_url st)
      = Web.discover_from_node net source_id rpc_url st).
Proof.
  split; intros st.
  - split; [apply cli_discover_marks|]. apply cli_discover_visited, cli_discover_marks.
  - split; [apply web_discover_marks|]. apply web_discover_visited, web_discover_marks.
Qed.

(** ** What a finished crawl has covered *)

Lemma cli_crawl_loop_frontier_empty net sched fuel (st st' : Cli.state) :
  Cli.crawl_loop net sched fuel st = Some st' → Cli.peers_to_query st' = [].
Proof.
  revert st. induction fuel as [|fuel IH]; intros st; simpl; [done|].
  destruct (Cli.peers_to_query st) eqn:E; [by intros [= <-]|]. apply IH.
Qed.

Lemma web_crawl_loop_frontier_empty net sched fuel (st st' : Web.state) :
  Web.crawl_loop net sched fuel st = Some st' → Web.peers_to_crawl st' = [].
Proof.
  revert st. induction fuel as [|fuel IH]; intros st; simpl; [done|].
  destruct (Web.peers_to_crawl st) eqn:E; [by intros [= <-]|]. apply IH.
Qed.

(** X4.  When the crawl returns, no registered node is left to query: in
    the command-line variant the stored RPC address of every node is in
    [visited_rpcs]; in the web variant every node is marked [_discovered]
    or its stored RPC address is in [visited_rpcs]. *)
Theorem finished_crawl_covers_registry (net : rpc) :
  (∀ sched seeds fuel (st : Cli.state) pid n,
      Cli.crawl_network net sched seeds fuel = Cli.Finished st →
      Cli.discovered_peers st !! pid = Some n →
      n_rpc_url n ∈ Cli.visited_rpcs st) ∧
  (∀ sched seeds fuel (st : Web.state) pid w,
      Web.start_discovery net sched seeds fuel = Web.Finished st →
      Web.nodes st !! pid = Some w →
      Web.w_discovered w = true ∨ n_rpc_url (Web.w_node w) ∈ Web.visited_rpcs st).
Proof.
  split.
  - intros sched seeds fuel st pid n. unfold Cli.crawl_network.
    destruct (Cli.seed_phase net seeds Cli.init) as [st0|]; [|done].
    destruct (Cli.crawl_loop net sched fuel st0) as [st1|] eqn:El; [|done].
    intros [= <-] Hn. apply cli_crawl_loop_frontier_empty in El.
    destruct (decide (n_rpc_url n ∈ Cli.visited_rpcs st1)) as [|Hv]; [done|].
    pose proof (cli_peers_to_query_elem st1 pid n Hn Hv) as Hin.
    rewrite El in Hin. by apply elem_of_nil in Hin.
  - intros sched seeds fuel st pid w. unfold Web.start_discovery.
    destruct (Web.seed_phase net seeds Web.reset) as [st0|]; [|done].
    destruct (Web.crawl_loop net sched fuel st0) as [st1|] eqn:El; [|done].
    intros [= <-] Hw. simpl in *. apply web_crawl_loop_frontier_empty in El.
    destruct (Web.w_discovered w) eqn:Hd; [by left|]. right.
    destruct (decide (n_rpc_url (Web.w_node w) ∈ Web.visited_rpcs st1)) as [|Hv]; [done|].
    assert (pid ∈ Web.peers_to_crawl st1) as Hin
      by (apply web_peers_to_crawl_elem; eauto).
    rewrite El in Hin. by apply elem_of_nil in Hin.
Qed.

Lemma finished_crawl_covers_registry_witness :
  "http://5.5.5.5:26657"
  ∈ Cli.visited_rpcs
      (cli_final (Cli.crawl_network shared_address_net fifo ["http://1.1.1.1:26657"] 3)).
Proof.
  destruct (finished_crawl_covers_registry shared_address_net) as [Hcli _].
  apply (Hcli fifo ["http://1.1.1.1:26657"] 3 _ "X"
           (Cli.peer_node "X" "5.5.5.5"
              (PeerEntry (Some "X") (Some "org-vn-01") (Some "0.34.0") (Some "5.5.5.5")))).
  - vm_compute. reflexivity.
  - vm_compute. reflexivity.
Defined.

(** ** The edge stores during a run *)

Lemma cli_boundary_writes net (st : Cli.state) :
  cli_boundary net st → ∃ writes, st = foldl cli_mutate Cli.init writes.
Proof.
  induction 1 as [| st seed_url st' _ [ws ->] Hstep | st pid url _ [ws ->] Hpid].
  - by exists [].
  - rewrite cli_seed_script_ok in Hstep.
    destruct (cli_seed_script net seed_url _) as [script|]; [|done].
    injection Hstep as <-. exists (ws ++ script). by rewrite foldl_app.
  - rewrite cli_discover_script_ok. eexists (ws ++ _). by rewrite foldl_app.
Qed.

Lemma cli_run_point_writes net (st : Cli.state) :
  cli_run_point net st → ∃ writes, st = foldl cli_mutate Cli.init writes.
Proof.
  destruct 1 as [st Hb | st pid url k Hb Hpid | st seed_url script k Hb Hs];
    apply cli_boundary_writes in Hb as [ws ->].
  - by exists ws.
  - eexists (ws ++ _). by rewrite foldl_app.
  - eexists (ws ++ _). by rewrite foldl_app.
Qed.

(** X5.  In the web variant, where [add_edge] runs under the lock, the
    edge list never holds two entries for the same unordered pair, and
    [edge_set] holds exactly the canonical keys of the stored edges: after
    every sequence of writes from the reset stores, whatever the threads
    they come from, and so at every point of a run. *)
Theorem run_edges_deduplicated (net : rpc) :
  (∀ writes : list web_mutation,
      edges_wf (Web.edges (foldl web_mutate Web.reset writes))
               (Web.edge_set (foldl web_mutate Web.reset writes)) ∧
      ∀ a b, edge_count a b (Web.edges (foldl web_mutate Web.reset writes)) ≤ 1) ∧
  (∀ st : Web.state, web_run_point net st →
      edges_wf (Web.edges st) (Web.edge_set st) ∧
      ∀ a b, edge_count a b (Web.edges st) ≤ 1).
Proof.
  assert (∀ es ks a b, edges_wf es ks → edge_count a b es ≤ 1) as Hcount.
  { intros es ks a b [Hnd Hks].
    destruct (decide (edge_key a b ∈ key_of <$> es)) as [Hin | Hout].
    - by rewrite edge_count_present.
    - rewrite edge_count_absent by done. lia. }
  split.
  - intros ws. pose proof (web_writes_edges_wf ws). split; [done|].
    intros a b. by eapply Hcount.
  - intros st [ws ->]%web_run_point_writes.
    pose proof (web_writes_edges_wf ws). split; [done|]. intros a b. by eapply Hcount.
Qed.

Lemma run_edges_deduplicated_witness :
  edge_count "A" "C"
    (Web.edges
       (web_final (Web.start_discovery common_peer_net lifo
                     [("http://1.1.1.1:26657", "a"); ("http://2.2.2.2:26657", "b")] 3)))
  ≤ 1.
Proof.
  destruct (run_edges_deduplicated common_peer_net) as [_ Hrun].
  apply Hrun.
  apply (web_start_discovery_run_point common_peer_net lifo
           [("http://1.1.1.1:26657", "a"); ("http://2.2.2.2:26657", "b")] 3).
  vm_compute. reflexivity.
Defined.

(** ** Edges never carry an empty identity *)

Lemma edge_requests_nonempty_app (ev1 ev2 : list store_event) :
  edge_requests_nonempty (ev1 ++ ev2) ↔
  edge_requests_nonempty ev1 ∧ edge_requests_nonempty ev2.
Proof. apply Forall_app. Qed.

Lemma web_visit_script_nonempty src peer :
  edge_requests_nonempty (web_event <$> web_visit_script src peer).
Proof.
  unfold web_visit_script, edge_requests_nonempty.
  destruct (pe_id peer) as [pid|]; [|by constructor].
  destruct (pe_remote_ip peer) as [ip|]; [|by constructor].
  destruct (Py.truthy (Some pid)) eqn:Hpid; [|by constructor].
  destruct (negb true || negb _); [by constructor|].
  destruct (is_private_ip ip); [by constructor|].
  apply truthy_nonempty in Hpid.
  destruct (Py.truthy (Some src)) eqn:Hsrc; [|by repeat constructor].
  apply truthy_nonempty in Hsrc. by repeat constructor.
Qed.

Lemma web_discover_script_nonempty net src url (st : Web.state) :
  edge_requests_nonempty (web_event <$> web_discover_script net src url st).
Proof.
  unfold web_discover_script. case_decide; [by constructor|].
  rewrite fmap_cons. apply Forall_cons. split; [done|].
  rewrite fmap_bind_list. apply Forall_bind, Forall_forall.
  intros peer _. apply web_visit_script_nonempty.
Qed.

Lemma web_worker_script_nonempty net pid (st : Web.state) :
  edge_requests_nonempty (web_event <$> web_worker_script net pid st).
Proof.
  unfold web_worker_script. destruct (Web.nodes st !! pid) as [w|]; [|by constructor].
  rewrite !fmap_app, !edge_requests_nonempty_app. split; [|split].
  - by destruct (query_status net _); repeat constructor.
  - apply web_discover_script_nonempty.
  - by repeat constructor.
Qed.

Lemma web_seed_script_nonempty net seed_entry (st : Web.state) script :
  web_seed_script net seed_entry st = Some script →
  edge_requests_nonempty (web_event <$> script).
Proof.
  unfold web_seed_script.
  destruct (query_status net seed_entry.1) as [status|]; [|intros [= <-]; by constructor].
  destruct (Py.truthy (si_id status)); [|intros [= <-]; by constructor].
  destruct (Py.split_1 "//" seed_entry.1) as [hp|]; [|done].
  intros [= <-]. rewrite fmap_cons, fmap_app. apply Forall_cons. split; [done|].
  apply edge_requests_nonempty_app. split.
  - apply web_discover_script_nonempty.
  - by repeat constructor.
Qed.

Lemma web_script_edges_nonempty (script : list web_mutation) (st : Web.state) :
  web_edges_nonempty st → edge_requests_nonempty (web_event <$> script) →
  web_edges_nonempty (foldl web_mutate st script).
Proof.
  revert st. induction script as [|m script IH]; intros st Hst; [done|].
  rewrite fmap_cons. intros [Hm Hrest]%Forall_cons. simpl. apply IH; [|done].
  destruct m as [c | a b | u | i | | s]; simpl in *; try done.
  - unfold web_add_node_call, web_edges_nonempty.
    by rewrite (proj1 (web_add_node_edges _ _ _ _ _ _ _ _ _)).
  - unfold Web.add_edge. case_decide; [done|]. intros e. simpl.
    rewrite elem_of_app, list_elem_of_singleton. intros [He | ->]; [by apply Hst | done].
Qed.

Lemma cli_visit_script_nonempty src peer :
  edge_requests_nonempty (cli_event <$> cli_visit_script src peer).
Proof.
  unfold cli_visit_script, edge_requests_nonempty.
  destruct (pe_id peer) as [pid|]; [|by constructor].
  destruct (pe_remote_ip peer) as [ip|]; [|by constructor].
  destruct (Py.truthy (Some pid)) eqn:Hpid; [|by constructor].
  destruct (negb true || negb _); [by constructor|].
  destruct (is_private_ip ip); [by constructor|].
  apply truthy_nonempty in Hpid.
  destruct (Py.truthy (Some src)) eqn:Hsrc; [|by repeat constructor].
  apply truthy_nonempty in Hsrc. by repeat constructor.
Qed.

Lemma cli_discover_script_nonempty net src url (st : Cli.state) :
  edge_requests_nonempty (cli_event <$> cli_discover_script net src url st).
Proof.
  unfold cli_discover_script. case_decide; [by constructor|].
  rewrite fmap_cons. apply Forall_cons. split; [done|].
  rewrite fmap_bind_list. apply Forall_bind, Forall_forall.
  intros peer _. apply cli_visit_script_nonempty.
Qed.

Lemma cli_seed_script_nonempty net seed_url (st : Cli.state) script :
  cli_seed_script net seed_url st = Some script →
  edge_requests_nonempty (cli_event <$> script).
Proof.
  unfold cli_seed_script.
  destruct (query_status net seed_url) as [status|]; [|intros [= <-]; by constructor].
  destruct (Py.truthy (si_id status)); [|intros [= <-]; by constructor].
  destruct (si_moniker status) as [moniker|]; [|done].
  intros [= <-]. rewrite fmap_cons. apply Forall_cons. split; [done|].
  apply cli_discover_script_nonempty.
Qed.

Lemma cli_script_edges_nonempty (script : list cli_mutation) (st : Cli.state) :
  cli_edges_nonempty st → edge_requests_nonempty (cli_event <$> script) →
  cli_edges_nonempty (foldl cli_mutate st script).
Proof.
  revert st. induction script as [|m script IH]; intros st Hst; [done|].
  rewrite fmap_cons. intros [Hm Hrest]%Forall_cons. simpl. apply IH; [|done].
  destruct m as [i ip peer | i n | a b | u]; simpl in *; try done.
  - unfold cli_edges_nonempty. by rewrite (proj1 (cli_add_peer_edges _ _ _ _)).
  - unfold Cli.add_edge. case_decide; [done|]. intros e. simpl.
    rewrite elem_of_app, list_elem_of_singleton. intros [He | ->]; [by apply Hst | done].
Qed.

Lemma web_boundary_edges_nonempty net (st : Web.state) :
  web_boundary net st → web_edges_nonempty st.
Proof.
  induction 1 as [| st seed_entry st' _ IH Hstep | st pid _ IH].
  - intros e He. by apply elem_of_nil in He.
  - rewrite web_seed_script_ok in Hstep.
    destruct (web_seed_script net seed_entry st) as [script|] eqn:E; [|done].
    injection Hstep as <-.
    apply web_script_edges_nonempty; [done | by eapply web_seed_script_nonempty].
  - rewrite web_worker_script_ok.
    apply web_script_edges_nonempty; [done | apply web_worker_script_nonempty].
Qed.

Lemma cli_boundary_edges_nonempty net (st : Cli.state) :
  cli_boundary net st → cli_edges_nonempty st.
Proof.
  induction 1 as [| st seed_url st' _ IH Hstep | st pid url _ IH Hpid].
  - intros e He. by apply elem_of_nil in He.
  - rewrite cli_seed_script_ok in Hstep.
    destruct (cli_seed_script net seed_url st) as [script|] eqn:E; [|done].
    injection Hstep as <-.
    apply cli_script_edges_nonempty; [done | by eapply cli_seed_script_nonempty].
  - rewrite cli_discover_script_ok.
    apply cli_script_edges_nonempty; [done | apply cli_discover_script_nonempty].
Qed.

(** X6.  [add_edge] itself accepts an empty identity, but a run never hands
    it one: at every point of a run, in both variants, both identities of
    every stored edge are non-empty strings. *)
Theorem run_edges_have_identities (net : rpc) :
  (∀ st : Web.state, web_run_point net st → web_edges_nonempty st) ∧
  (∀ st : Cli.state, cli_run_point net st → cli_edges_nonempty st).
Proof.
  split.
  - destruct 1 as [st Hb | st pid k Hb | st seed_entry script k Hb Hs | st Hb].
    + by eapply web_boundary_edges_nonempty.
    + apply web_script_edges_nonempty; [by eapply web_boundary_edges_nonempty|].
      rewrite fmap_take. apply Forall_take, web_worker_script_nonempty.
    + apply web_script_edges_nonempty; [by eapply web_boundary_edges_nonempty|].
      rewrite fmap_take. by eapply Forall_take, web_seed_script_nonempty.
    + exact (web_boundary_edges_nonempty net st Hb).
  - destruct 1 as [st Hb | st pid url k Hb Hpid | st seed_url script k Hb Hs].
    + by eapply cli_boundary_edges_nonempty.
    + apply cli_script_edges_nonempty; [by eapply cli_boundary_edges_nonempty|].
      rewrite fmap_take. apply Forall_take, cli_discover_script_nonempty.
    + apply cli_script_edges_nonempty; [by eapply cli_boundary_edges_nonempty|].
      rewrite fmap_take. by eapply Forall_take, cli_seed_script_nonempty.
Qed.

Lemma run_edges_have_identities_witness :
  web_edges_nonempty
    (web_final (Web.start_discovery common_peer_net lifo
                  [("http://1.1.1.1:26657", "a"); ("http://2.2.2.2:26657", "b")] 3)).
Proof.
  destruct (run_edges_have_identities common_peer_net) as [Hweb _].
  apply Hweb.
  apply (web_start_discovery_run_point common_peer_net lifo
           [("http://1.1.1.1:26657", "a"); ("http://2.2.2.2:26657", "b")] 3).
  vm_compute. reflexivity.
Defined.

(** ** What peer expansion registers *)

Lemma cli_visit_peer_fresh net url src (st0 st : Cli.state) peer :
  peer ∈ query_net_info net url →
  (∀ pid n, Cli.discovered_peers st0 !! pid = None →
            Cli.discovered_peers st !! pid = Some n → fresh_peer_record net url pid n) →
  ∀ pid n, Cli.discovered_peers st0 !! pid = None →
           Cli.discovered_peers (Cli.visit_peer src st peer) !! pid = Some n →
           fresh_peer_record net url pid n.
Proof.
  intros Hin Hold pid n Hnew. unfold Cli.visit_peer.
  destruct (pe_id peer) as [i|] eqn:Hid; [|by apply Hold].
  destruct (pe_remote_ip peer) as [ip|] eqn:Hip; [|by apply Hold].
  destruct (Py.truthy (Some i)) eqn:Hi; [|by apply Hold].
  destruct (Py.truthy (Some ip)) eqn:Hipt; [|by apply Hold].
  simpl negb. simpl orb. cbv iota.
  destruct (is_private_ip ip) eqn:Hpub; [by apply Hold|].
  assert (Cli.discovered_peers (Cli.add_peer i ip peer st) !! pid = Some n →
          fresh_peer_record net url pid n) as Hadd.
  { unfold Cli.add_peer. destruct (Cli.discovered_peers st !! i) eqn:Hl; [by apply Hold|].
    simpl. destruct (decide (pid = i)) as [-> | Hne].
    - rewrite lookup_insert_eq. intros [= <-].
      apply truthy_nonempty in Hi, Hipt. unfold fresh_peer_record. simpl.
      repeat split; try done. by exists peer.
    - rewrite lookup_insert_ne by done. by apply Hold. }
  destruct (Py.truthy (Some src)); [|done].
  by rewrite (proj1 (cli_add_edge_peers _ _ _)).
Qed.

Lemma merge_update_nothing (n : node) : Web.merge_update false None None n = n.
Proof. done. Qed.

Lemma web_visit_peer_fresh net url src (st0 st : Web.state) peer :
  peer ∈ query_net_info net url →
  (∀ pid w, Web.nodes st0 !! pid = None → Web.nodes st !! pid = Some w →
            fresh_peer_record net url pid (Web.w_node w) ∧ Web.w_discovered w = false) →
  ∀ pid w, Web.nodes st0 !! pid = None →
           Web.nodes (Web.visit_peer src st peer) !! pid = Some w →
           fresh_peer_record net url pid (Web.w_node w) ∧ Web.w_discovered w = false.
Proof.
  intros Hin Hold pid w Hnew. unfold Web.visit_peer.
  destruct (pe_id peer) as [i|] eqn:Hid; [|by apply Hold].
  destruct (pe_remote_ip peer) as [ip|] eqn:Hip; [|by apply Hold].
  destruct (Py.truthy (Some i)) eqn:Hi; [|by apply Hold].
  destruct (Py.truthy (Some ip)) eqn:Hipt; [|by apply Hold].
  simpl negb. simpl orb. cbv iota.
  destruct (is_private_ip ip) eqn:Hpub; [by apply Hold|].
  set (st1 := Web.add_node i ip 26656 _ _ false None None st).
  assert (Web.nodes st1 !! pid = Some w →
          fresh_peer_record net url pid (Web.w_node w) ∧ Web.w_discovered w = false) as Hadd.
  { unfold st1. destruct (decide (pid = i)) as [-> | Hne].
    - rewrite web_add_node_lookup.
      destruct (Web.nodes st !! i) as [w0|] eqn:Hl.
      + intros [= <-]. simpl. rewrite merge_update_nothing. by apply Hold.
      + intros [= <-]. apply truthy_nonempty in Hi, Hipt.
        unfold fresh_peer_record. simpl. repeat split; try done. by exists peer.
    - rewrite web_add_node_lookup_ne by done. by apply Hold. }
  destruct (Py.truthy (Some src)); [|done].
  unfold Web.add_edge. by case_decide.
Qed.

(** X7.  A node that [discover_from_node] adds to the registry comes from
    an entry of the peer list of the address queried, has a non-empty
    identity and a non-empty address that [is_private_ip] does not reject,
    and is stored unreached: port 26656, RPC address [http://<ip>:26657],
    [rpc_accessible] false, no application version, no height.  No entry
    with a private address becomes a node. *)
Theorem discover_registers_public_peers (net : rpc) (source_id rpc_url pid : string) :
  (∀ (st : Cli.state) (n : node),
      Cli.discovered_peers st !! pid = None →
      Cli.discovered_peers (Cli.discover_from_node net source_id rpc_url st) !! pid = Some n →
      fresh_peer_record net rpc_url pid n) ∧
  (∀ (st : Web.state) (w : Web.wnode),
      Web.nodes st !! pid = None →
      Web.nodes (Web.discover_from_node net source_id rpc_url st) !! pid = Some w →
      fresh_peer_record net rpc_url pid (Web.w_node w) ∧ Web.w_discovered w = false).
Proof.
  split.
  - intros st n Hnone. unfold Cli.discover_from_node. case_decide; [congruence|].
    assert (∀ peers s,
      (∀ p, p ∈ peers → p ∈ query_net_info net rpc_url) →
      (∀ i m, Cli.discovered_peers st !! i = None →
              Cli.discovered_peers s !! i = Some m → fresh_peer_record net rpc_url i m) →
      ∀ i m, Cli.discovered_peers st !! i = None →
             Cli.discovered_peers (foldl (Cli.visit_peer source_id) s peers) !! i = Some m →
             fresh_peer_record net rpc_url i m) as Hfold.
    { induction peers as [|p peers IH]; intros s Hsub Hs; simpl; [done|].
      apply IH; [intros q Hq; apply Hsub; by right|].
      apply (cli_visit_peer_fresh net rpc_url); [apply Hsub; by left | done]. }
    apply Hfold; [done | | done]. simpl. congruence.
  - intros st w Hnone. unfold Web.discover_from_node. case_decide; [congruence|].
    assert (∀ peers s,
      (∀ p, p ∈ peers → p ∈ query_net_info net rpc_url) →
      (∀ i m, Web.nodes st !! i = None → Web.nodes s !! i = Some m →
              fresh_peer_record net rpc_url i (Web.w_node m) ∧ Web.w_discovered m = false) →
      ∀ i m, Web.nodes st !! i = None →
             Web.nodes (foldl (Web.visit_peer source_id) s peers) !! i = Some m →
             fresh_peer_record net rpc_url i (Web.w_node m) ∧ Web.w_discovered m = false)
      as Hfold.
    { induction peers as [|p peers IH]; intros s Hsub Hs; simpl; [done|].
      apply IH; [intros q Hq; apply Hsub; by right|].
      apply (web_visit_peer_fresh net rpc_url); [apply Hsub; by left | done]. }
    apply Hfold; [done | | done]. simpl. congruence.
Qed.

Lemma discover_registers_public_peers_witness :
  fresh_peer_record shared_address_net "http://1.1.1.1:26657" "X"
    (Cli.peer_node "X" "5.5.5.5"
       (PeerEntry (Some "X") (Some "org-vn-01") (Some "0.34.0") (Some "5.5.5.5"))).
Proof.
  destruct (discover_registers_public_peers shared_address_net "S"
              "http://1.1.1.1:26657" "X") as [Hcli _].
  apply (Hcli Cli.init).
  - reflexivity.
  - vm_compute. reflexivity.
Defined.

(** ** Consistency of the stored records *)

Lemma record_consistent_static (pid : string) (n n' : node) :
  same_static_fields n n' → record_consistent pid n → record_consistent pid n'.
Proof.
  unfold same_static_fields, record_consistent.
  intros (Hid & _ & _ & Hm & _ & Ht & Ho & _) (? & ? & ?).
  rewrite <- Hid, <- Hm, <- Ht, <- Ho. done.
Qed.

Lemma web_mutate_consistent (st : Web.state) (m : web_mutation) :
  map_Forall (fun pid w => record_consistent pid (Web.w_node w) ∧
                           n_rpc_url (Web.w_node w) = rpc_url_of (n_ip (Web.w_node w)))
             (Web.nodes st) →
  map_Forall (fun pid w => record_consistent pid (Web.w_node w) ∧
                           n_rpc_url (Web.w_node w) = rpc_url_of (n_ip (Web.w_node w)))
             (Web.nodes (web_mutate st m)).
Proof.
  intros Hst pid w' Hw'.
  destruct (Web.nodes st !! pid) as [w|] eqn:Hw.
  - destruct (web_mutate_record m st pid w Hw) as (w1 & Hw1 & (Hstatic & _) & _).
    rewrite Hw' in Hw1. injection Hw1 as <-. destruct (Hst pid w Hw) as [Hc Hu].
    split; [by eapply record_consistent_static|].
    destruct Hstatic as (_ & <- & _ & _ & _ & _ & _ & <-). done.
  - destruct m as [c | a b | u | i | | s]; simpl in Hw'; try congruence.
    + unfold web_add_node_call in Hw'. destruct (decide (pid = nc_peer_id c)) as [-> | Hne].
      * rewrite web_add_node_lookup, Hw in Hw'. by injection Hw' as <-.
      * rewrite web_add_node_lookup_ne in Hw' by done. congruence.
    + unfold Web.add_edge in Hw'. case_decide; simpl in Hw'; congruence.
    + destruct (decide (pid = i)) as [-> | Hne].
      * rewrite lookup_alter_eq, Hw in Hw'. done.
      * rewrite lookup_alter_ne in Hw' by done. congruence.
Qed.

Lemma cli_boundary_consistent net (st : Cli.state) :
  cli_boundary net st →
  map_Forall (fun pid n => record_consistent pid n) (Cli.discovered_peers st).
Proof.
  assert (∀ script s,
    Forall (fun m => match m with CSetSeed i n => record_consistent i n | _ => True end) script →
    map_Forall (fun pid n => record_consistent pid n) (Cli.discovered_peers s) →
    map_Forall (fun pid n => record_consistent pid n)
      (Cli.discovered_peers (foldl cli_mutate s script))) as Hscript.
  { induction script as [|m script IH]; intros s; simpl; [done|].
    intros [Hm Hrest]%Forall_cons Hs. apply IH; [done|].
    destruct m as [i ip peer | i n | a b | u]; simpl; try done.
    - unfold Cli.add_peer. destruct (Cli.discovered_peers s !! i); [done|].
      simpl. by apply map_Forall_insert_2.
    - by apply map_Forall_insert_2.
    - by rewrite (proj1 (cli_add_edge_peers _ _ _)). }
  assert (∀ src url s,
    Forall (fun m => match m with CSetSeed i n => record_consistent i n | _ => True end)
      (cli_discover_script net src url s)) as Hdisc.
  { intros src url s. unfold cli_discover_script. case_decide; [by constructor|].
    apply Forall_cons. split; [done|]. apply Forall_bind, Forall_forall.
    intros peer _. unfold compose, cli_visit_script.
    destruct (pe_id peer) as [pid|]; [|by constructor].
    destruct (pe_remote_ip peer) as [ip|]; [|by constructor].
    destruct (negb _ || negb _); [by constructor|].
    destruct (is_private_ip ip); [by constructor|].
    by destruct (Py.truthy (Some src)); repeat constructor. }
  induction 1 as [| st seed_url st' _ IH Hstep | st pid url _ IH Hpid].
  - apply map_Forall_empty.
  - rewrite cli_seed_script_ok in Hstep.
    destruct (cli_seed_script net seed_url st) as [script|] eqn:E; [|done].
    injection Hstep as <-. apply Hscript; [|done].
    revert E. unfold cli_seed_script.
    destruct (query_status net seed_url) as [status|]; [|intros [= <-]; by constructor].
    destruct (Py.truthy (si_id status)); [|intros [= <-]; by constructor].
    destruct (si_moniker status) as [moniker|]; [|done].
    intros [= <-]. apply Forall_cons. split; [done | apply Hdisc].
  - rewrite cli_discover_script_ok. by apply Hscript.
Qed.

(** X8.  Every record of the registry is consistent with its key and its
    name: the [id] field is the key it is stored under, [type] is
    [get_node_type(moniker)] and [org] is [get_org(moniker)].  In the web
    variant this holds after every sequence of writes, and there the stored
    RPC address is always [http://<ip>:26657]; in the command-line variant
    it holds at every task boundary of the crawl and after the
    accessibility sweep. *)
Theorem registry_records_consistent (net : rpc) :
  (∀ (writes : list web_mutation) pid w,
      Web.nodes (foldl web_mutate Web.reset writes) !! pid = Some w →
      record_consistent pid (Web.w_node w) ∧
      n_rpc_url (Web.w_node w) = rpc_url_of (n_ip (Web.w_node w))) ∧
  (∀ (st : Cli.state) pid n,
      cli_boundary net st →
      (Cli.discovered_peers st !! pid = Some n → record_consistent pid n) ∧
      (Cli.discovered_peers (Cli.check_rpc_accessibility net st) !! pid = Some n →
       record_consistent pid n)).
Proof.
  split.
  - intros writes.
    assert (∀ st,
      map_Forall (fun pid w => record_consistent pid (Web.w_node w) ∧
                               n_rpc_url (Web.w_node w) = rpc_url_of (n_ip (Web.w_node w)))
                 (Web.nodes st) →
      map_Forall (fun pid w => record_consistent pid (Web.w_node w) ∧
                               n_rpc_url (Web.w_node w) = rpc_url_of (n_ip (Web.w_node w)))
                 (Web.nodes (foldl web_mutate st writes))) as H.
    { induction writes as [|m writes IH]; intros st Hst; simpl; [done|].
      by apply IH, web_mutate_consistent. }
    intros pid w Hw. by apply (H Web.reset (map_Forall_empty _) pid w).
  - intros st pid n Hb. pose proof (cli_boundary_consistent net st Hb) as Hall.
    split; [by apply Hall|]. simpl. rewrite lookup_fmap.
    destruct (Cli.discovered_peers st !! pid) as [n0|] eqn:Hn0; [|done].
    simpl. intros [= <-]. specialize (Hall pid n0 Hn0).
    unfold Cli.check_peer. destruct (n_rpc_accessible n0); [done|].
    by destruct (query_status net (n_rpc_url n0)).
Qed.

Lemma cli_crawl_network_boundary net sched seeds fuel (st : Cli.state) :
  Cli.crawl_network net sched seeds fuel = Cli.Finished st → cli_boundary net st.
Proof.
  unfold Cli.crawl_network.
  destruct (Cli.seed_phase net seeds Cli.init) as [st1|e st1] eqn:Es; [|done].
  destruct (Cli.crawl_loop net sched fuel st1) as [st2|] eqn:El; [|done].
  intros [= <-]. eapply cli_crawl_loop_boundary; [|done].
  eapply cli_seed_phase_boundary; [|done]. constructor.
Qed.

Lemma registry_records_consistent_witness :
  record_consistent "X"
    (Cli.peer_node "X" "5.5.5.5"
       (PeerEntry (Some "X") (Some "org-vn-01") (Some "0.34.0") (Some "5.5.5.5"))).
Proof.
  destruct (registry_records_consistent shared_address_net) as [_ Hcli].
  destruct (Hcli (cli_final (Cli.crawl_network shared_address_net fifo
                               ["http://1.1.1.1:26657"] 3))
              "X"
              (Cli.peer_node "X" "5.5.5.5"
                 (PeerEntry (Some "X") (Some "org-vn-01") (Some "0.34.0") (Some "5.5.5.5"))))
    as [Hrec _].
  - apply (cli_crawl_network_boundary shared_address_net fifo ["http://1.1.1.1:26657"] 3).
    vm_compute. reflexivity.
  - apply Hrec. vm_compute. reflexivity.
Defined.

(** ** The accessibility sweep of the command-line variant *)

Lemma check_peer_result_spec net pid (n : node) (r : string) :
  Report.check_peer_result net pid n = Some r ↔
  r = pid ∧ n_rpc_accessible (Cli.check_peer net n) = true.
Proof.
  unfold Report.check_peer_result, Cli.check_peer.
  destruct (n_rpc_accessible n) eqn:Ha.
  - split; [intros [= <-]; by rewrite Ha | by intros [-> _]].
  - destruct (query_status net (n_rpc_url n)); simpl.
    + split; [by intros [= <-] | by intros [-> _]].
    + rewrite Ha. split; [done | by intros [_ ?]].
Qed.

Lemma check_peer_idempotent net (n : node) :
  Cli.check_peer net (Cli.check_peer net n) = Cli.check_peer net n.
Proof.
  destruct (n_rpc_accessible n) eqn:Ha.
  - assert (Cli.check_peer net n = n) as Hn by (unfold Cli.check_peer; by rewrite Ha).
    by rewrite !Hn.
  - destruct (query_status net (n_rpc_url n)) eqn:Hs.
    + unfold Cli.check_peer. by rewrite Ha, Hs.
    + assert (Cli.check_peer net n = n) as Hn by (unfold Cli.check_peer; by rewrite Ha, Hs).
      by rewrite !Hn.
Qed.

Lemma check_peer_static net (n : node) : same_static_fields n (Cli.check_peer net n).
Proof.
  unfold Cli.check_peer. destruct (n_rpc_accessible n); [apply same_static_fields_refl|].
  destruct (query_status net (n_rpc_url n)); [|apply same_static_fields_refl].
  by repeat split.
Qed.

Lemma omap_sublist_fst {A : Type} (f : string * A → option string) (l : list (string * A)) :
  (∀ kv r, f kv = Some r → r = kv.1) → omap f l `sublist_of` l.*1.
Proof.
  intros Hf. induction l as [|kv l IH]; simpl; [constructor|].
  destruct (f kv) as [r|] eqn:E.
  - rewrite (Hf kv r E). by constructor.
  - by constructor.
Qed.

(** X9.  The list [check_rpc_accessibility] returns names each node at most
    once, and names exactly the nodes that are marked [rpc_accessible] once
    the sweep is done (an empty identity would be dropped by [if result]). *)
Theorem sweep_reports_accessible_nodes
    (net : rpc) (sched : scheduler (string * node)) (st : Cli.state) :
  NoDup (Report.accessible net sched st) ∧
  ∀ pid, pid ∈ Report.accessible net sched st ↔
         pid ≠ "" ∧
         ∃ n, Cli.discovered_peers (Cli.check_rpc_accessibility net st) !! pid = Some n ∧
              n_rpc_accessible n = true.
Proof.
  split.
  - unfold Report.accessible.
    eapply sublist_NoDup; [|apply sublist_filter].
    eapply sublist_NoDup;
      [|apply omap_sublist_fst; intros kv r Hr; by apply check_peer_result_spec in Hr as [-> _]].
    rewrite (order_perm sched). apply NoDup_fst_map_to_list.
  - intros pid. unfold Report.accessible.
    rewrite list_elem_of_filter, list_elem_of_omap. simpl. rewrite lookup_fmap. split.
    + intros [Ht ([k n] & Hin & Hr)]. split; [by apply truthy_nonempty|].
      rewrite (order_perm sched) in Hin. apply elem_of_map_to_list in Hin.
      apply check_peer_result_spec in Hr as [-> Hacc]. simpl in *.
      exists (Cli.check_peer net n). by rewrite Hin.
    + intros [Hne (n' & Hn' & Hacc)].
      destruct (Cli.discovered_peers st !! pid) as [n|] eqn:Hn; [|done].
      simpl in Hn'. injection Hn' as <-.
      split; [by apply truthy_Some_ne|]. exists (pid, n). split.
      * rewrite (order_perm sched). by apply elem_of_map_to_list.
      * by apply check_peer_result_spec.
Qed.

(** X10.  The sweep only upgrades: it keeps the keys of the registry, the
    edges and the visit set, it keeps the fields of every record that its
    creation set, it never clears [rpc_accessible], and (against a network
    that answers the same way) sweeping twice gives what sweeping once
    gives. *)
Theorem sweep_only_upgrades (net : rpc) (st : Cli.state) :
  dom (Cli.discovered_peers (Cli.check_rpc_accessibility net st)) = dom (Cli.discovered_peers st) ∧
  Cli.edges (Cli.check_rpc_accessibility net st) = Cli.edges st ∧
  Cli.visited_rpcs (Cli.check_rpc_accessibility net st) = Cli.visited_rpcs st ∧
  (∀ pid n, Cli.discovered_peers st !! pid = Some n →
     ∃ n', Cli.discovered_peers (Cli.check_rpc_accessibility net st) !! pid = Some n' ∧
           same_static_fields n n' ∧
           (n_rpc_accessible n = true → n' = n)) ∧
  Cli.check_rpc_accessibility net (Cli.check_rpc_accessibility net st)
  = Cli.check_rpc_accessibility net st.
Proof.
  split; [simpl; apply dom_fmap_L|]. split; [done|]. split; [done|]. split.
  - intros pid n Hn. exists (Cli.check_peer net n). simpl. rewrite lookup_fmap, Hn.
    split; [done|]. split; [apply check_peer_static|].
    intros Ha. unfold Cli.check_peer. by rewrite Ha.
  - unfold Cli.check_rpc_accessibility. simpl. f_equal.
    rewrite <- map_fmap_compose. apply map_fmap_ext.
    intros i n _. apply check_peer_idempotent.
Qed.

(** ** The list of new peers that [discover_from_node] returns *)

Lemma visit_peer_result_state src (acc : Cli.state * list string) peer :
  (Report.visit_peer_result src acc peer).1 = Cli.visit_peer src acc.1 peer.
Proof.
  unfold Report.visit_peer_result, Cli.visit_peer.
  destruct (pe_id peer) as [pid|]; [|done].
  destruct (pe_remote_ip peer) as [ip|]; [|done].
  destruct (negb _ || negb _); [done|]. by destruct (is_private_ip ip).
Qed.

Lemma visit_peer_result_new src (st0 : Cli.state) (acc : Cli.state * list string) peer :
  (∀ pid, is_Some (Cli.discovered_peers st0 !! pid) →
          is_Some (Cli.discovered_peers acc.1 !! pid)) →
  NoDup acc.2 →
  (∀ pid, pid ∈ acc.2 ↔ Cli.discovered_peers st0 !! pid = None ∧
                         is_Some (Cli.discovered_peers acc.1 !! pid)) →
  let acc' := Report.visit_peer_result src acc peer in
  (∀ pid, is_Some (Cli.discovered_peers st0 !! pid) →
          is_Some (Cli.discovered_peers acc'.1 !! pid)) ∧
  NoDup acc'.2 ∧
  (∀ pid, pid ∈ acc'.2 ↔ Cli.discovered_peers st0 !! pid = None ∧
                          is_Some (Cli.discovered_peers acc'.1 !! pid)).
Proof.
  intros Hmono Hnd Hnew. unfold Report.visit_peer_result.
  destruct (pe_id peer) as [i|]; [|done].
  destruct (pe_remote_ip peer) as [ip|]; [|done].
  destruct (negb _ || negb _); [done|]. destruct (is_private_ip ip); [done|].
  cbv zeta.
  assert (∀ s, Cli.discovered_peers
                 (if Py.truthy (Some src) then Cli.add_edge src i s else s)
               = Cli.discovered_peers s) as Hedge.
  { intros s. destruct (Py.truthy (Some src)); [apply cli_add_edge_peers | done]. }
  simpl. rewrite Hedge. unfold Cli.add_peer.
  destruct (Cli.discovered_peers acc.1 !! i) as [n|] eqn:Hi; [done|]. simpl.
  assert (Cli.discovered_peers st0 !! i = None) as Hi0.
  { destruct (Cli.discovered_peers st0 !! i) eqn:E; [|done].
    destruct (Hmono i) as [? ?]; [eauto | congruence]. }
  split; [|split].
  - intros pid Hpid. rewrite lookup_insert.
    case_decide; [eauto | by apply Hmono].
  - apply NoDup_app. split; [done|]. split; [|apply NoDup_singleton].
    intros pid Hpid ->%list_elem_of_singleton.
    apply Hnew in Hpid as [_ [? ?]]. congruence.
  - intros pid. rewrite elem_of_app, list_elem_of_singleton, Hnew, lookup_insert.
    case_decide as Hc; [subst; split; [eauto | auto]|].
    split; [intros [? | ?]; [done | congruence] | auto].
Qed.

(** X11.  The list [discover_from_node] returns is the list of the
    identities it added to the registry: without repetition, each one
    absent before the call and present after it, and nothing else was
    added.  Its effect on the stores is the one of [Cli.discover_from_node]. *)
Theorem discover_returns_new_identities
    (net : rpc) (source_id rpc_url : string) (st : Cli.state) :
  let result := Report.discover_from_node_result net source_id rpc_url st in
  result.1 = Cli.discover_from_node net source_id rpc_url st ∧
  NoDup result.2 ∧
  (∀ pid, pid ∈ result.2 ↔
          Cli.discovered_peers st !! pid = None ∧
          is_Some (Cli.discovered_peers result.1 !! pid)) ∧
  dom (Cli.discovered_peers result.1) = dom (Cli.discovered_peers st) ∪ list_to_set result.2.
Proof.
  cbv zeta.
  assert (∀ peers acc,
    (∀ pid, is_Some (Cli.discovered_peers st !! pid) →
            is_Some (Cli.discovered_peers acc.1 !! pid)) →
    NoDup acc.2 →
    (∀ pid, pid ∈ acc.2 ↔ Cli.discovered_peers st !! pid = None ∧
                           is_Some (Cli.discovered_peers acc.1 !! pid)) →
    let acc' := foldl (Report.visit_peer_result source_id) acc peers in
    acc'.1 = foldl (Cli.visit_peer source_id) acc.1 peers ∧
    (∀ pid, is_Some (Cli.discovered_peers st !! pid) →
            is_Some (Cli.discovered_peers acc'.1 !! pid)) ∧
    NoDup acc'.2 ∧
    (∀ pid, pid ∈ acc'.2 ↔ Cli.discovered_peers st !! pid = None ∧
                            is_Some (Cli.discovered_peers acc'.1 !! pid))) as Hfold.
  { induction peers as [|p peers IH]; intros acc Hmono Hnd Hnew; simpl; [done|].
    destruct (visit_peer_result_new source_id st acc p Hmono Hnd Hnew) as (H1 & H2 & H3).
    destruct (IH _ H1 H2 H3) as (Hst & Hrest). split; [|done].
    by rewrite Hst, visit_peer_result_state. }
  assert (let result := Report.discover_from_node_result net source_id rpc_url st in
          result.1 = Cli.discover_from_node net source_id rpc_url st ∧
          (∀ pid, is_Some (Cli.discovered_peers st !! pid) →
                  is_Some (Cli.discovered_peers result.1 !! pid)) ∧
          NoDup result.2 ∧
          (∀ pid, pid ∈ result.2 ↔ Cli.discovered_peers st !! pid = None ∧
                                    is_Some (Cli.discovered_peers result.1 !! pid)))
    as (Hst & Hmono & Hnd & Hnew).
  { unfold Report.discover_from_node_result, Cli.discover_from_node. case_decide.
    - simpl. split; [done|]. split; [done|]. split; [constructor|].
      intros pid. rewrite elem_of_nil. split; [done|].
      intros [Hn [? ?]]. congruence.
    - apply (Hfold _ (Cli.mark_visited rpc_url st, [])); simpl; [done | constructor |].
      intros pid. rewrite elem_of_nil. split; [done|].
      intros [Hn [? ?]]. congruence. }
  split; [done|]. split; [done|]. split; [done|].
  apply set_eq. intros pid.
  rewrite elem_of_union, elem_of_list_to_set, Hnew, !elem_of_dom. split.
  - intros Hin. destruct (Cli.discovered_peers st !! pid) eqn:E; [left; eauto | auto].
  - intros [Hin | [_ Hin]]; [by apply Hmono | done].
Qed.

(** ** The counter of accessible nodes *)

Lemma count_accessible_insert_fresh (m : gmap string Web.wnode) i (w : Web.wnode) :
  m !! i = None →
  Web.count_accessible (<[i := w]> m)
  = (if n_rpc_accessible (Web.w_node w) then 1 else 0) + Web.count_accessible m.
Proof.
  intros Hi. unfold Web.count_accessible. rewrite map_to_list_insert by done.
  rewrite filter_cons. case_decide as Hw; simpl in Hw.
  - by rewrite Hw.
  - by apply not_true_is_false in Hw as ->.
Qed.

Lemma count_accessible_insert_known (m : gmap string Web.wnode) i (w w' : Web.wnode) :
  m !! i = Some w →
  (n_rpc_accessible (Web.w_node w) = true → n_rpc_accessible (Web.w_node w') = true) →
  Web.count_accessible m ≤ Web.count_accessible (<[i := w']> m).
Proof.
  intros Hi Hmono.
  rewrite <- (insert_delete_id m i w Hi) at 1. rewrite <- (insert_delete_eq m i w').
  rewrite !count_accessible_insert_fresh by apply lookup_delete_eq.
  destruct (n_rpc_accessible (Web.w_node w)); [rewrite Hmono by done|]; simpl; lia.
Qed.

Lemma count_accessible_mutate (st : Web.state) (m : web_mutation) :
  Web.count_accessible (Web.nodes st) ≤ Web.count_accessible (Web.nodes (web_mutate st m)).
Proof.
  destruct m as [c | a b | u | i | | s]; simpl; try done.
  - unfold web_add_node_call, Web.add_node.
    destruct (Web.nodes st !! nc_peer_id c) as [w|] eqn:E; simpl.
    + eapply count_accessible_insert_known; [done|]. simpl.
      rewrite merge_update_accessible. intros ->. apply orb_true_r.
    + rewrite count_accessible_insert_fresh by done. lia.
  - unfold Web.add_edge. by case_decide.
  - destruct (Web.nodes st !! i) as [w|] eqn:E.
    + rewrite <- (insert_id _ _ _ E) at 2. rewrite alter_insert_eq.
      by eapply count_accessible_insert_known.
    + replace (alter _ i (Web.nodes st)) with (Web.nodes st); [done|].
      apply map_eq. intros j. destruct (decide (i = j)) as [<- | Hne].
      * by rewrite lookup_alter_eq, E.
      * by rewrite lookup_alter_ne.
Qed.

(** X12.  The counter [accessible_rpc] never counts a node that is not
    accessible: after every sequence of writes from the reset stores it is
    at most the number of records marked [rpc_accessible], and right after
    the update in [crawl_worker] it is that number.  (It can lag behind:
    [add_node] does not touch it, so the seeds, stored as accessible, are
    counted only once a worker has refreshed the counter.) *)
Theorem accessible_counter_never_overcounts (writes : list web_mutation) :
  Web.accessible_rpc (Web.net_stats (foldl web_mutate Web.reset writes))
  ≤ Web.count_accessible (Web.nodes (foldl web_mutate Web.reset writes)) ∧
  Web.accessible_rpc
    (Web.net_stats (Web.refresh_accessible (foldl web_mutate Web.reset writes)))
  = Web.count_accessible
      (Web.nodes (Web.refresh_accessible (foldl web_mutate Web.reset writes))).
Proof.
  split; [|done].
  assert (∀ st,
    Web.accessible_rpc (Web.net_stats st) ≤ Web.count_accessible (Web.nodes st) →
    Web.accessible_rpc (Web.net_stats (foldl web_mutate st writes))
    ≤ Web.count_accessible (Web.nodes (foldl web_mutate st writes))) as H.
  { induction writes as [|m writes IH]; intros st Hst; simpl; [done|].
    apply IH. pose proof (count_accessible_mutate st m) as Hmono.
    destruct m as [c | a b | u | i | | s]; simpl in *; try lia.
    - unfold web_add_node_call, Web.add_node in *.
      destruct (Web.nodes st !! nc_peer_id c); simpl in *; lia.
    - unfold Web.add_edge in *. case_decide; simpl in *; lia. }
  apply H. simpl. lia.
Qed.

(** The counter does lag behind: this run ends with the seed accessible and
    the counter at zero. *)
Lemma accessible_counter_lags :
  let st := web_final (Web.start_discovery shared_address_net fifo
                         [("http://1.1.1.1:26657", "org-seed")] 3) in
  Web.accessible_rpc (Web.net_stats st) = 0 ∧
  Web.count_accessible (Web.nodes st) = 1.
Proof. vm_compute. split; reflexivity. Qed.

(** ** The report of the command-line variant *)

Lemma group_by_org_snoc (items : list (string * node)) (kv : string * node) :
  Report.group_by_org (items ++ [kv])
  = <[n_org kv.2 := default [] (Report.group_by_org items !! n_org kv.2) ++ [kv.2]]>
      (Report.group_by_org items).
Proof. unfold Report.group_by_org. by rewrite foldl_app. Qed.

Lemma org_sizes_step (n : node) (l : list node) (orgs : list string) :
  NoDup orgs →
  sum_list ((fun org => length (filter (fun n0 => n_org n0 = org) (n :: l))) <$> orgs)
  = (if decide (n_org n ∈ orgs) then 1 else 0)
    + sum_list ((fun org => length (filter (fun n0 => n_org n0 = org) l)) <$> orgs).
Proof.
  induction 1 as [|o orgs Ho Hnd IH]; [done|].
  rewrite !fmap_cons. simpl sum_list. rewrite IH, filter_cons.
  destruct (decide (n_org n = o)) as [<- | Hne].
  - destruct (decide (n_org n ∈ orgs)) as [Hin | _]; [done|].
    destruct (decide (n_org n ∈ n_org n :: orgs)) as [_ | Hin]; [simpl; lia|].
    destruct Hin. left.
  - destruct (decide (n_org n ∈ orgs)) as [Hin | Hin];
      destruct (decide (n_org n ∈ o :: orgs)) as [Hin' | Hin']; try lia.
    + destruct Hin'. by right.
    + by apply elem_of_cons in Hin' as [? | ?].
Qed.

Lemma org_sizes_add_up (l : list node) (orgs : list string) :
  NoDup orgs → (∀ n, n ∈ l → n_org n ∈ orgs) →
  sum_list ((fun org => length (filter (fun n0 => n_org n0 = org) l)) <$> orgs)
  = length l.
Proof.
  intros Hnd. induction l as [|n l IH]; intros Hall.
  - clear. induction orgs as [|o orgs IHo]; [done|].
    simpl in *. exact IHo.
  - rewrite org_sizes_step by done. rewrite decide_True by (apply Hall; left).
    rewrite IH; [done|]. intros n' Hn'. apply Hall. by right.
Qed.

(** X13.  The grouping of [print_results] puts every node into the group of
    its own organization, exactly once and in the order of the registry,
    and makes no empty group: the group stored under [org] is the list of
    the nodes whose [org] field is [org], and [org] is a key only if there
    is such a node.  So the group sizes add up to the number of nodes. *)
Theorem report_groups_by_org (items : list (string * node)) :
  (∀ org : string,
      Report.group_by_org items !! org =
      match filter (fun n => n_org n = org) items.*2 with
      | [] => None
      | n :: rest => Some (n :: rest)
      end) ∧
  (∀ orgs : list string,
      NoDup orgs → (∀ kv, kv ∈ items → n_org kv.2 ∈ orgs) →
      sum_list ((fun org => length (default [] (Report.group_by_org items !! org))) <$> orgs)
      = length items).
Proof.
  assert (∀ org : string,
      Report.group_by_org items !! org =
      match filter (fun n => n_org n = org) items.*2 with
      | [] => None
      | n :: rest => Some (n :: rest)
      end) as Hgroups.
  { induction items as [|kv items IH] using rev_ind; intros org; [done|].
    rewrite group_by_org_snoc, fmap_app, filter_app, lookup_insert. simpl.
    rewrite filter_cons, filter_nil.
    case_decide as Horg.
    - subst org. rewrite IH. by destruct (filter _ items.*2).
    - rewrite app_nil_r. apply IH. }
  split; [done|].
  intros orgs Hnd Hall.
  assert (∀ org, default [] (Report.group_by_org items !! org)
                 = filter (fun n => n_org n = org) items.*2) as Hdef.
  { intros org. rewrite Hgroups. by destruct (filter _ items.*2). }
  erewrite list_fmap_ext; [|intros ? org _; by rewrite Hdef]. clear Hgroups Hdef.
  rewrite <- (length_fmap snd items). apply org_sizes_add_up; [done|].
  intros n ([k n'] & -> & Hin)%list_elem_of_fmap. by apply (Hall (k, n')).
Qed.

Lemma report_groups_by_org_witness :
  sum_list
    ((fun org =>
        length (default []
                  (Report.group_by_org
                     (map_to_list
                        (Cli.discovered_peers
                           (cli_final (Cli.crawl_network shared_address_net fifo
                                         ["http://1.1.1.1:26657"] 3))))
                   !! org)))
       <$> ["org"])
  = 3.
Proof.
  destruct (report_groups_by_org
              (map_to_list
                 (Cli.discovered_peers
                    (cli_final (Cli.crawl_network shared_address_net fifo
                                  ["http://1.1.1.1:26657"] 3))))) as [_ Hsum].
  rewrite (Hsum ["org"]).
  - vm_compute. reflexivity.
  - apply NoDup_singleton.
  - intros kv Hkv. apply list_elem_of_singleton.
    vm_compute in Hkv.
    repeat (apply elem_of_cons in Hkv as [-> | Hkv]; [reflexivity|]).
    by apply elem_of_nil in Hkv.
Defined.

Lemma accessible_in_swept_registry
    (net : rpc) (sched : scheduler (string * node)) (st : Cli.state) (pid : string) :
  pid ∈ Report.accessible net sched st →
  is_Some (Cli.discovered_peers (Cli.check_rpc_accessibility net st) !! pid).
Proof.
  unfold Report.accessible.
  rewrite list_elem_of_filter, list_elem_of_omap. simpl. rewrite lookup_fmap.
  intros [_ ([k n] & Hin & Hr)].
  rewrite (order_perm sched) in Hin. apply elem_of_map_to_list in Hin.
  apply check_peer_result_spec in Hr as [-> _]. simpl in *. by rewrite Hin.
Qed.

(** X14.  [print_results] never looks up an identity that is missing from
    the registry when it is given the list the sweep returns: the
    [persistent_peers] line is built without [KeyError], from the first ten
    accessible identities (all of them when there are fewer). *)
Theorem report_persistent_peers_defined
    (net : rpc) (sched : scheduler (string * node)) (st : Cli.state) :
  ∃ entries,
    Report.persistent_peer_entries (Report.accessible net sched st)
      (Cli.discovered_peers (Cli.check_rpc_accessibility net st)) = Some entries ∧
    length entries = Nat.min 10 (length (Report.accessible net sched st)) ∧
    Report.persistent_peers (Report.accessible net sched st)
      (Cli.discovered_peers (Cli.check_rpc_accessibility net st))
    = Some (py_join "," entries).
Proof.
  destruct (mapM_is_Some_2
              (fun pid => (fun n => pid +:+ "@" +:+ n_ip n +:+ ":26656") <$>
                          Cli.discovered_peers (Cli.check_rpc_accessibility net st) !! pid)
              (take 10 (Report.accessible net sched st))) as [entries Hentries].
  { apply Forall_forall. intros pid Hin%subseteq_take. unfold compose.
    apply accessible_in_swept_registry in Hin as [n Hn]. rewrite Hn. simpl. eauto. }
  exists entries. unfold Report.persistent_peers, Report.persistent_peer_entries.
  rewrite Hentries. split; [done|]. split; [|done].
  apply length_mapM in Hentries. by rewrite <- Hentries, length_take.
Qed.

(** ** Names and addresses *)

Lemma append_cons (c : ascii) (a b : string) : String c a +:+ b = String c (a +:+ b).
Proof. reflexivity. Qed.

Lemma prefix_nil (s : string) : String.prefix "" s = true.
Proof. by destruct s. Qed.

Lemma prefix_split (p s : string) : String.prefix p s = true → ∃ r, s = p +:+ r.
Proof.
  revert s. induction p as [|c p IH]; intros s Hp; [by exists s|].
  destruct s as [|c' s]; [done|]. simpl in Hp.
  destruct (ascii_dec c c') as [<- | ?]; [|done].
  destruct (IH s Hp) as [r ->]. by exists r.
Qed.

Lemma substring_all (s : string) (n : nat) :
  String.length s ≤ n → String.substring 0 n s = s.
Proof.
  revert n. induction s as [|c s IH]; intros n Hn; [by destruct n|].
  destruct n as [|n]; simpl in *; [lia|]. rewrite IH; [done | lia].
Qed.

Lemma substring_skip (p a : string) (n : nat) :
  String.substring (String.length p) n (p +:+ a) = String.substring 0 n a.
Proof. induction p as [|c p IH]; [done|]. rewrite append_cons. simpl. apply IH. Qed.

Lemma length_app_ge (p a : string) : String.length a ≤ String.length (p +:+ a).
Proof. induction p as [|c p IH]; [done|]. rewrite append_cons. simpl. lia. Qed.

Lemma no_char_app (c : ascii) (a b : string) :
  no_char c (a +:+ b) ↔ no_char c a ∧ no_char c b.
Proof.
  induction a as [|c' a IH].
  - change ("" +:+ b) with b. simpl. tauto.
  - rewrite append_cons. simpl. rewrite IH. tauto.
Qed.

Lemma prefix_no_char (c : ascii) (p s : string) :
  ¬ no_char c p → no_char c s → String.prefix p s = false.
Proof.
  intros Hp Hs. destruct (String.prefix p s) eqn:E; [|done].
  apply prefix_split in E as [r ->]. apply no_char_app in Hs as [? _]. done.
Qed.

Lemma cut_unfold (sep s : string) :
  Py.cut sep s =
  if String.prefix sep s
  then Some (EmptyString, String.substring (String.length sep) (String.length s) s)
  else match s with
       | EmptyString => None
       | String c s' =>
           match Py.cut sep s' with
           | Some (b, a) => Some (String c b, a)
           | None => None
           end
       end.
Proof. by destruct s. Qed.

Lemma contains_cons (sub : string) (c : ascii) (s : string) :
  Py.contains sub (String c s) = String.prefix sub (String c s) || Py.contains sub s.
Proof. reflexivity. Qed.

Lemma remove_from_cons (old : string) (c : ascii) (s : string) :
  Py.remove_from 0 old (String c s) =
  if String.prefix old (String c s)
  then Py.remove_from (String.length old - 1) old s
  else String c (Py.remove_from 0 old s).
Proof. reflexivity. Qed.

(** The first occurrence of a separator is found after any text that lacks
    the separator's first character. *)
Lemma cut_first (c : ascii) (sep' b a : string) :
  no_char c b →
  Py.cut (String c sep') (b +:+ String c sep' +:+ a) = Some (b, a).
Proof.
  induction b as [|c' b IH]; intros Hb.
  - change ("" +:+ String c sep' +:+ a) with (String c sep' +:+ a).
    rewrite cut_unfold.
    pose proof (startswith_app (String c sep') a) as Hp. unfold Py.startswith in Hp.
    rewrite Hp, substring_skip, substring_all; [done|]. apply length_app_ge.
  - destruct Hb as [Hc Hb]. rewrite append_cons, cut_unfold.
    assert (String.prefix (String c sep') (String c' (b +:+ String c sep' +:+ a)) = false)
      as ->.
    { simpl. destruct (ascii_dec c c'); [by subst | done]. }
    by rewrite (IH Hb).
Qed.

Lemma cut_no_char (c : ascii) (sep s : string) :
  ¬ no_char c sep → no_char c s → Py.cut sep s = None.
Proof.
  intros Hsep. induction s as [|c' s IH]; intros Hs.
  - rewrite cut_unfold. by rewrite (prefix_no_char c).
  - rewrite cut_unfold. rewrite (prefix_no_char c) by done.
    destruct Hs as [_ Hs]. by rewrite (IH Hs).
Qed.

Lemma cut_char (c : ascii) (s : string) :
  match Py.cut (String c "") s with
  | Some (b, a) => no_char c b ∧ s = b +:+ String c a ∧ Py.contains (String c "") s = true
  | None => no_char c s ∧ Py.contains (String c "") s = false
  end.
Proof.
  induction s as [|c' s IH]; [done|].
  rewrite cut_unfold, contains_cons.
  assert (String.prefix (String c "") (String c' s) = bool_decide (c = c')) as ->.
  { simpl. rewrite prefix_nil.
    destruct (ascii_dec c c'); [by rewrite bool_decide_true | by rewrite bool_decide_false]. }
  case_bool_decide as Hc.
  - subst c'. simpl. rewrite substring_all by lia. done.
  - destruct (Py.cut (String c "") s) as [[b a]|].
    + destruct IH as (Hb & -> & Hin). simpl. by rewrite Hin.
    + destruct IH as (Hs & Hin). simpl. by rewrite Hin.
Qed.

Lemma get_org_cases (moniker : string) :
  (no_char "-" moniker ∧ get_org moniker = moniker) ∨
  (∃ rest, no_char "-" (get_org moniker) ∧ moniker = get_org moniker +:+ "-" +:+ rest).
Proof.
  unfold get_org, Py.split_0. pose proof (cut_char "-" moniker) as H.
  destruct (Py.cut "-" moniker) as [[b a]|].
  - destruct H as (Hb & Hm & ->). right. by exists a.
  - destruct H as (Hs & ->). by left.
Qed.

(** X15.  [get_org] returns the part of the name before its first hyphen:
    the result has no hyphen, the name is the result alone or the result, a
    hyphen and a rest, the name is returned unchanged exactly when it has no
    hyphen, and applying [get_org] to its own result changes nothing. *)
Theorem get_org_is_hyphen_free_prefix (moniker : string) :
  no_char "-" (get_org moniker) ∧
  (get_org moniker = moniker ∨ ∃ rest, moniker = get_org moniker +:+ "-" +:+ rest) ∧
  (get_org moniker = moniker ↔ no_char "-" moniker) ∧
  get_org (get_org moniker) = get_org moniker.
Proof.
  assert (∀ m, no_char "-" m → get_org m = m) as Hfree.
  { intros m Hm. destruct (get_org_cases m) as [[_ ?] | (rest & _ & Heq)]; [done|].
    rewrite Heq in Hm. apply no_char_app in Hm as [_ Hm]. by destruct Hm. }
  destruct (get_org_cases moniker) as [[Hm Heq] | (rest & Hb & Heq)].
  - rewrite !Heq. split; [done|]. split; [by left|]. by split.
  - split; [done|]. split; [right; by exists rest|]. split; [|by apply Hfree].
    split; [by intros <- | apply Hfree].
Qed.

Lemma remove_from_skip (old p s : string) :
  Py.remove_from (String.length p) old (p +:+ s) = Py.remove_from 0 old s.
Proof. induction p as [|c p IH]; [done|]. rewrite append_cons. simpl. apply IH. Qed.

Lemma remove_from_at_prefix (c : ascii) (old' rest : string) :
  Py.remove_from 0 (String c old') (String c old' +:+ rest)
  = Py.remove_from 0 (String c old') rest.
Proof.
  rewrite append_cons, remove_from_cons, <- append_cons.
  pose proof (startswith_app (String c old') rest) as Hp. unfold Py.startswith in Hp.
  rewrite Hp.
  replace (String.length (String c old') - 1) with (String.length old') by (simpl; lia).
  apply remove_from_skip.
Qed.

Lemma remove_from_no_char (c : ascii) (old s : string) :
  ¬ no_char c old → no_char c s → Py.remove_from 0 old s = s.
Proof.
  intros Hold. induction s as [|c' s IH]; intros Hs; [done|].
  rewrite remove_from_cons, (prefix_no_char c) by done.
  destruct Hs as [_ Hs]. by rewrite (IH Hs).
Qed.

Lemma remove_https_from_http (rest : string) :
  no_char "/" rest →
  Py.remove_all "https://" ("http://" +:+ rest) = "http://" +:+ rest.
Proof.
  intros Hrest. unfold Py.remove_all.
  rewrite !append_cons. change ("" +:+ rest) with rest.
  rewrite !remove_from_cons. simpl.
  rewrite (remove_from_no_char "/"); [done | | done]. simpl. intuition.
Qed.

Lemma seed_rest_no_slash (host port : string) :
  no_char "/" host → no_char "/" port → no_char "/" (host +:+ ":" +:+ port).
Proof.
  intros Hh Hp. apply no_char_app. split; [done|].
  rewrite append_cons. simpl. by split.
Qed.

Lemma cli_seed_host (scheme host port : string) :
  scheme = "http" ∨ scheme = "https" →
  no_char ":" host → no_char "/" host → no_char "/" port →
  Py.split_0 ":"
    (Py.remove_all "http://" (Py.remove_all "https://" (seed_address scheme host port)))
  = host.
Proof.
  intros Hscheme Hcolon Hh Hp.
  pose proof (seed_rest_no_slash host port Hh Hp) as Hrest.
  assert (¬ no_char "/" "http://") as Hhttp by (simpl; intuition).
  assert (¬ no_char "/" "https://") as Hhttps by (simpl; intuition).
  assert (Py.remove_all "http://"
            (Py.remove_all "https://" (seed_address scheme host port))
          = host +:+ ":" +:+ port) as ->.
  { unfold seed_address. destruct Hscheme as [-> | ->].
    - change ("http" +:+ "://" +:+ host +:+ ":" +:+ port)
        with ("http://" +:+ host +:+ ":" +:+ port).
      rewrite remove_https_from_http by done. unfold Py.remove_all.
      rewrite remove_from_at_prefix. by apply (remove_from_no_char "/").
    - change ("https" +:+ "://" +:+ host +:+ ":" +:+ port)
        with ("https://" +:+ host +:+ ":" +:+ port).
      unfold Py.remove_all. rewrite remove_from_at_prefix.
      rewrite (remove_from_no_char "/" "https://") by done.
      by apply (remove_from_no_char "/"). }
  unfold Py.split_0. by rewrite (cut_first ":" "" host port).
Qed.

Lemma web_seed_host (scheme host port : string) :
  scheme = "http" ∨ scheme = "https" →
  no_char ":" host → no_char "/" host → no_char "/" port →
  Py.split_1 "//" (seed_address scheme host port) = Some (host +:+ ":" +:+ port) ∧
  Py.split_0 ":" (host +:+ ":" +:+ port) = host.
Proof.
  intros Hscheme Hcolon Hh Hp.
  pose proof (seed_rest_no_slash host port Hh Hp) as Hrest.
  split; [|unfold Py.split_0; by rewrite (cut_first ":" "" host port)].
  unfold Py.split_1, seed_address.
  assert (Py.cut "//" (scheme +:+ "://" +:+ host +:+ ":" +:+ port)
          = Some (scheme +:+ ":", host +:+ ":" +:+ port)) as ->.
  { destruct Hscheme as [-> | ->].
    - apply (cut_first "/" "/" "http:"). simpl. intuition discriminate.
    - apply (cut_first "/" "/" "https:"). simpl. intuition discriminate. }
  unfold Py.split_0. rewrite (cut_no_char "/"); [done | simpl; intuition | done].
Qed.

(** X16.  A seed address of the form [scheme://host:port] (scheme [http] or
    [https], no colon or slash in the host, no slash in the port) gives the
    host in both seed loops.  The command-line loop stores it: after the
    turn, the record under the seed's identity has the host as [ip] and the
    seed address as [rpc_url], whatever was stored there before.  The web
    loop computes the same host, its subscript [[1]] does not raise, and the
    turn ends normally; the record under the seed's identity has the host
    as [ip] when the identity was not registered before, and keeps the [ip]
    and [rpc_url] it had when it was ([add_node] then only updates). *)
Theorem seed_address_gives_host (scheme host port : string) :
  scheme = "http" ∨ scheme = "https" →
  no_char ":" host → no_char "/" host → no_char "/" port →
  (∀ seed_id moniker status dcl_version,
     n_ip (Cli.seed_node seed_id (seed_address scheme host port) moniker status dcl_version)
     = host) ∧
  Py.split_0 ":" <$> Py.split_1 "//" (seed_address scheme host port) = Some host ∧
  (∀ net moniker st,
     ∃ st', Web.seed_step net (seed_address scheme host port, moniker) st = Web.Ok st') ∧
  (∀ net (st : Cli.state) status moniker,
     query_status net (seed_address scheme host port) = Some status →
     Py.truthy (si_id status) = true →
     si_moniker status = Some moniker →
     ∃ st' n,
       Cli.seed_step net (seed_address scheme host port) st = Cli.Ok st' ∧
       Cli.discovered_peers st' !! Py.get_or "" (si_id status) = Some n ∧
       n_ip n = host ∧ n_rpc_url n = seed_address scheme host port) ∧
  (∀ net moniker (st : Web.state) status,
     query_status net (seed_address scheme host port) = Some status →
     Py.truthy (si_id status) = true →
     ∃ st' w,
       Web.seed_step net (seed_address scheme host port, moniker) st = Web.Ok st' ∧
       Web.nodes st' !! Py.get_or "" (si_id status) = Some w ∧
       match Web.nodes st !! Py.get_or "" (si_id status) with
       | None =>
           n_ip (Web.w_node w) = host ∧ n_rpc_url (Web.w_node w) = rpc_url_of host
       | Some w0 =>
           n_ip (Web.w_node w) = n_ip (Web.w_node w0) ∧
           n_rpc_url (Web.w_node w) = n_rpc_url (Web.w_node w0)
       end).
Proof.
  intros Hscheme Hcolon Hh Hp.
  destruct (web_seed_host scheme host port Hscheme Hcolon Hh Hp) as [Hcut Hhost].
  split; [intros; by apply cli_seed_host|].
  split; [by rewrite Hcut; simpl; rewrite Hhost|].
  split; [|split].
  - intros net moniker st. unfold Web.seed_step. simpl.
    destruct (query_status net _) as [status|]; [|eauto].
    destruct (Py.truthy (si_id status)); [|eauto].
    rewrite Hcut. eauto.
  - intros net st status moniker Hs Ht Hm. unfold Cli.seed_step.
    rewrite Hs, Ht, Hm. eexists _, _. split; [reflexivity|].
    split; [apply cli_discover_lookup; simpl; apply lookup_insert_eq|].
    split; [by apply cli_seed_host | done].
  - intros net moniker st status Hs Ht. unfold Web.seed_step. simpl.
    rewrite Hs, Ht, Hcut, Hhost.
    set (seed_id := Py.get_or "" (si_id status)).
    set (st1 := Web.add_node seed_id host 26656 moniker (si_version status) true
                  (query_abci_info net (seed_address scheme host port))
                  (si_height status) st).
    assert (∃ w1, Web.nodes st1 !! seed_id = Some w1 ∧
                  match Web.nodes st !! seed_id with
                  | None =>
                      n_ip (Web.w_node w1) = host ∧
                      n_rpc_url (Web.w_node w1) = rpc_url_of host
                  | Some w0 =>
                      n_ip (Web.w_node w1) = n_ip (Web.w_node w0) ∧
                      n_rpc_url (Web.w_node w1) = n_rpc_url (Web.w_node w0)
                  end) as (w1 & Hw1 & Hfields).
    { eexists. split; [apply web_add_node_lookup|].
      destruct (Web.nodes st !! seed_id) as [w0|]; simpl; [|done].
      destruct (merge_update_static true
                  (query_abci_info net (seed_address scheme host port))
                  (si_height status) (Web.w_node w0))
        as (_ & <- & _ & _ & _ & _ & _ & <-).
      done. }
    rewrite web_discover_script_ok.
    destruct (web_mutations_record
                (web_discover_script net seed_id (seed_address scheme host port) st1)
                st1 seed_id w1 Hw1)
      as (w2 & Hw2 & ((_ & Hip & _ & _ & _ & _ & _ & Hurl) & _) & _).
    eexists _, (Web.WNode (Web.w_node w2) true). split; [reflexivity|].
    split; [simpl; by rewrite lookup_alter_eq, Hw2|].
    simpl. rewrite <- Hip, <- Hurl. exact Hfields.
Qed.

Lemma seed_address_gives_host_witness :
  (∃ st' n,
     Cli.seed_step shared_address_net "http://1.1.1.1:26657" Cli.init = Cli.Ok st' ∧
     Cli.discovered_peers st' !! "S" = Some n ∧
     n_ip n = "1.1.1.1" ∧ n_rpc_url n = "http://1.1.1.1:26657") ∧
  (∃ st' w,
     Web.seed_step https_seed_net ("https://on.dcl.csa-iot.org:26657", "CSA-ON-01")
       Web.reset = Web.Ok st' ∧
     Web.nodes st' !! "S" = Some w ∧
     n_ip (Web.w_node w) = "on.dcl.csa-iot.org" ∧
     n_rpc_url (Web.w_node w) = "http://on.dcl.csa-iot.org:26657").
Proof.
  split.
  - destruct (seed_address_gives_host "http" "1.1.1.1" "26657")
      as (_ & _ & _ & Hcli & _);
      [by left | simpl; repeat split; discriminate..|].
    apply (Hcli shared_address_net Cli.init
             (StatusInfo (Some "S") (Some "org-seed") (Some "0.34.0") (Some "100"))
             "org-seed"); reflexivity.
  - destruct (seed_address_gives_host "https" "on.dcl.csa-iot.org" "26657")
      as (_ & _ & _ & _ & Hweb);
      [by right | simpl; repeat split; discriminate..|].
    destruct (Hweb https_seed_net "CSA-ON-01" Web.reset
                (StatusInfo (Some "S") (Some "CSA-ON-01") (Some "0.34.0") (Some "100")))
      as (st' & w & Hstep & Hw & Hip & Hurl); [reflexivity..|].
    exists st', w. split; [exact Hstep|]. split; [exact Hw|]. split; [exact Hip|exact Hurl].
Defined.

(** A seed whose identity is already registered keeps the address it was
    listed with: the first seed lists [B] at 2.2.2.2, the second seed then
    answers as [B] from [b.example.org], and the web record of [B] stays at
    2.2.2.2. *)
Lemma web_known_seed_keeps_listed_address :
  ∃ st1 st2 w,
    Web.seed_step listed_seed_net ("http://1.1.1.1:26657", "First-Seed") Web.reset
    = Web.Ok st1 ∧
    Web.seed_step listed_seed_net ("https://b.example.org:26657", "Known-Seed") st1
    = Web.Ok st2 ∧
    Web.nodes st2 !! "B" = Some w ∧
    n_ip (Web.w_node w) = "2.2.2.2" ∧
    Py.split_0 ":" <$> Py.split_1 "//" "https://b.example.org:26657"
    = Some "b.example.org".
Proof. do 3 eexists. repeat split; vm_compute; reflexivity. Qed.

(** Without the condition on the port the two variants part: a port that
    starts with two slashes after a host that ends in [https] makes the
    command-line variant delete text that spans host and port. *)
Lemma seed_address_variants_part :
  n_ip (Cli.seed_node "S" (seed_address "http" "xhttps" "//z") "m"
          (StatusInfo (Some "S") (Some "m") None None) None) = "xz" ∧
  Py.split_0 ":" <$> Py.split_1 "//" (seed_address "http" "xhttps" "//z") = Some "xhttps".
Proof. split; reflexivity. Qed.

(** ** What the sweep records *)

Lemma cli_boundary_peer_or_seed net (st : Cli.state) :
  cli_boundary net st →
  map_Forall (fun _ n => peer_or_seed_record net n) (Cli.discovered_peers st).
Proof.
  assert (∀ script s,
    Forall (fun m => match m with CSetSeed i n => peer_or_seed_record net n | _ => True end)
      script →
    map_Forall (fun _ n => peer_or_seed_record net n) (Cli.discovered_peers s) →
    map_Forall (fun _ n => peer_or_seed_record net n)
      (Cli.discovered_peers (foldl cli_mutate s script))) as Hscript.
  { induction script as [|m script IH]; intros s; simpl; [done|].
    intros [Hm Hrest]%Forall_cons Hs. apply IH; [done|].
    destruct m as [i ip peer | i n | a b | u]; simpl; try done.
    - unfold Cli.add_peer. destruct (Cli.discovered_peers s !! i); [done|].
      simpl. apply map_Forall_insert_2; [|done]. by left.
    - by apply map_Forall_insert_2.
    - by rewrite (proj1 (cli_add_edge_peers _ _ _)). }
  assert (∀ src url s,
    Forall (fun m => match m with CSetSeed i n => peer_or_seed_record net n | _ => True end)
      (cli_discover_script net src url s)) as Hdisc.
  { intros src url s. unfold cli_discover_script. case_decide; [by constructor|].
    apply Forall_cons. split; [done|]. apply Forall_bind, Forall_forall.
    intros peer _. unfold compose, cli_visit_script.
    destruct (pe_id peer) as [pid|]; [|by constructor].
    destruct (pe_remote_ip peer) as [ip|]; [|by constructor].
    destruct (negb _ || negb _); [by constructor|].
    destruct (is_private_ip ip); [by constructor|].
    by destruct (Py.truthy (Some src)); repeat constructor. }
  induction 1 as [| st seed_url st' _ IH Hstep | st pid url _ IH Hpid].
  - apply map_Forall_empty.
  - rewrite cli_seed_script_ok in Hstep.
    destruct (cli_seed_script net seed_url st) as [script|] eqn:E; [|done].
    injection Hstep as <-. apply Hscript; [|done].
    revert E. unfold cli_seed_script.
    destruct (query_status net seed_url) as [status|] eqn:Hs; [|intros [= <-]; by constructor].
    destruct (Py.truthy (si_id status)); [|intros [= <-]; by constructor].
    destruct (si_moniker status) as [moniker|]; [|done].
    intros [= <-]. apply Forall_cons. split; [|apply Hdisc].
    right. simpl. split; [done|]. by exists status.
  - rewrite cli_discover_script_ok. by apply Hscript.
Qed.

(** X17.  After the sweep every record says what its own RPC address
    answers: when [/status] answers, the record is marked accessible and
    holds the application version and the height of the answers; when it
    does not, the record is not accessible and both fields are [None].
    (The network is taken to answer a given address the same way each
    time.) *)
Theorem sweep_records_answers (net : rpc) (st : Cli.state) (pid : string) (n : node) :
  cli_boundary net st →
  Cli.discovered_peers (Cli.check_rpc_accessibility net st) !! pid = Some n →
  answers_recorded net n.
Proof.
  intros Hb. pose proof (cli_boundary_peer_or_seed net st Hb) as Hall.
  simpl. rewrite lookup_fmap.
  destruct (Cli.discovered_peers st !! pid) as [n0|] eqn:Hn0; [|done].
  simpl. intros [= <-]. specialize (Hall pid n0 Hn0).
  unfold answers_recorded, Cli.check_peer.
  destruct Hall as [(Ha & Hd & Hh) | (Ha & status & Hs & Hd & Hh)].
  - rewrite Ha. destruct (query_status net (n_rpc_url n0)) as [status|] eqn:Hs; simpl.
    + by rewrite Hs.
    + by rewrite Hs.
  - rewrite Ha, Hs. done.
Qed.

Lemma sweep_records_answers_witness :
  answers_recorded shared_address_net
    (Cli.peer_node "X" "5.5.5.5"
       (PeerEntry (Some "X") (Some "org-vn-01") (Some "0.34.0") (Some "5.5.5.5"))).
Proof.
  apply (sweep_records_answers shared_address_net
           (cli_final (Cli.crawl_network shared_address_net fifo
                         ["http://1.1.1.1:26657"] 3)) "X").
  - apply (cli_crawl_network_boundary shared_address_net fifo ["http://1.1.1.1:26657"] 3).
    vm_compute. reflexivity.
  - vm_compute. reflexivity.
Defined.

(** ** The port the server listens on *)

Lemma find_port_found (attempt : Z → bind_attempt) (fuel : nat) (start p : Z) :
  find_port attempt fuel start = PortFound p ↔
  (start ≤ p < start + Z.of_nat fuel)%Z ∧ attempt p = Bound ∧
  ∀ q, (start ≤ q < p)%Z → attempt q = RaisesOSError.
Proof.
  revert start. induction fuel as [|fuel IH]; intros start.
  - simpl. split; [done | lia].
  - cbn [find_port]. destruct (attempt start) eqn:E.
    + split.
      * intros [= <-]. split; [lia|]. split; [done | lia].
      * intros (Hp & Hb & Hq). destruct (decide (p = start)) as [-> | Hne]; [done|].
        rewrite (Hq start) in E by lia. done.
    + rewrite IH. split.
      * intros (Hp & Hb & Hq). split; [lia|]. split; [done|].
        intros q Hq'. destruct (decide (q = start)) as [-> | Hne]; [done|].
        apply Hq. lia.
      * intros (Hp & Hb & Hq). assert (p ≠ start) by congruence.
        split; [lia|]. split; [done|]. intros q Hq'. apply Hq. lia.
    + split; [done|]. intros (Hp & Hb & Hq).
      destruct (decide (p = start)) as [-> | Hne]; [congruence|].
      rewrite (Hq start) in E by lia. done.
Qed.

(** X18.  [main] listens on the first port from 8080 on that can be bound:
    the search answers [p] exactly when [p] can be bound and every port
    from 8080 up to [p] raised [OSError] (given turns enough of the loop to
    reach [p]); a port below [p] that ends the [try] block in any other way
    keeps the search from reaching [p]. *)
Theorem main_port_is_first_free (attempt : Z → bind_attempt) (p : Z) :
  (∀ fuel, main_port attempt fuel = PortFound p ↔
           (8080 ≤ p < 8080 + Z.of_nat fuel)%Z ∧ attempt p = Bound ∧
           ∀ q, (8080 ≤ q < p)%Z → attempt q = RaisesOSError) ∧
  (∀ fuel q, (8080 ≤ q < p)%Z → attempt q ≠ RaisesOSError →
             main_port attempt fuel ≠ PortFound p).
Proof.
  split.
  - intros fuel. unfold main_port. apply find_port_found.
  - intros fuel q Hq Hne. unfold main_port. rewrite find_port_found.
    intros (_ & _ & Hall). by apply Hne, Hall.
Qed.

Lemma main_port_is_first_free_witness :
  main_port (fun q => if (q <? 8082)%Z then RaisesOSError else Bound) 5 = PortFound 8082 ∧
  main_port (fun q => if (q =? 8081)%Z then RaisesOther else RaisesOSError) 5
  ≠ PortFound 8082.
Proof.
  split.
  - apply (main_port_is_first_free
             (fun q => if (q <? 8082)%Z then RaisesOSError else Bound) 8082).
    split; [lia|]. split; [reflexivity|].
    intros q Hq. destruct (Z.ltb_spec q 8082); [done | lia].
  - apply (proj2 (main_port_is_first_free
                    (fun q => if (q =? 8081)%Z then RaisesOther else RaisesOSError) 8082)
             5 8081%Z); [lia | discriminate].
Defined.

(** ** When the web variant marks a node accessible *)

Lemma web_mutate_accessible net (Q : string → Prop) (m : web_mutation) (st : Web.state) :
  match m with
  | MAddNode c => nc_rpc_accessible c = true → Q (nc_peer_id c)
  | _ => True
  end →
  (∀ pid w, Web.nodes st !! pid = Some w → n_rpc_accessible (Web.w_node w) = true →
            Q pid ∨ is_Some (query_status net (n_rpc_url (Web.w_node w)))) →
  ∀ pid w, Web.nodes (web_mutate st m) !! pid = Some w →
           n_rpc_accessible (Web.w_node w) = true →
           Q pid ∨ is_Some (query_status net (n_rpc_url (Web.w_node w))).
Proof.
  intros Hm Hst pid w' Hw' Hacc.
  destruct m as [c | a b | u | i | | s]; simpl in Hw'; try by eapply Hst.
  - unfold web_add_node_call in Hw'.
    destruct (decide (pid = nc_peer_id c)) as [-> | Hne].
    + rewrite web_add_node_lookup in Hw'. injection Hw' as <-.
      destruct (Web.nodes st !! nc_peer_id c) as [w|] eqn:Hw; simpl in Hacc.
      * rewrite merge_update_accessible in Hacc.
        destruct (n_rpc_accessible (Web.w_node w)) eqn:Ha.
        -- destruct (Hst _ w Hw Ha) as [? | HA]; [by left | right]. simpl.
           destruct (merge_update_static (nc_rpc_accessible c) (nc_dcl_version c)
                       (nc_height c) (Web.w_node w))
             as (_ & _ & _ & _ & _ & _ & _ & <-).
           done.
        -- rewrite orb_false_r in Hacc. left. by apply Hm.
      * left. by apply Hm.
    + rewrite web_add_node_lookup_ne in Hw' by done. by eapply Hst.
  - unfold Web.add_edge in Hw'. case_decide; simpl in Hw'; by eapply Hst.
  - destruct (decide (pid = i)) as [-> | Hne].
    + rewrite lookup_alter_eq in Hw'.
      destruct (Web.nodes st !! i) as [w|] eqn:Hw; [|done].
      simpl in Hw'. injection Hw' as <-. simpl in *. by eapply Hst.
    + rewrite lookup_alter_ne in Hw' by done. by eapply Hst.
Qed.

Lemma web_script_accessible net (Q : string → Prop) (script : list web_mutation)
    (st : Web.state) :
  Forall (fun m => match m with
                   | MAddNode c => nc_rpc_accessible c = true → Q (nc_peer_id c)
                   | _ => True
                   end) script →
  (∀ pid w, Web.nodes st !! pid = Some w → n_rpc_accessible (Web.w_node w) = true →
            Q pid ∨ is_Some (query_status net (n_rpc_url (Web.w_node w)))) →
  ∀ pid w, Web.nodes (foldl web_mutate st script) !! pid = Some w →
           n_rpc_accessible (Web.w_node w) = true →
           Q pid ∨ is_Some (query_status net (n_rpc_url (Web.w_node w))).
Proof.
  revert st. induction script as [|m script IH]; intros st; simpl; [done|].
  intros [Hm Hrest]%Forall_cons Hst. apply IH; [done|].
  by apply web_mutate_accessible.
Qed.

Lemma web_discover_script_accessible net (Q : string → Prop) src url (st : Web.state) :
  Forall (fun m => match m with
                   | MAddNode c => nc_rpc_accessible c = true → Q (nc_peer_id c)
                   | _ => True
                   end) (web_discover_script net src url st).
Proof.
  unfold web_discover_script. case_decide; [by constructor|].
  apply Forall_cons. split; [done|]. apply Forall_bind, Forall_forall.
  intros peer _. unfold compose, web_visit_script.
  destruct (pe_id peer) as [pid|]; [|by constructor].
  destruct (pe_remote_ip peer) as [ip|]; [|by constructor].
  destruct (negb _ || negb _); [by constructor|].
  destruct (is_private_ip ip); [by constructor|].
  by destruct (Py.truthy (Some src)); repeat constructor.
Qed.

(** X19.  The web variant marks a node accessible only on an answer: at
    every task boundary of a run, a record with [rpc_accessible] set is the
    record of a node whose stored RPC address answers [/status], or it is
    stored under an identity that some [/status] answer carried (a seed,
    whose own address need not be the stored one). *)
Theorem web_accessible_only_on_answer
    (net : rpc) (st : Web.state) (pid : string) (w : Web.wnode) :
  web_boundary net st →
  Web.nodes st !! pid = Some w →
  n_rpc_accessible (Web.w_node w) = true →
  status_answered_for net pid (Web.w_node w).
Proof.
  intros Hb. revert pid w. unfold status_answered_for.
  pose (J := fun pid : string =>
               ∃ url status, query_status net url = Some status ∧ si_id status = Some pid).
  change (∀ pid w, Web.nodes st !! pid = Some w →
                   n_rpc_accessible (Web.w_node w) = true →
                   J pid ∨ is_Some (query_status net (n_rpc_url (Web.w_node w)))).
  induction Hb as [| st seed_entry st' _ IH Hstep | st peer_id _ IH].
  - intros pid w Hw. simpl in Hw. by rewrite lookup_empty in Hw.
  - rewrite web_seed_script_ok in Hstep.
    destruct (web_seed_script net seed_entry st) as [script|] eqn:E; [|done].
    injection Hstep as <-. apply (web_script_accessible net J); [|done].
    revert E. unfold web_seed_script.
    destruct (query_status net seed_entry.1) as [status|] eqn:Hs;
      [|intros [= <-]; by constructor].
    destruct (Py.truthy (si_id status)) eqn:Ht; [|intros [= <-]; by constructor].
    destruct (Py.split_1 "//" seed_entry.1) as [hp|]; [|done].
    intros [= <-]. apply Forall_cons. split.
    + intros _. exists seed_entry.1, status. split; [done|]. simpl.
      by destruct (si_id status).
    + apply Forall_app. split; [apply (web_discover_script_accessible net J)|].
      by repeat constructor.
  - rewrite web_worker_script_ok. unfold web_worker_script.
    destruct (Web.nodes st !! peer_id) as [w0|] eqn:H0; [|done].
    destruct (query_status net (n_rpc_url (Web.w_node w0))) as [status|] eqn:Hs.
    + intros pid w Hw Hacc.
      destruct (decide (pid = peer_id)) as [-> | Hne].
      * right. match type of Hw with Web.nodes (foldl web_mutate st ?script) !! _ = _ =>
          destruct (web_mutations_record script st peer_id w0 H0)
            as (w2 & Hw2 & ((_ & _ & _ & _ & _ & _ & _ & Hurl) & _) & _) end.
        rewrite Hw in Hw2. injection Hw2 as <-. rewrite <- Hurl, Hs. eauto.
      * assert ((J pid ∨ pid = peer_id) ∨
                is_Some (query_status net (n_rpc_url (Web.w_node w)))) as [[? | ?] | ?];
          [|by left|done|by right].
        eapply (web_script_accessible net (fun i => J i ∨ i = peer_id));
          [| |exact Hw|exact Hacc].
        -- apply Forall_app. split.
           { apply Forall_cons. split; [intros _; by right | by repeat constructor]. }
           apply Forall_app.
           split; [apply (web_discover_script_accessible net (fun i => J i ∨ i = peer_id))|].
           by repeat constructor.
        -- intros pid' w' Hw' Hacc'. destruct (IH pid' w' Hw' Hacc'); auto.
    + apply (web_script_accessible net J); [|done].
      apply Forall_app. split; [by constructor|].
      apply Forall_app. split; [apply (web_discover_script_accessible net J)|].
      by repeat constructor.
Qed.

Lemma web_accessible_only_on_answer_witness :
  status_answered_for shared_address_net "S"
    (Web.new_node "S" "1.1.1.1" 26656 "org-seed" (Some "0.34.0") true None (Some "100")).
Proof.
  pose (st' := match Web.seed_step shared_address_net
                       ("http://1.1.1.1:26657", "org-seed") Web.reset with
               | Web.Ok s => s
               | Web.Raise _ s => s
               end).
  apply (web_accessible_only_on_answer shared_address_net st' "S"
           (Web.WNode (Web.new_node "S" "1.1.1.1" 26656 "org-seed" (Some "0.34.0") true
                         None (Some "100")) true)).
  - apply (wb_seed shared_address_net Web.reset ("http://1.1.1.1:26657", "org-seed")).
    + apply wb_reset.
    + vm_compute. reflexivity.
  - vm_compute. reflexivity.
  - reflexivity.
Defined.

(** ** What the status request shows *)

Lemma py_last_py_last {A : Type} (m n : nat) (l : list A) :
  m ≤ n → py_last m (py_last n l) = py_last m l.
Proof.
  intros Hmn. unfold py_last. rewrite length_drop, drop_drop. f_equal. lia.
Qed.

Lemma log_fold_is_py_last (messages : list (string * string)) :
  foldl (fun l tm => Server.log tm.1 tm.2 l) [] messages
  = py_last 100 ((fun tm => Server.log_entry tm.1 tm.2) <$> messages).
Proof.
  induction messages as [|tm messages IH] using rev_ind; [done|].
  rewrite foldl_app, fmap_app. simpl. rewrite IH, log_is_py_last.
  apply py_last_snoc. lia.
Qed.

(** X20.  A status request shows the newest twenty messages of the run:
    cutting the log to a hundred entries in [log] never removes one of the
    twenty that [/api/status] sends, and the request starts no thread. *)
Theorem status_request_shows_newest_twenty
    (messages : list (string * string)) (st : Web.state) :
  Server.do_GET "/api/status"
    (Server.Server st (foldl (fun l tm => Server.log tm.1 tm.2 l) [] messages))
  = (Server.SendStatus (Web.status st) (Web.net_stats st)
       (py_last 20 ((fun tm => Server.log_entry tm.1 tm.2) <$> messages)),
     false).
Proof.
  unfold Server.do_GET. simpl.
  rewrite log_fold_is_py_last, py_last_py_last by lia. done.
Qed.
